(** * xfind: a shadow-DOM aware selector engine (src/xfind.js)

    A shallow embedding of the selector-resolution core of xfind.js and the
    properties its specification states about it.

    Strings are sequences of 8-bit code units ([string]); a JavaScript
    exception is a value of [exn] carried by [result]; the document is an
    inductive tree whose nodes are referred to by their path from the
    document; the browser's selector engine is a parameter of the development
    ([Engine]), with a small instance ([Mini.engine]) to run it on. *)

From Stdlib Require Import List String Ascii Bool Arith ZArith Lia.
From Stdlib Require Import DecimalString.
Import ListNotations.
Open Scope bool_scope.
Open Scope list_scope.

(* ================================================================== *)
(** ** Exceptions *)

Inductive exn : Type :=
| SyntaxError (selector : string)   (* thrown by the native selector parser *)
| TypeError (what : string)         (* property access on null *)
| Error (message : string).         (* [throw new Error(...)] *)

Inductive result (A : Type) : Type :=
| Ok (a : A)
| Throw (e : exn).

Arguments Ok {A} a.
Arguments Throw {A} e.

Definition bind {A B : Type} (m : result A) (k : A -> result B) : result B :=
  match m with
  | Ok a => k a
  | Throw e => Throw e
  end.

Notation "x <- m ;; k" := (bind m (fun x => k))
  (at level 61, m at next level, right associativity).

(* ================================================================== *)
(** ** Characters and strings *)

Definition str1 (c : ascii) : string := String c EmptyString.

Definition dquote : ascii := ascii_of_nat 34.
Definition squote : ascii := ascii_of_nat 39.
Definition backslash : ascii := ascii_of_nat 92.
Definition space : ascii := ascii_of_nat 32.
Definition comma : ascii := ascii_of_nat 44.
Definition LF : ascii := ascii_of_nat 10.

(** The characters the regular-expression dot does not match: LF and CR
    (U+2028 and U+2029 lie outside the 8-bit alphabet). *)
Definition lineTerminator (c : ascii) : bool :=
  (nat_of_ascii c =? 10) || (nat_of_ascii c =? 13).

(** [\s], which is also what [String.prototype.trim] strips. *)
Definition whiteSpace (c : ascii) : bool :=
  let n := nat_of_ascii c in
  (n =? 9) || (n =? 10) || (n =? 11) || (n =? 12) || (n =? 13)
  || (n =? 32) || (n =? 160).

Fixpoint noLineTerminator (s : string) : bool :=
  match s with
  | EmptyString => true
  | String c s' => negb (lineTerminator c) && noLineTerminator s'
  end.

(* ================================================================== *)
(** ** splitByUnquotedCharacter (xfind.js 152-167) *)

Module Tokenizer.

(** The matches of [/\\?./g] in a non-empty subject, left to right: a
    backslash followed by a character the dot accepts is one two-character
    match, any other character the dot accepts is a one-character match, and
    a line terminator is matched by nothing and skipped. *)
Fixpoint scanTokens (s : string) : list string :=
  match s with
  | EmptyString => []
  | String c rest =>
      if Ascii.eqb c backslash then
        match rest with
        | String d rest' =>
            if lineTerminator d then str1 c :: scanTokens rest
            else String c (str1 d) :: scanTokens rest'
        | EmptyString => [str1 c]
        end
      else if lineTerminator c then scanTokens rest
      else str1 c :: scanTokens rest
  end.

(** [selector.match(/\\?.|^$/g)]: the alternative [^$] matches the empty
    subject only; a subject with no match at all gives [null]. *)
Definition regexMatch (selector : string) : option (list string) :=
  match selector with
  | EmptyString => Some [EmptyString]
  | _ => match scanTokens selector with
         | [] => None
         | toks => Some toks
         end
  end.

Record Acc : Type := mkAcc
  { strings : list string; doubleQuote : Z; singleQuote : Z }.

(** [acc.strings[acc.strings.length - 1] += char].  The array is never empty
    in the reducer (it starts as [['']] and only grows). *)
Fixpoint appendToLast (l : list string) (char : string) : list string :=
  match l with
  | [] => []
  | [x] => [append x char]
  | x :: l' => x :: appendToLast l' char
  end.

Definition falsy (z : Z) : bool := Z.eqb z 0.

Definition reducer (character : string) (acc : Acc) (char : string) : Acc :=
  if String.eqb char (str1 dquote) && falsy (singleQuote acc) then
    mkAcc (appendToLast (strings acc) char)
          (Z.lxor (doubleQuote acc) 1) (singleQuote acc)
  else if String.eqb char (str1 squote) && falsy (doubleQuote acc) then
    mkAcc (appendToLast (strings acc) char)
          (doubleQuote acc) (Z.lxor (singleQuote acc) 1)
  else if falsy (doubleQuote acc) && falsy (singleQuote acc)
          && String.eqb char character then
    mkAcc (strings acc ++ [EmptyString]) (doubleQuote acc) (singleQuote acc)
  else
    mkAcc (appendToLast (strings acc) char) (doubleQuote acc) (singleQuote acc).

Definition initialAcc : Acc := mkAcc [EmptyString] 0 0.

(** The text a list of tokens spells. *)
Definition flatten (toks : list string) : string :=
  fold_right append EmptyString toks.

Definition splitByUnquotedCharacter (selector character : string)
  : result (list string) :=
  match regexMatch selector with
  | None => Throw (TypeError "reduce")
  | Some toks => Ok (strings (fold_left (reducer character) toks initialAcc))
  end.

(** The tokenizer as the specification words it, over characters and two
    boolean quote states: an escaped pair is atomic, a quote toggles its own
    state unless the other one is active, the delimiter separates only
    outside quotes.  [cur] is the piece being built. *)
Fixpoint splitSpec (c : ascii) (dq sq : bool) (cur : string) (s : string)
  : list string :=
  let ordinary x rest :=
    if Ascii.eqb x dquote && negb sq then
      splitSpec c (negb dq) sq (append cur (str1 x)) rest
    else if Ascii.eqb x squote && negb dq then
      splitSpec c dq (negb sq) (append cur (str1 x)) rest
    else if negb dq && negb sq && Ascii.eqb x c then
      cur :: splitSpec c dq sq EmptyString rest
    else splitSpec c dq sq (append cur (str1 x)) rest in
  match s with
  | EmptyString => [cur]
  | String x rest =>
      if Ascii.eqb x backslash then
        match rest with
        | String y rest' =>
            splitSpec c dq sq (append cur (String x (str1 y))) rest'
        | EmptyString => ordinary x rest
        end
      else ordinary x rest
  end.

End Tokenizer.

(* ================================================================== *)
(** ** The document tree *)

Module Dom.

(** An element carries its tag, the content of its open shadow root when it
    hosts one, and its child elements.  Text and comment nodes play no part
    in any query and are left out. *)
#[warnings="-register-all"]
Inductive element : Type :=
| Elem (tagName : string) (shadow : option (list element))
       (children : list element).

(** A document is the list of its child elements. *)
Definition document : Type := list element.

(** A node reference is the path that leads from the document to the node,
    innermost step first: [Child i] enters the i-th child element, [Shadow]
    enters the shadow root of an element.  [[]] is the document itself.  Two
    references are the same node exactly when they are equal. *)
Inductive step : Type :=
| Child (index : nat)
| Shadow.

Definition ref : Type := list step.

Definition step_eqb (a b : step) : bool :=
  match a, b with
  | Child i, Child j => Nat.eqb i j
  | Shadow, Shadow => true
  | _, _ => false
  end.

Fixpoint ref_eqb (a b : ref) : bool :=
  match a, b with
  | [], [] => true
  | x :: a', y :: b' => step_eqb x y && ref_eqb a' b'
  | _, _ => false
  end.

Inductive node : Type :=
| NDocument (kids : list element)
| NElement (e : element)
| NShadowRoot (content : list element).

Definition childElements (n : node) : list element :=
  match n with
  | NDocument kids => kids
  | NElement (Elem _ _ kids) => kids
  | NShadowRoot content => content
  end.

Definition enter (n : node) (s : step) : option node :=
  match s with
  | Child i =>
      match nth_error (childElements n) i with
      | Some e => Some (NElement e)
      | None => None
      end
  | Shadow =>
      match n with
      | NElement (Elem _ (Some content) _) => Some (NShadowRoot content)
      | _ => None
      end
  end.

Fixpoint resolve (d : document) (r : ref) : option node :=
  match r with
  | [] => Some (NDocument d)
  | s :: parent =>
      match resolve d parent with
      | Some n => enter n s
      | None => None
      end
  end.

(** The same walk started from any node. *)
Fixpoint walkFrom (n : node) (steps : ref) : option node :=
  match steps with
  | [] => Some n
  | s :: parent =>
      match walkFrom n parent with
      | Some m => enter m s
      | None => None
      end
  end.

(** [node.nodeType]: 9 document, 1 element, 11 document fragment. *)
Definition nodeType (r : ref) : Z :=
  match r with
  | [] => 9
  | Child _ :: _ => 1
  | Shadow :: _ => 11
  end.

(** [node.parentNode]; a shadow root and the document have none. *)
Definition parentNode (r : ref) : option ref :=
  match r with
  | Child _ :: parent => Some parent
  | _ => None
  end.

(** [node.host], defined on shadow roots only. *)
Definition host (r : ref) : option ref :=
  match r with
  | Shadow :: h => Some h
  | _ => None
  end.

(** Only elements have a [matches] method. *)
Definition hasMatches (r : ref) : bool :=
  match r with
  | Child _ :: _ => true
  | _ => false
  end.

(** [node.shadowRoot] *)
Definition shadowRoot (d : document) (r : ref) : option ref :=
  match resolve d r with
  | Some (NElement (Elem _ (Some _) _)) => Some (Shadow :: r)
  | _ => None
  end.

Fixpoint flatMapi {A B : Type} (f : nat -> A -> list B) (i : nat)
  (l : list A) : list B :=
  match l with
  | [] => []
  | x :: l' => f i x ++ flatMapi f (S i) l'
  end.

(** An element at [r] and the elements below it in its own tree, in tree
    order; shadow content is not part of the tree of its host. *)
Fixpoint subtree (r : ref) (e : element) : list ref :=
  match e with
  | Elem _ _ kids => r :: flatMapi (fun i c => subtree (Child i :: r) c) 0 kids
  end.

Definition treeOrder (parent : ref) (kids : list element) : list ref :=
  flatMapi (fun i c => subtree (Child i :: parent) c) 0 kids.

(** [root.querySelectorAll('*')]: every element below the root in the
    root's own tree, in tree order. *)
Definition querySelectorAllStar (d : document) (root : ref) : list ref :=
  match resolve d root with
  | Some n => treeOrder root (childElements n)
  | None => []
  end.

(** How deeply shadow roots nest below a node; bounds the recursion of the
    collector. *)
Fixpoint shadowDepth (e : element) : nat :=
  match e with
  | Elem _ sh kids =>
      Nat.max
        (match sh with
         | Some content =>
             S (fold_right (fun c m => Nat.max (shadowDepth c) m) 0 content)
         | None => 0
         end)
        (fold_right (fun c m => Nat.max (shadowDepth c) m) 0 kids)
  end.

Definition forestDepth (f : list element) : nat :=
  fold_right (fun c m => Nat.max (shadowDepth c) m) 0 f.

Definition shadowContent (n : node) : option (list element) :=
  match n with
  | NElement (Elem _ sh _) => sh
  | _ => None
  end.

(** No element of the tree of [e], [e] included, hosts a shadow root. *)
Fixpoint shadowFree (e : element) : bool :=
  match e with
  | Elem _ None kids => forallb shadowFree kids
  | Elem _ (Some _) _ => false
  end.

(** The tree reachable from [root] contains no shadow tree. *)
Definition noShadowTrees (d : document) (root : ref) : bool :=
  match resolve d root with
  | Some n =>
      match shadowContent n with
      | Some _ => false
      | None => forallb shadowFree (childElements n)
      end
  | None => true
  end.

Definition nodeDepth (n : node) : nat :=
  match n with
  | NElement e => shadowDepth e
  | NDocument kids => forestDepth kids
  | NShadowRoot content => forestDepth content
  end.

End Dom.

Import Dom.

(* ================================================================== *)
(** ** The browser's selector engine *)

(** What xfind.js takes from its host: the selector parser ([valid]: the
    string parses), the matching of a parsed selector against an element
    relative to a scoping root ([scopedMatches d scope el selector]; the
    scoping root is what [:scope] stands for), and whether elements can
    host shadow roots at all
    ([document.head.createShadowRoot || document.head.attachShadow]). *)
Record Engine : Type := mkEngine
  { valid : string -> bool;
    scopedMatches : document -> ref -> ref -> string -> bool;
    shadowSupport : bool }.

(** The test behind [el.matches(selector)]: there the scoping root is the
    element itself. *)
Definition nativeMatches (E : Engine) (d : document) (el : ref)
  (selector : string) : bool :=
  scopedMatches E d el el selector.

Section Native.

Variable E : Engine.
Variable d : document.

(** [element.matches(selector)] *)
Definition matches (el : ref) (selector : string) : result bool :=
  if valid E selector then Ok (nativeMatches E d el selector)
  else Throw (SyntaxError selector).

(** [root.querySelectorAll(selector)]: the scoping root is [root]. *)
Definition querySelectorAll (root : ref) (selector : string)
  : result (list ref) :=
  if valid E selector then
    Ok (filter (fun el => scopedMatches E d root el selector)
               (querySelectorAllStar d root))
  else Throw (SyntaxError selector).

(** [root.querySelector(selector)] *)
Definition querySelector (root : ref) (selector : string)
  : result (option ref) :=
  l <- querySelectorAll root selector ;; Ok (hd_error l).

End Native.

(* ================================================================== *)
(** ** Combinator normalisation and segmentation (xfind.js 105) *)

Module Segmenter.

Import Tokenizer.

Fixpoint trimStart (s : string) : string :=
  match s with
  | EmptyString => EmptyString
  | String c s' => if whiteSpace c then trimStart s' else s
  end.

Fixpoint trimEnd (s : string) : string :=
  match s with
  | EmptyString => EmptyString
  | String c s' =>
      match trimEnd s' with
      | EmptyString => if whiteSpace c then EmptyString else str1 c
      | t => String c t
      end
  end.

(** [String.prototype.trim] *)
Definition trim (s : string) : string := trimEnd (trimStart s).

Definition combinator (c : ascii) : bool :=
  let n := nat_of_ascii c in (n =? 62) || (n =? 43) || (n =? 126).

(** [s.replace(/\s*([>+~])\s*/g, '$1')].  [pending] is the white space read
    since the last character that was kept; [swallow] holds right after a
    combinator, while the trailing [\s*] of its match is being consumed. *)
Fixpoint replaceCombinators (pending : string) (swallow : bool) (s : string)
  : string :=
  match s with
  | EmptyString => pending
  | String c s' =>
      if combinator c then String c (replaceCombinators EmptyString true s')
      else if whiteSpace c then
        if swallow then replaceCombinators EmptyString true s'
        else replaceCombinators (append pending (str1 c)) false s'
      else append pending (String c (replaceCombinators EmptyString false s'))
  end.

Definition normalize (sel : string) : string :=
  replaceCombinators EmptyString false (trim sel).

(** [Boolean] on a string: the empty string is the only falsy one. *)
Definition truthyString (s : string) : bool :=
  match s with
  | EmptyString => false
  | _ => true
  end.

(** [splitByUnquotedCharacter(sel.trim().replace(...), ' ').filter(Boolean)] *)
Definition refine (sel : string) : result (list string) :=
  pieces <- splitByUnquotedCharacter (normalize sel) (str1 space) ;;
  Ok (filter truthyString pieces).

End Segmenter.

(* ================================================================== *)
(** ** JavaScript values that the query functions return *)

(** [VArray] is a collection of elements in order: an [Array], or the
    [NodeList] that [root.querySelectorAll] returns in the fallback branch of
    [queryInShadowDOM].  The query functions use only what the two have in
    common: the length, the order and the identity of the elements. *)
Inductive value : Type :=
| VNull
| VElement (el : ref)
| VArray (els : list ref).

Definition truthy (v : value) : bool :=
  match v with
  | VNull => false
  | _ => true
  end.

Definition ofOption (o : option ref) : value :=
  match o with
  | Some el => VElement el
  | None => VNull
  end.

(** [array[i]]: [None] stands for [undefined]. *)
Definition index (l : list string) (i : Z) : option string :=
  if (i <? 0)%Z then None else nth_error l (Z.to_nat i).

(** Conversion of an argument to a DOMString. *)
Definition toDOMString (v : option string) : string :=
  match v with
  | Some s => s
  | None => "undefined"%string
  end.

(** [Array.prototype.filter] and [find] with a callback that may throw. *)
Fixpoint filterR {A : Type} (p : A -> result bool) (l : list A)
  : result (list A) :=
  match l with
  | [] => Ok []
  | x :: l' =>
      b <- p x ;;
      rest <- filterR p l' ;;
      Ok (if b then x :: rest else rest)
  end.

Fixpoint findR {A : Type} (p : A -> result bool) (l : list A)
  : result (option A) :=
  match l with
  | [] => Ok None
  | x :: l' => b <- p x ;; if b then Ok (Some x) else findR p l'
  end.

Fixpoint reduceR {A B : Type} (f : B -> A -> result B) (l : list A) (acc : B)
  : result B :=
  match l with
  | [] => Ok acc
  | x :: l' => acc' <- f acc x ;; reduceR f l' acc'
  end.

(* ================================================================== *)
(** ** getParentOrHost (xfind.js 175-178) *)

Definition getParentOrHost (element root : ref) : option ref :=
  match parentNode element with
  | Some parent =>
      match host parent with
      | Some h =>
          if (nodeType parent =? 11)%Z then Some h
          else if ref_eqb parent root then None else Some parent
      | None => if ref_eqb parent root then None else Some parent
      end
  | None => None
  end.

(** The same operation as the specification words it: the structural parent,
    replaced by the owning host when it is a shadow root, and then no node at
    all when what was resolved is the bounding root. *)
Definition resolvedParent (element : ref) : option ref :=
  match parentNode element with
  | Some parent =>
      match host parent with
      | Some h => Some h
      | None => Some parent
      end
  | None => None
  end.

Definition parentSpec (element root : ref) : option ref :=
  match resolvedParent element with
  | Some p => if ref_eqb p root then None else Some p
  | None => None
  end.

(** The structural parent is a shadow root and its host is the bounding
    root. *)
Definition hostIsRoot (element root : ref) : bool :=
  match parentNode element with
  | Some parent =>
      match host parent with
      | Some h => ref_eqb h root
      | None => false
      end
  | None => false
  end.

(* ================================================================== *)
(** ** matchElements (xfind.js 128-144) *)

Section Matcher.

Variable E : Engine.
Variable d : document.

(** The [while] loop of the returned closure.  The result pairs the cursor
    values at which [refinedSelectors] was indexed, in order, with what the
    closure returns or throws; [None] is an exhausted iteration budget. *)
Fixpoint whileLoop (fuel : nat) (refinedSelectors : list string) (root : ref)
  (position : Z) (currentElement : option ref)
  : option (list Z * result bool) :=
  match currentElement with
  | None => Some ([], Ok false)
  | Some cur =>
      match fuel with
      | O => None
      | S fuel' =>
          if hasMatches cur then
            match matches E d cur
                    (toDOMString (index refinedSelectors position)) with
            | Throw e => Some ([position], Throw e)
            | Ok isMatch =>
                if isMatch && (position =? 0)%Z then Some ([position], Ok true)
                else
                  match whileLoop fuel' refinedSelectors root
                          (if isMatch then position - 1 else position)%Z
                          (getParentOrHost cur root) with
                  | Some (reads, r) => Some (position :: reads, r)
                  | None => None
                  end
            end
          else whileLoop fuel' refinedSelectors root position
                 (getParentOrHost cur root)
      end
  end.

(** Every step of the walk moves to a strictly shorter path, so the length
    of the candidate's path plus one bounds the iterations. *)
Definition matchElementsTrace (refinedSelectors : list string) (lastIndex : Z)
  (root element : ref) : option (list Z * result bool) :=
  whileLoop (S (List.length element)) refinedSelectors root lastIndex
    (Some element).

(** The predicate itself.  The budget is never exhausted
    ([whileLoop_total] below), so the last branch is never taken. *)
Definition matchElements (refinedSelectors : list string) (lastIndex : Z)
  (root element : ref) : result bool :=
  match matchElementsTrace refinedSelectors lastIndex root element with
  | Some (_, r) => r
  | None => Ok false
  end.

(** The walk as the specification words it.  [visited] lists the nodes the
    walk passes through: the candidate, then what [getParentOrHost] returns
    for it, and so on until it returns none; [greedy] consumes the components
    from the last one, one cursor, no way back. *)
Fixpoint chain (root : ref) (n : nat) (cur : option ref) : list ref :=
  match n, cur with
  | S n', Some c => c :: chain root n' (getParentOrHost c root)
  | _, _ => []
  end.

Definition visited (root element : ref) : list ref :=
  chain root (S (List.length element)) (Some element).

(** The nodes of the walk when the parent is resolved as the specification
    words it ([parentSpec]): the walk ends as soon as what was resolved is
    the bounding root. *)
Fixpoint chainWorded (root : ref) (n : nat) (cur : option ref) : list ref :=
  match n, cur with
  | S n', Some c => c :: chainWorded root n' (parentSpec c root)
  | _, _ => []
  end.

Definition visitedWorded (root element : ref) : list ref :=
  chainWorded root (S (List.length element)) (Some element).

Fixpoint greedy (components : list string) (cursor : nat) (nodes : list ref)
  : result bool :=
  match nodes with
  | [] => Ok false
  | x :: up =>
      m <- (if hasMatches x
            then matches E d x (nth cursor components EmptyString)
            else Ok false) ;;
      if m then
        match cursor with
        | O => Ok true
        | S k => greedy components k up
        end
      else greedy components cursor up
  end.

End Matcher.

(* ================================================================== *)
(** ** gatherAllElementsXFind (xfind.js 186-204) *)

Section Collector.

Variable E : Engine.
Variable d : document.

(** [collectElements]: the closure pushes onto the array [elements] it
    shares with its caller; here the array is passed in and handed back.
    One unit of [fuel] is spent per call, that is per shadow root entered. *)
Fixpoint collectElements (fuel : nat) (nodes : list ref) (elements : list ref)
  : option (list ref) :=
  match fuel with
  | O => None
  | S fuel' =>
      (fix forOf (nodes : list ref) (elements : list ref) : option (list ref) :=
         match nodes with
         | [] => Some elements
         | node :: more =>
             match shadowRoot d node with
             | Some sr =>
                 match collectElements fuel' (querySelectorAllStar d sr)
                         (elements ++ [node]) with
                 | Some elements' => forOf more elements'
                 | None => None
                 end
             | None => forOf more (elements ++ [node])
             end
         end) nodes elements
  end.

(** Shadow roots nest no deeper than [forestDepth d] anywhere in [d]. *)
Definition budget : nat := S (forestDepth d).

Definition collected (root : ref) : option (list ref) :=
  match
    match shadowRoot d root with
    | Some sr => collectElements budget (querySelectorAllStar d sr) []
    | None => Some []
    end
  with
  | Some elements =>
      collectElements budget (querySelectorAllStar d root) elements
  | None => None
  end.

(** [selector] is [None] for [null] and for [undefined], which the default
    parameter turns into [null].  [collected] is never [None]
    ([collected_discovery] below). *)
Definition gatherAllElementsXFind (selector : option string) (root : ref)
  : result (list ref) :=
  let elements := match collected root with Some l => l | None => [] end in
  match selector with
  | Some s =>
      if Segmenter.truthyString s
      then filterR (fun el => matches E d el s) elements
      else Ok elements
  | None => Ok elements
  end.

(** The collection as the specification words it, by recursion on the tree:
    an element, then everything in its shadow tree, then its children. *)
Fixpoint discover (r : ref) (e : element) : list ref :=
  match e with
  | Elem _ sh kids =>
      r :: match sh with
           | Some content =>
               flatMapi (fun i c => discover (Child i :: Shadow :: r) c)
                 0 content
           | None => []
           end
        ++ flatMapi (fun i c => discover (Child i :: r) c) 0 kids
  end.

Definition discoverForest (parent : ref) (f : list element) : list ref :=
  flatMapi (fun i c => discover (Child i :: parent) c) 0 f.

(** What is collected below a node: for an element, the content of its
    shadow tree goes before the content of its own tree. *)
Definition discoverNode (at_ : ref) (n : node) : list ref :=
  match n with
  | NElement (Elem _ sh kids) =>
      match sh with
      | Some content => discoverForest (Shadow :: at_) content
      | None => []
      end ++ discoverForest at_ kids
  | _ => discoverForest at_ (childElements n)
  end.

Definition discovery (root : ref) : list ref :=
  match resolve d root with
  | Some n => discoverNode root n
  | None => []
  end.

(** Strictly below [root], across any number of shadow boundaries. *)
Definition below (root r : ref) : Prop :=
  exists steps, steps <> [] /\ r = steps ++ root.

Definition isElement (r : ref) : Prop :=
  exists e, resolve d r = Some (NElement e).

End Collector.

Section CollectorStatements.

Variable d : document.

(** *** Statements proved of every element by induction on the tree *)

(** The statement proved of each element by induction on the tree: with a
    budget above the nesting of shadow roots in it, collecting the tree
    order of the element appends what the worded collection lists. *)
Definition collects (e : element) : Prop :=
  forall r fuel elements,
    resolve d r = Some (NElement e) ->
    shadowDepth e <= fuel ->
    collectElements d (S fuel) (subtree r e) elements
    = Some (elements ++ discover r e).

Definition reaches (n : node) (steps : ref) : Prop :=
  exists e, walkFrom n steps = Some (NElement e).

(** An element lists itself and the elements reached from it. *)
Definition lists (e : element) : Prop :=
  forall p x,
    In x (discover p e)
    <-> exists steps, x = steps ++ p /\ reaches (NElement e) steps.

Definition hostAt (h : ref) (content : list element) : Prop :=
  exists t kids, resolve d h = Some (NElement (Elem t (Some content) kids)).

Definition blocks (e : element) : Prop :=
  forall p h content,
    resolve d p = Some (NElement e) ->
    In h (discover p e) -> hostAt h content ->
    exists pre post,
      discover p e = pre ++ h :: discoverForest (Shadow :: h) content ++ post.

End CollectorStatements.

(* ================================================================== *)
(** ** queryInShadowDOM (xfind.js 93-119) *)

Section Query.

Variable E : Engine.
Variable d : document.

Definition alternative (findMany : bool) (root : ref) (accumulator : value)
  (sel : string) : result value :=
  if negb findMany && truthy accumulator then Ok accumulator
  else
    refinedSelectors <- Segmenter.refine sel ;;
    let lastIndex := (Z.of_nat (List.length refinedSelectors) - 1)%Z in
    elementsToMatch <-
      gatherAllElementsXFind E d (index refinedSelectors lastIndex) root ;;
    let matchedElements := matchElements E d refinedSelectors lastIndex root in
    if findMany then
      match accumulator with
      | VArray acc =>
          found <- filterR matchedElements elementsToMatch ;;
          Ok (VArray (acc ++ found))
      | _ => Throw (TypeError "concat")
      end
    else
      found <- findR matchedElements elementsToMatch ;;
      Ok (ofOption found).

Definition queryInShadowDOM (selector : string) (findMany : bool) (root : ref)
  : result value :=
  lightDomElement <- querySelector E d root selector ;;
  if shadowSupport E then
    match findMany, lightDomElement with
    | false, Some el => Ok (VElement el)
    | _, _ =>
        splitSelectors <-
          Tokenizer.splitByUnquotedCharacter selector (str1 comma) ;;
        reduceR (alternative findMany root) splitSelectors
          (if findMany then VArray [] else VNull)
    end
  else if findMany then
    l <- querySelectorAll E d root selector ;; Ok (VArray l)
  else Ok (ofOption lightDomElement).

Definition querySelectorAllXFind (selector : string) (root : ref) :=
  queryInShadowDOM selector true root.

Definition querySelectorXFind (selector : string) (root : ref) :=
  queryInShadowDOM selector false root.

End Query.

(* ================================================================== *)
(** ** performQuery, xfind, xfindAll (xfind.js 19-64, 210-216) *)

(** [selector.split('>>>')]: [skip] counts the characters of a separator
    found that are still to be passed over. *)
Fixpoint splitBoundary (skip : nat) (cur : string) (s : string) : list string :=
  match s with
  | EmptyString => [cur]
  | String c s' =>
      match skip with
      | S k => splitBoundary k cur s'
      | O =>
          if prefix ">>>" s then cur :: splitBoundary 2 EmptyString s'
          else splitBoundary 0 (append cur (str1 c)) s'
      end
  end.

Definition split (selector : string) : list string :=
  splitBoundary 0 EmptyString selector.

(** The selector contains the boundary marker [>>>] somewhere. *)
Fixpoint hasMarker (s : string) : bool :=
  match s with
  | EmptyString => false
  | String _ s' => prefix ">>>" s || hasMarker s'
  end.

(** The character does not occur in the string. *)
Fixpoint absent (c : ascii) (s : string) : bool :=
  match s with
  | EmptyString => true
  | String x s' => negb (Ascii.eqb x c) && absent c s'
  end.

(** A non-empty selector without white space and without comma. *)
Fixpoint unbroken (s : string) : bool :=
  match s with
  | EmptyString => true
  | String c s' =>
      negb (whiteSpace c) && negb (Ascii.eqb c comma) && unbroken s'
  end.

Definition plain (s : string) : bool :=
  Segmenter.truthyString s && unbroken s.

(** The selector is one alternative made of one component: neither the
    split on commas nor the segmentation changes it. *)
Definition singleComponent (s : string) : Prop :=
  Tokenizer.splitByUnquotedCharacter s (str1 comma) = Ok [s]
  /\ Segmenter.refine s = Ok [s].

(** The matching of the selector does not depend on the scoping root: an
    element below [root] is selected by [root.querySelectorAll(selector)]
    exactly when [el.matches(selector)] holds of it.  A selector that uses
    [:scope] need not be so. *)
Definition scopeFree (E : Engine) (d : document) (root : ref)
  (selector : string) : Prop :=
  forall el,
    In el (querySelectorAllStar d root) ->
    scopedMatches E d root el selector = nativeMatches E d el selector.

Inductive consoleLine : Type :=
| ConsoleLog (message : string)
| ConsoleError (message : string).

(** What a call can read or change: the document, the console, and the
    record of the stage queries issued ([queryInShadowDOM] entered with this
    selector on this root); the last is kept for the proofs only. *)
Record world : Type := mkWorld
  { dom : document;
    console : list consoleLine;
    stageQueries : list (string * ref) }.

Definition say (line : consoleLine) (w : world) : world :=
  mkWorld (dom w) (console w ++ [line]) (stageQueries w).

Definition enterStage (selector : string) (root : ref) (w : world) : world :=
  mkWorld (dom w) (console w) (stageQueries w ++ [(selector, root)]).

Definition decimal (n : nat) : string :=
  NilEmpty.string_of_uint (Nat.to_uint n).

Section Orchestrator.

Variable E : Engine.

Definition validateSelector (selector : string) : result unit :=
  if valid E selector then Ok tt
  else Throw (Error (append "Invalid selector: " selector)).

(** The [for] loop of [performQuery] over the stages that remain. *)
Fixpoint stages (findMany : bool) (selectors : list string)
  (currentElement : ref) (w : world) : world * result value :=
  match selectors with
  | [] => (w, Ok (VElement currentElement))
  | sel :: rest =>
      let w1 := enterStage sel currentElement w in
      match rest, findMany with
      | [], true => (w1, querySelectorAllXFind E (dom w) sel currentElement)
      | _, _ =>
          match querySelectorXFind E (dom w) sel currentElement with
          | Throw e => (w1, Throw e)
          | Ok VNull =>
              (say (ConsoleError
                      (append "Selector " (append sel " not found"))) w1,
               Ok (if findMany then VArray [] else VNull))
          | Ok (VElement el) => stages findMany rest el w1
          | Ok (VArray _) => (w1, Throw (TypeError "querySelector"))
          end
      end
  end.

Definition performQuery (selector : string) (findMany : bool) (root : ref)
  (w : world) : world * result value :=
  match validateSelector selector with
  | Throw e => (w, Throw e)
  | Ok _ => stages findMany (split selector) root w
  end.

Definition found (n : string) : consoleLine :=
  ConsoleLog (append "Found " (append n " element(s)")).

Definition xfind (selector : string) (root : ref) (w : world)
  : world * result value :=
  match performQuery selector false root w with
  | (w1, Ok element) =>
      (say (found (if truthy element then "1" else "0")) w1, Ok element)
  | (w1, Throw e) => (w1, Throw e)
  end.

Definition xfindAll (selector : string) (root : ref) (w : world)
  : world * result value :=
  match performQuery selector true root w with
  | (w1, Ok (VArray els)) =>
      (say (found (decimal (List.length els))) w1, Ok (VArray els))
  | (w1, Ok VNull) => (w1, Throw (TypeError "length"))
  | (w1, Ok (VElement el)) => (say (found "undefined") w1, Ok (VElement el))
  | (w1, Throw e) => (w1, Throw e)
  end.


(** The stage queries issued on the way. *)
Fixpoint trail (d : document) (selectors : list string) (root : ref)
  : list (string * ref) :=
  match selectors with
  | [] => []
  | sel :: rest =>
      (sel, root)
      :: match querySelectorXFind E d sel root with
         | Ok (VElement el) => trail d rest el
         | _ => []
         end
  end.

End Orchestrator.

(* ================================================================== *)
(** ** A small selector engine

    Instances of [Engine] to run the definitions on: selector lists of
    tag names, [*] and [:scope] joined by the descendant and child
    combinators, matched the way CSS defines it (every ancestor is tried).
    [standard] parses what the selector grammar has, in which [>>>] is an
    error.  [engine] is a legacy host: it also parses the shadow-piercing
    combinator [>>>] and, as engines that kept it did in querySelector,
    treats it as a descendant combinator. *)

Module Mini.

Inductive token : Type :=
| TName (s : string)
| TStar
| TGt
| TDeep
| TComma
| TSpace.

Definition nameChar (c : ascii) : bool :=
  let n := nat_of_ascii c in
  ((97 <=? n) && (n <=? 122)) || ((65 <=? n) && (n <=? 90))
  || ((48 <=? n) && (n <=? 57)) || (n =? 45) || (n =? 95).

Definition flush (name : string) (rest : list token) : list token :=
  match name with
  | EmptyString => rest
  | _ => TName name :: rest
  end.

(** A colon starts a pseudo-class and is read with its name. *)
Definition wordChar (c : ascii) : bool :=
  nameChar c || (nat_of_ascii c =? 58).

Fixpoint lex (name : string) (s : string) : option (list token) :=
  match s with
  | EmptyString => Some (flush name [])
  | String c s' =>
      if wordChar c then lex (append name (str1 c)) s'
      else
        let n := nat_of_ascii c in
        match
          (if n =? 42 then Some TStar
           else if n =? 62 then Some TGt
           else if n =? 44 then Some TComma
           else if whiteSpace c then Some TSpace
           else None),
          lex EmptyString s'
        with
        | Some t, Some rest => Some (flush name (t :: rest))
        | _, _ => None
        end
  end.

Fixpoint deep (l : list token) : list token :=
  match l with
  | TGt :: TGt :: TGt :: l' => TDeep :: deep l'
  | t :: l' => t :: deep l'
  | [] => []
  end.

Definition operator (t : token) : bool :=
  match t with
  | TGt | TDeep | TComma => true
  | _ => false
  end.

(** Drops the white space that follows an operator or starts the list. *)
Fixpoint dropAfter (afterOp : bool) (l : list token) : list token :=
  match l with
  | [] => []
  | TSpace :: l' =>
      if afterOp then dropAfter true l' else TSpace :: dropAfter true l'
  | t :: l' => t :: dropAfter (operator t) l'
  end.

Definition tidy (l : list token) : list token :=
  rev (dropAfter true (rev (dropAfter true l))).

Inductive comb : Type := Descendant | ChildOf.
Inductive compound : Type := Tag (s : string) | Any | Scope.

(** A word is a tag name or the one pseudo-class [:scope]. *)
Definition compoundOf (word : string) : option compound :=
  if String.eqb word ":scope" then Some Scope
  else if absent (ascii_of_nat 58) word then Some (Tag word)
  else None.

(** A complex selector, rightmost compound first; each compound comes with
    the combinator that ties it to the compound on its left. *)
Definition complex : Type := list (comb * compound).

Fixpoint parse (toks : list token) (expect : option comb) (cur : complex)
  (done : list complex) : option (list complex) :=
  match toks, expect with
  | [], None => Some (rev (cur :: done))
  | TName s :: r, Some k =>
      match compoundOf s with
      | Some c => parse r None ((k, c) :: cur) done
      | None => None
      end
  | TStar :: r, Some k => parse r None ((k, Any) :: cur) done
  | TSpace :: r, None => parse r (Some Descendant) cur done
  | TDeep :: r, None => parse r (Some Descendant) cur done
  | TGt :: r, None => parse r (Some ChildOf) cur done
  | TComma :: r, None => parse r (Some Descendant) [] (cur :: done)
  | _, _ => None
  end.

Definition parseSelector (s : string) : option (list complex) :=
  match lex EmptyString s with
  | Some toks => parse (tidy (deep toks)) (Some Descendant) [] []
  | None => None
  end.


Definition tagOf (d : document) (r : ref) : option string :=
  match resolve d r with
  | Some (NElement (Elem t _ _)) => Some t
  | _ => None
  end.

(** [:scope] is the scoping root when that is an element, and the document
    element when the scoping root is the document. *)
Definition matchesCompound (d : document) (scope r : ref) (c : compound)
  : bool :=
  match c with
  | Tag s =>
      match tagOf d r with
      | Some t => String.eqb t s
      | None => false
      end
  | Any =>
      match tagOf d r with
      | Some _ => true
      | None => false
      end
  | Scope =>
      match tagOf d r with
      | Some _ =>
          match scope with
          | [] => ref_eqb r [Child 0]
          | _ => ref_eqb r scope
          end
      | None => false
      end
  end.

(** The element ancestors of a node inside its own tree, nearest first. *)
Fixpoint ancestors (r : ref) : list ref :=
  match r with
  | Child _ :: ((Child _ :: _) as p) => p :: ancestors p
  | _ => []
  end.

Fixpoint matchesComplex (d : document) (scope : ref) (cx : complex)
  (r : ref) : bool :=
  match cx with
  | [] => true
  | (k, c) :: more =>
      matchesCompound d scope r c &&
      match more with
      | [] => true
      | _ =>
          match k with
          | ChildOf =>
              match ancestors r with
              | p :: _ => matchesComplex d scope more p
              | [] => false
              end
          | Descendant => existsb (matchesComplex d scope more) (ancestors r)
          end
      end
  end.

Definition engineOf (parser : string -> option (list complex)) : Engine :=
  mkEngine
    (fun s => match parser s with Some _ => true | None => false end)
    (fun d scope r s =>
       match parser s with
       | Some l => existsb (fun cx => matchesComplex d scope cx r) l
       | None => false
       end)
    true.

Definition engine : Engine := engineOf parseSelector.


End Mini.

(* ================================================================== *)
(** ** Sample documents *)

Module Sample.

(** [<div><span></span></div>], no shadow tree anywhere. *)
Definition light : document :=
  [Elem "div" None [Elem "span" None []]].

Definition span : ref := [Child 0; Child 0].

(** [<main><panel><span/></panel><footer/></main>] where [panel] hosts a
    shadow tree [<button/><slot/>] and [slot] hosts a shadow tree [<b/>]. *)
Definition nested : document :=
  [Elem "main" None
     [Elem "panel"
        (Some [Elem "button" None [];
               Elem "slot" (Some [Elem "b" None []]) []])
        [Elem "span" None []];
      Elem "footer" None []]].

Definition panel : ref := [Child 0; Child 0].
Definition button : ref := [Child 0; Shadow; Child 0; Child 0].
Definition bold : ref :=
  [Child 0; Shadow; Child 1; Shadow; Child 0; Child 0].

Definition fresh (d : document) : world := mkWorld d [] [].

(** [a[data-x="1,2"],b] and its first piece. *)
Definition quotedPiece : string :=
  append "a[data-x=" (append (str1 dquote)
                        (append "1,2" (append (str1 dquote) "]"))).

Definition quoted : string := append quotedPiece ",b".

End Sample.

(* ================================================================== *)
(** ** highlightElements (xfind.js 222-236) *)

(** What [highlightElements] reads and changes: the inline [outline] of the
    elements, and the callbacks handed to [setTimeout] that have not run
    yet, oldest first.  A callback is the closure made by [highlight]: the
    element and the outline saved for it.  All are set with the same delay,
    so they run in the order in which they were set.  An outline is kept as
    the string that was assigned; how a browser words the same declaration
    when it is read back is not modelled. *)
Record page : Type := mkPage
  { outline : ref -> string;
    timers : list (ref * string) }.

(** [el.style.outline = v] *)
Definition setOutline (el : ref) (v : string) (st : ref -> string)
  : ref -> string :=
  fun x => if ref_eqb x el then v else st x.

Definition highlight (p : page) (el : ref) : page :=
  let originalOutline := outline p el in
  mkPage (setOutline el "2px solid red" (outline p))
         (timers p ++ [(el, originalOutline)]).

(** The argument is an array proper ([Array.isArray], for which [VArray]
    stands here), an element, or a falsy value; a [NodeList] is none of
    these and is not an argument of this model. *)
Definition highlightElements (elements : value) (p : page) : page :=
  match elements with
  | VArray els => fold_left highlight els p
  | VElement el => highlight p el
  | VNull => p
  end.

(** A pending callback runs. *)
Definition timeout (st : ref -> string) (t : ref * string) : ref -> string :=
  setOutline (fst t) (snd t) st.

(** The delay has passed and every pending callback has run, nothing else
    having written an outline meanwhile. *)
Definition afterTimeouts (p : page) : page :=
  mkPage (fold_left timeout (timers p) (outline p)) [].

(** How often the array lists the element. *)
Definition occurrences (x : ref) (els : list ref) : nat :=
  List.length (filter (ref_eqb x) els).

(* ================================================================== *)
(** ** Vocabulary of the further properties *)

(** Every character of the string satisfies the test. *)
Fixpoint allChars (p : ascii -> bool) (s : string) : bool :=
  match s with
  | EmptyString => true
  | String c s' => p c && allChars p s'
  end.

(** The characters of the string that satisfy the test, in order. *)
Fixpoint keep (p : ascii -> bool) (s : string) : string :=
  match s with
  | EmptyString => EmptyString
  | String c s' => if p c then String c (keep p s') else keep p s'
  end.

(** The string with its line terminators deleted. *)
Definition stripLineTerminators (s : string) : string :=
  keep (fun c => negb (lineTerminator c)) s.

(** Neither quote, nor backslash, nor line terminator. *)
Definition ordinaryChar (c : ascii) : bool :=
  negb (Ascii.eqb c dquote) && negb (Ascii.eqb c squote)
  && negb (Ascii.eqb c backslash) && negb (lineTerminator c).

(** The split of a string at every occurrence of a character, quotes or no
    quotes; [cur] is the piece being built. *)
Fixpoint splitOn (c : ascii) (cur : string) (s : string) : list string :=
  match s with
  | EmptyString => [cur]
  | String x s' =>
      if Ascii.eqb x c then cur :: splitOn c EmptyString s'
      else splitOn c (append cur (str1 x)) s'
  end.

(** May stand inside a literal quoted by [q]: not [q], not a backslash, not
    a line terminator. *)
Definition quotable (q c : ascii) : bool :=
  negb (Ascii.eqb c q) && negb (Ascii.eqb c backslash)
  && negb (lineTerminator c).

(** [body] between two [q]. *)
Definition quote (q : ascii) (body : string) : string :=
  String q (append body (str1 q)).

(** [cur] put in front of the first piece. *)
Definition prepend (cur : string) (pieces : list string) : list string :=
  match pieces with
  | [] => []
  | first :: others => append cur first :: others
  end.

(** [s] is [l] with some of its members left out. *)
Inductive subsequence {A : Type} : list A -> list A -> Prop :=
| sub_nil : forall l, subsequence [] l
| sub_take : forall x s l, subsequence s l -> subsequence (x :: s) (x :: l)
| sub_skip : forall x s l, subsequence s l -> subsequence s (x :: l).

(** An element that natively matches the component. *)
Definition matchesAt (E : Engine) (d : document) (n : ref) (c : string)
  : Prop :=
  hasMatches n = true /\ nativeMatches E d n c = true.

(** [null] or one element: what single mode may return. *)
Definition isSingle (v : value) : Prop :=
  v = VNull \/ exists el, v = VElement el.

(** Every element the value holds is collected below [root]. *)
Definition within (d : document) (root : ref) (v : value) : Prop :=
  match v with
  | VNull => True
  | VElement el => In el (discovery d root)
  | VArray els => incl els (discovery d root)
  end.

(** The string without its white space. *)
Definition visible (s : string) : string :=
  keep (fun c => negb (whiteSpace c)) s.

(** No white space stands next to a combinator. *)
Fixpoint tight (s : string) : bool :=
  match s with
  | EmptyString => true
  | String a s' =>
      match s' with
      | EmptyString => true
      | String b _ =>
          negb (Segmenter.combinator a && whiteSpace b)
          && negb (whiteSpace a && Segmenter.combinator b)
      end
      && tight s'
  end.

(** The string does not begin with white space. *)
Definition flushLeft (s : string) : bool :=
  match s with
  | EmptyString => true
  | String a _ => negb (whiteSpace a)
  end.

(* ================================================================== *)
(** * Properties *)

(** A statement proved of every element holds of every element of a list. *)
Ltac every lemma := apply Forall_forall; intros ? _; apply lemma.

(* ================================================================== *)
(** ** Strings *)

Lemma append_nil_r (s : string) : append s EmptyString = s.
Proof. induction s as [|c s IH]; simpl; [reflexivity | now rewrite IH]. Qed.

Lemma append_assoc (a b c : string) :
  append (append a b) c = append a (append b c).
Proof. induction a as [|x a IH]; simpl; [reflexivity | now rewrite IH]. Qed.

Lemma str1_eqb (x y : ascii) : String.eqb (str1 x) (str1 y) = Ascii.eqb x y.
Proof.
  unfold str1. simpl. destruct (Ascii.eqb x y); reflexivity.
Qed.

(** Induction on strings that may step over two characters at once, as the
    scanner does on an escaped pair. *)
Lemma string_pair_ind (P : string -> Prop) :
  P EmptyString ->
  (forall c, P (str1 c)) ->
  (forall c x s, P s -> P (String x s) -> P (String c (String x s))) ->
  forall s, P s.
Proof.
  intros H0 H1 Hs s.
  assert (G : P s /\ forall c, P (String c s)).
  { induction s as [|x s [IH1 IH2]].
    - split; [exact H0 | exact H1].
    - split; [apply IH2 | intro c; apply Hs; [exact IH1 | apply IH2] ]. }
  exact (proj1 G).
Qed.

(* ================================================================== *)
(** ** The tokenizer *)

Section TokenizerFacts.

Import Tokenizer.

Lemma concat_appendToLast (sep : string) (l : list string) (t : string) :
  l <> [] ->
  String.concat sep (appendToLast l t) = append (String.concat sep l) t.
Proof.
  induction l as [|x l IH]; intro Hne; [congruence|].
  destruct l as [|y l].
  - reflexivity.
  - change (appendToLast (x :: y :: l) t) with (x :: appendToLast (y :: l) t).
    assert (Hs : exists z l', appendToLast (y :: l) t = z :: l').
    { destruct l; simpl; eauto. }
    destruct Hs as (z & l' & Hz).
    assert (IH' := IH ltac:(discriminate)). rewrite Hz in *.
    simpl in *. rewrite IH'. now rewrite !append_assoc.
Qed.

Lemma concat_snoc_empty (sep : string) (l : list string) :
  l <> [] ->
  String.concat sep (l ++ [EmptyString]) = append (String.concat sep l) sep.
Proof.
  induction l as [|x l IH]; intro Hne; [congruence|].
  destruct l as [|y l].
  - simpl. now rewrite append_nil_r.
  - assert (IH' := IH ltac:(discriminate)).
    change ((x :: y :: l) ++ [EmptyString])
      with (x :: (y :: l) ++ [EmptyString]).
    assert (Hs : exists z l', (y :: l) ++ [EmptyString] = z :: l')
      by (simpl; eauto).
    destruct Hs as (z & l' & Hz). rewrite Hz in *.
    simpl in *. rewrite IH'. now rewrite !append_assoc.
Qed.

Lemma appendToLast_nonempty (l : list string) (t : string) :
  l <> [] -> appendToLast l t <> [].
Proof. destruct l as [|x [|y l]]; simpl; congruence. Qed.

Lemma reducer_nonempty (character : string) (acc : Acc) (t : string) :
  strings acc <> [] -> strings (reducer character acc t) <> [].
Proof.
  intro H. unfold reducer.
  repeat match goal with |- context [if ?b then _ else _] => destruct b end;
    simpl; try (now apply appendToLast_nonempty).
  destruct (strings acc); simpl; congruence.
Qed.

(** One reducer step adds exactly the token to the text that joining the
    pieces with the delimiter gives back. *)
Lemma reducer_join (c : ascii) (acc : Acc) (t : string) :
  strings acc <> [] ->
  String.concat (str1 c) (strings (reducer (str1 c) acc t))
  = append (String.concat (str1 c) (strings acc)) t.
Proof.
  intro H. unfold reducer.
  destruct (String.eqb t (str1 dquote) && falsy (singleQuote acc));
    [now apply concat_appendToLast|].
  destruct (String.eqb t (str1 squote) && falsy (doubleQuote acc));
    [now apply concat_appendToLast|].
  destruct (falsy (doubleQuote acc) && falsy (singleQuote acc)
            && String.eqb t (str1 c)) eqn:Hd;
    [|now apply concat_appendToLast].
  simpl. apply andb_true_iff in Hd. destruct Hd as [_ Hd].
  apply String.eqb_eq in Hd. subst t. now apply concat_snoc_empty.
Qed.

Lemma fold_join (c : ascii) (toks : list string) (acc : Acc) :
  strings acc <> [] ->
  String.concat (str1 c) (strings (fold_left (reducer (str1 c)) toks acc))
  = append (String.concat (str1 c) (strings acc)) (flatten toks).
Proof.
  revert acc. induction toks as [|t toks IH]; intros acc H; simpl.
  - now rewrite append_nil_r.
  - rewrite IH by now apply reducer_nonempty.
    rewrite reducer_join by assumption. now rewrite append_assoc.
Qed.

(** Without line terminators the scanner drops nothing. *)
Lemma scanTokens_step (c x : ascii) (s : string) :
  scanTokens (String c (String x s))
  = if Ascii.eqb c backslash then
      if lineTerminator x then str1 c :: scanTokens (String x s)
      else String c (str1 x) :: scanTokens s
    else if lineTerminator c then scanTokens (String x s)
    else str1 c :: scanTokens (String x s).
Proof. reflexivity. Qed.

Lemma noLineTerminator_cons (c : ascii) (s : string) :
  noLineTerminator (String c s) = true ->
  lineTerminator c = false /\ noLineTerminator s = true.
Proof.
  simpl. intro H. apply andb_true_iff in H. destruct H as [Hc Hs].
  now apply negb_true_iff in Hc.
Qed.

Lemma scanTokens_flatten (s : string) :
  noLineTerminator s = true -> flatten (scanTokens s) = s.
Proof.
  induction s as [|c|c x s IH1 IH2] using string_pair_ind.
  - reflexivity.
  - intro H. apply noLineTerminator_cons in H. destruct H as [Hc _].
    simpl. destruct (Ascii.eqb c backslash); [reflexivity|].
    now rewrite Hc.
  - intro H. apply noLineTerminator_cons in H. destruct H as [Hc Hs].
    destruct (noLineTerminator_cons _ _ Hs) as [Hx Hs'].
    rewrite scanTokens_step, Hx, Hc.
    destruct (Ascii.eqb c backslash).
    + change (flatten (String c (str1 x) :: scanTokens s))
        with (String c (String x (flatten (scanTokens s)))).
      now rewrite IH1.
    + change (flatten (str1 c :: scanTokens (String x s)))
        with (String c (flatten (scanTokens (String x s)))).
      now rewrite IH2.
Qed.

Lemma scanTokens_nonempty (c : ascii) (s : string) :
  noLineTerminator (String c s) = true -> scanTokens (String c s) <> [].
Proof.
  intro H. apply noLineTerminator_cons in H. destruct H as [Hc Hs].
  destruct s as [|x s].
  - simpl. destruct (Ascii.eqb c backslash); [discriminate|].
    rewrite Hc. discriminate.
  - destruct (noLineTerminator_cons _ _ Hs) as [Hx _].
    rewrite scanTokens_step, Hx, Hc.
    destruct (Ascii.eqb c backslash); discriminate.
Qed.

Lemma regexMatch_scan (s : string) :
  noLineTerminator s = true ->
  exists toks, regexMatch s = Some toks /\ flatten toks = s.
Proof.
  intro H. destruct s as [|c s].
  - exists [EmptyString]. split; reflexivity.
  - exists (scanTokens (String c s)). split.
    + unfold regexMatch.
      destruct (scanTokens (String c s)) eqn:Ht; [|reflexivity].
      now apply scanTokens_nonempty in H.
    + now apply scanTokens_flatten.
Qed.

(** C10.  For an input without line terminators and a one-character
    delimiter, the tokenizer returns pieces, and joining them with the
    delimiter put back between consecutive pieces gives the input again. *)
Theorem split_join_roundtrip (s : string) (c : ascii) :
  noLineTerminator s = true ->
  exists pieces,
    splitByUnquotedCharacter s (str1 c) = Ok pieces
    /\ String.concat (str1 c) pieces = s.
Proof.
  intro H. destruct (regexMatch_scan s H) as (toks & Hm & Hf).
  unfold splitByUnquotedCharacter. rewrite Hm.
  eexists. split; [reflexivity|].
  rewrite fold_join by discriminate. simpl. exact Hf.
Qed.

(** *** The reducer against the worded state machine *)

Lemma appendToLast_cons (x : string) (l : list string) (t : string) :
  l <> [] -> appendToLast (x :: l) t = x :: appendToLast l t.
Proof. destruct l; [congruence | reflexivity]. Qed.

Lemma appendToLast_snoc (done : list string) (cur t : string) :
  appendToLast (done ++ [cur]) t = done ++ [append cur t].
Proof.
  induction done as [|x done IH]; [reflexivity|].
  simpl app. rewrite appendToLast_cons, IH; [reflexivity|].
  now destruct done.
Qed.

Lemma falsy_b2z (b : bool) : falsy (Z.b2z b) = negb b.
Proof. now destruct b. Qed.

Lemma lxor_b2z (b : bool) : Z.lxor (Z.b2z b) 1 = Z.b2z (negb b).
Proof. now destruct b. Qed.

(** What one reducer step does to a one-character token. *)
Lemma reducer_char (c x : ascii) (done : list string) (cur : string)
  (dq sq : bool) :
  reducer (str1 c) (mkAcc (done ++ [cur]) (Z.b2z dq) (Z.b2z sq)) (str1 x)
  = if Ascii.eqb x dquote && negb sq then
      mkAcc (done ++ [append cur (str1 x)]) (Z.b2z (negb dq)) (Z.b2z sq)
    else if Ascii.eqb x squote && negb dq then
      mkAcc (done ++ [append cur (str1 x)]) (Z.b2z dq) (Z.b2z (negb sq))
    else if negb dq && negb sq && Ascii.eqb x c then
      mkAcc ((done ++ [cur]) ++ [EmptyString]) (Z.b2z dq) (Z.b2z sq)
    else mkAcc (done ++ [append cur (str1 x)]) (Z.b2z dq) (Z.b2z sq).
Proof.
  unfold reducer. cbn [strings doubleQuote singleQuote].
  rewrite !str1_eqb, !falsy_b2z, !lxor_b2z, !appendToLast_snoc.
  reflexivity.
Qed.

(** An escaped pair is appended whole and leaves both quote states alone. *)
Lemma reducer_pair (c x y : ascii) (done : list string) (cur : string)
  (dq sq : bool) :
  reducer (str1 c) (mkAcc (done ++ [cur]) (Z.b2z dq) (Z.b2z sq))
    (String x (str1 y))
  = mkAcc (done ++ [append cur (String x (str1 y))]) (Z.b2z dq) (Z.b2z sq).
Proof.
  unfold reducer. cbn [strings doubleQuote singleQuote].
  assert (H : forall z, String.eqb (String x (str1 y)) (str1 z) = false).
  { intro z. unfold str1. simpl. now destruct (Ascii.eqb x z). }
  rewrite !H, !andb_false_r, ?andb_false_l, !appendToLast_snoc.
  reflexivity.
Qed.

Lemma splitSpec_char (c x : ascii) (dq sq : bool) (cur s : string) :
  (Ascii.eqb x backslash = false \/ s = EmptyString) ->
  splitSpec c dq sq cur (String x s)
  = if Ascii.eqb x dquote && negb sq then
      splitSpec c (negb dq) sq (append cur (str1 x)) s
    else if Ascii.eqb x squote && negb dq then
      splitSpec c dq (negb sq) (append cur (str1 x)) s
    else if negb dq && negb sq && Ascii.eqb x c then
      cur :: splitSpec c dq sq EmptyString s
    else splitSpec c dq sq (append cur (str1 x)) s.
Proof.
  intros [H|H].
  - simpl. now rewrite H.
  - subst s. simpl. now destruct (Ascii.eqb x backslash).
Qed.

Lemma fold_char (c x : ascii) (toks : list string) (s : string)
  (done : list string) (cur : string) (dq sq : bool) :
  (Ascii.eqb x backslash = false \/ s = EmptyString) ->
  (forall done cur dq sq,
     strings (fold_left (reducer (str1 c)) toks
                (mkAcc (done ++ [cur]) (Z.b2z dq) (Z.b2z sq)))
     = done ++ splitSpec c dq sq cur s) ->
  strings (fold_left (reducer (str1 c)) (str1 x :: toks)
             (mkAcc (done ++ [cur]) (Z.b2z dq) (Z.b2z sq)))
  = done ++ splitSpec c dq sq cur (String x s).
Proof.
  intros Hx IH. cbn [fold_left].
  rewrite reducer_char, splitSpec_char by exact Hx.
  destruct (Ascii.eqb x dquote && negb sq); [apply IH|].
  destruct (Ascii.eqb x squote && negb dq); [apply IH|].
  destruct (negb dq && negb sq && Ascii.eqb x c); [|apply IH].
  rewrite IH. now rewrite <- app_assoc.
Qed.

Lemma fold_refines (c : ascii) (s : string) :
  noLineTerminator s = true ->
  forall done cur dq sq,
    strings (fold_left (reducer (str1 c)) (scanTokens s)
               (mkAcc (done ++ [cur]) (Z.b2z dq) (Z.b2z sq)))
    = done ++ splitSpec c dq sq cur s.
Proof.
  induction s as [|x|x y s IH1 IH2] using string_pair_ind; intro H.
  - reflexivity.
  - intros done cur dq sq.
    apply noLineTerminator_cons in H. destruct H as [Hx _].
    assert (Ht : scanTokens (str1 x) = [str1 x]).
    { simpl. destruct (Ascii.eqb x backslash); [reflexivity|].
      now rewrite Hx. }
    rewrite Ht. apply fold_char; [now right|]. reflexivity.
  - intros done cur dq sq.
    apply noLineTerminator_cons in H. destruct H as [Hx Hs].
    destruct (noLineTerminator_cons _ _ Hs) as [Hy Hs'].
    rewrite scanTokens_step, Hy, Hx.
    destruct (Ascii.eqb x backslash) eqn:Hb.
    + cbn [fold_left]. rewrite reducer_pair, (IH1 Hs').
      simpl. now rewrite Hb.
    + apply fold_char; [now left|]. exact (IH2 Hs).
Qed.

(** On inputs without line terminators the tokenizer is the worded state
    machine, started outside quotes with an empty piece. *)
Lemma split_refines (s : string) (c : ascii) :
  noLineTerminator s = true ->
  splitByUnquotedCharacter s (str1 c)
  = Ok (splitSpec c false false EmptyString s).
Proof.
  intro H. unfold splitByUnquotedCharacter.
  destruct s as [|x s]; [reflexivity|].
  unfold regexMatch.
  destruct (scanTokens (String x s)) eqn:Ht;
    [now apply scanTokens_nonempty in H|].
  rewrite <- Ht. f_equal.
  exact (fold_refines c _ H [] EmptyString false false).
Qed.

(** The example of the specification: the comma inside the quoted attribute
    value does not separate. *)
Example split_quoted_comma :
  let q := str1 dquote in
  let left := append "a[data-x=" (append q (append "1,2" (append q "]"))) in
  splitByUnquotedCharacter (append left ",b") (str1 comma)
  = Ok [left; "b"%string].
Proof. reflexivity. Qed.

(** C5.  A line feed in the input is matched by no token: it vanishes from
    the pieces, where the worded tokenizer keeps it, and an input that is a
    line feed alone makes the call throw. *)
Theorem split_loses_line_feed :
  splitByUnquotedCharacter (String "a" (String LF "b")) (str1 comma)
    = Ok ["ab"%string]
  /\ splitSpec comma false false EmptyString (String "a" (String LF "b"))
    = [String "a" (String LF "b")]
  /\ splitByUnquotedCharacter (str1 LF) (str1 comma)
    = Throw (TypeError "reduce").
Proof. repeat split; reflexivity. Qed.

End TokenizerFacts.

(* ================================================================== *)
(** ** Host-crossing parent resolution *)

Lemma step_eqb_eq (a b : step) : step_eqb a b = true <-> a = b.
Proof.
  destruct a, b; simpl; split; intro H; try congruence; try discriminate.
  - apply Nat.eqb_eq in H. now subst.
  - inversion H. apply Nat.eqb_refl.
Qed.

Lemma ref_eqb_eq (a b : ref) : ref_eqb a b = true <-> a = b.
Proof.
  revert b. induction a as [|x a IH]; destruct b as [|y b]; simpl;
    split; intro H; try congruence; try discriminate.
  - apply andb_true_iff in H. destruct H as [H1 H2].
    apply step_eqb_eq in H1. apply IH in H2. now subst.
  - inversion H. subst. apply andb_true_iff. split.
    + now apply step_eqb_eq.
    + now apply IH.
Qed.

Lemma ref_eqb_refl (a : ref) : ref_eqb a a = true.
Proof. now apply ref_eqb_eq. Qed.

(** C6, as amended.  The function is the worded contract except in one
    case: when the structural parent is a shadow root whose host is the
    bounding root itself, the host is returned, not the absent marker. *)
Theorem getParentOrHost_contract (element root : ref) :
  getParentOrHost element root
  = if hostIsRoot element root then Some root
    else parentSpec element root.
Proof.
  unfold getParentOrHost, parentSpec, resolvedParent, hostIsRoot.
  destruct element as [|[i|] parent]; simpl; try reflexivity.
  destruct parent as [|[j|] h]; simpl; try reflexivity.
  destruct (ref_eqb h root) eqn:Heq; [|reflexivity].
  apply ref_eqb_eq in Heq. now subst.
Qed.

(** Every step upward shortens the path. *)
Lemma getParentOrHost_shorter (element root p : ref) :
  getParentOrHost element root = Some p -> List.length p < List.length element.
Proof.
  destruct element as [|[i|] parent]; try discriminate.
  unfold getParentOrHost. cbn [parentNode].
  destruct parent as [|[j|] h]; cbn [host nodeType].
  - destruct (ref_eqb _ _); intro H; inversion H; simpl; lia.
  - destruct (ref_eqb _ _); intro H; inversion H; simpl; lia.
  - simpl. intro H; inversion H; subst. lia.
Qed.

(* ================================================================== *)
(** ** The ancestor-chain matcher *)

Section MatcherFacts.

Variable E : Engine.
Variable d : document.

Lemma index_nat (l : list string) (k : nat) :
  k < List.length l ->
  index l (Z.of_nat k) = Some (nth k l EmptyString).
Proof.
  intro H. unfold index.
  destruct (Z.of_nat k <? 0)%Z eqn:Hneg; [apply Z.ltb_lt in Hneg; lia|].
  rewrite Nat2Z.id. now apply nth_error_nth'.
Qed.

(** With a budget above the length of the current path, the loop ends. *)
Lemma whileLoop_total (components : list string) (root : ref) (fuel : nat) :
  forall position cur,
    match cur with Some c => List.length c < fuel | None => True end ->
    exists reads r,
      whileLoop E d fuel components root position cur = Some (reads, r).
Proof.
  induction fuel as [|fuel IH]; intros position [c|] H; simpl;
    try (now eauto); try lia.
  assert (Hnext : forall position',
             exists reads r,
               whileLoop E d fuel components root position'
                 (getParentOrHost c root) = Some (reads, r)).
  { intro position'. apply IH.
    destruct (getParentOrHost c root) as [p|] eqn:Hp; [|exact I].
    apply getParentOrHost_shorter in Hp. lia. }
  destruct (hasMatches c); [|apply Hnext].
  destruct (matches E d c _) as [isMatch|e]; [|now eauto].
  destruct (isMatch && (position =? 0)%Z); [now eauto|].
  destruct (Hnext (if isMatch then position - 1 else position)%Z)
    as (reads & r & Hr).
  rewrite Hr. eauto.
Qed.

(** The loop computes the worded greedy walk over the nodes it visits. *)
Lemma whileLoop_greedy (components : list string) (root : ref) (fuel : nat) :
  forall k cur reads r,
    k < List.length components ->
    whileLoop E d fuel components root (Z.of_nat k) cur = Some (reads, r) ->
    r = greedy E d components k (chain root fuel cur).
Proof.
  induction fuel as [|fuel IH]; intros k [c|] reads r Hk Hw;
    cbn [whileLoop] in Hw; try discriminate;
    try (inversion Hw; subst; reflexivity).
  cbn [chain greedy].
  destruct (hasMatches c); [|cbn [bind]; now apply (IH _ _ _ _ Hk Hw)].
  rewrite (index_nat _ _ Hk) in Hw. cbn [toDOMString] in Hw.
  destruct (matches E d c (nth k components EmptyString)) as [isMatch|e];
    cbn [bind]; [|now inversion Hw].
  destruct isMatch; cbn [andb] in Hw.
  - destruct k as [|k].
    + change (Z.of_nat 0 =? 0)%Z with true in Hw. now inversion Hw.
    + assert (Hz : (Z.of_nat (S k) =? 0)%Z = false)
        by (apply Z.eqb_neq; lia).
      rewrite Hz in Hw.
      replace (Z.of_nat (S k) - 1)%Z with (Z.of_nat k) in Hw by lia.
      destruct (whileLoop E d fuel components root (Z.of_nat k)
                  (getParentOrHost c root)) as [[reads' r']|] eqn:Hw';
        [|discriminate].
      inversion Hw; subst. eapply IH; [|exact Hw']. lia.
  - destruct (whileLoop E d fuel components root (Z.of_nat k)
                (getParentOrHost c root)) as [[reads' r']|] eqn:Hw';
      [|discriminate].
    inversion Hw; subst. apply (IH _ _ _ _ Hk Hw').
Qed.

(** [visited] does not depend on its iteration budget: it is the candidate
    followed by what is visited from its host-crossing parent, up to the
    node that has none. *)
Lemma chain_budget (root : ref) (n m : nat) :
  forall cur,
    List.length cur < n -> List.length cur < m ->
    chain root n (Some cur) = chain root m (Some cur).
Proof.
  revert m. induction n as [|n IH]; intros m cur Hn Hm; [lia|].
  destruct m as [|m]; [lia|]. cbn [chain]. f_equal.
  destruct (getParentOrHost cur root) as [p|] eqn:Hp.
  - apply getParentOrHost_shorter in Hp. apply IH; lia.
  - now destruct n, m.
Qed.

Lemma visited_unfold (root element : ref) :
  visited root element
  = element :: match getParentOrHost element root with
               | Some p => visited root p
               | None => []
               end.
Proof.
  unfold visited.
  change (chain root (S (List.length element)) (Some element))
    with (element :: chain root (List.length element)
                       (getParentOrHost element root)).
  f_equal. destruct (getParentOrHost element root) as [p|] eqn:Hp.
  - apply getParentOrHost_shorter in Hp. apply chain_budget; lia.
  - now destruct (List.length element).
Qed.

(** C2, as amended.  For a non-empty component sequence, the predicate that
    [matchElements] returns decides exactly the greedy single-pass walk:
    cursor at the last component, one test per visited node, accept on a
    match at cursor 0, step the cursor down on any other match, move to the
    node that [getParentOrHost] returns, reject when it returns none.  A
    host reached through its shadow root is visited even when it is the
    bounding root. *)
Theorem matchElements_is_greedy_walk (components : list string)
  (root element : ref) :
  components <> [] ->
  matchElements E d components (Z.of_nat (List.length components) - 1)
    root element
  = greedy E d components (List.length components - 1) (visited root element).
Proof.
  intro Hne.
  assert (Hlen : 0 < List.length components)
    by (destruct components; [congruence | simpl; lia]).
  unfold matchElements, matchElementsTrace, visited.
  replace (Z.of_nat (List.length components) - 1)%Z
    with (Z.of_nat (List.length components - 1)) by lia.
  destruct (whileLoop_total components root (S (List.length element))
              (Z.of_nat (List.length components - 1)) (Some element))
    as (reads & r & Hw); [simpl; lia|].
  rewrite Hw. eapply whileLoop_greedy; [|exact Hw]. lia.
Qed.

(** The cursor stays between 0 and the index it started from, and the loop
    returns a boolean when the engine accepts every component. *)
Lemma whileLoop_bounds (components : list string) (root : ref) (last : Z)
  (fuel : nat) :
  forall position cur reads r,
    (0 <= position <= last)%Z ->
    whileLoop E d fuel components root position cur = Some (reads, r) ->
    Forall (fun p => 0 <= p <= last)%Z reads
    /\ ((forall p, (0 <= p <= last)%Z ->
           valid E (toDOMString (index components p)) = true) ->
        exists b, r = Ok b).
Proof.
  induction fuel as [|fuel IH]; intros position [c|] reads r Hp; simpl;
    try discriminate;
    try (intro H; inversion H; subst; split; [constructor | now eauto]).
  destruct (hasMatches c); [|now apply IH].
  unfold matches.
  destruct (valid E (toDOMString (index components position))) eqn:Hv.
  - destruct (nativeMatches E d c _ && (position =? 0)%Z) eqn:Hacc.
    + intro H; inversion H; subst. split; [|now eauto].
      constructor; [exact Hp | constructor].
    + destruct (whileLoop E d fuel components root _ _)
        as [[reads' r']|] eqn:Hw; [|discriminate].
      intro H; inversion H; subst.
      assert (Hp' : (0 <= (if nativeMatches E d c
                                 (toDOMString (index components position))
                           then position - 1 else position) <= last)%Z).
      { destruct (nativeMatches E d c _); [|exact Hp].
        simpl in Hacc. apply Z.eqb_neq in Hacc. lia. }
      destruct (IH _ _ _ _ Hp' Hw) as [Hr Hb].
      split; [constructor; assumption | exact Hb].
  - intro H; inversion H; subst. split.
    + constructor; [exact Hp | constructor].
    + intro Hall. rewrite (Hall _ Hp) in Hv. discriminate.
Qed.

Lemma refine_components (sel : string) (components : list string) :
  Segmenter.refine sel = Ok components ->
  Forall (fun c => c <> EmptyString) components.
Proof.
  unfold Segmenter.refine.
  destruct (Tokenizer.splitByUnquotedCharacter _ _) as [pieces|e];
    simpl; [|discriminate].
  intro H. inversion H. subst. apply Forall_forall. intros c Hc.
  apply filter_In in Hc. destruct Hc as [_ Hc]. now destruct c.
Qed.

Lemma index_in_bounds (l : list string) (p : Z) :
  (0 <= p <= Z.of_nat (List.length l) - 1)%Z ->
  exists c, index l p = Some c /\ In c l.
Proof.
  intro H. unfold index.
  destruct (p <? 0)%Z eqn:Hneg; [apply Z.ltb_lt in Hneg; lia|].
  destruct (nth_error l (Z.to_nat p)) as [c|] eqn:Hn.
  - exists c. split; [reflexivity|]. eapply nth_error_In; eassumption.
  - apply nth_error_None in Hn. lia.
Qed.

(** C9.  When the stage selector segments into at least one component, the
    walk of the matcher ends within its budget, every cursor value at which
    it indexes the component sequence lies between 0 and the last index and
    reads a component that is there and not empty, and the predicate returns
    a boolean whenever the engine accepts each component. *)
Theorem matchElements_cursor_in_bounds (sel : string)
  (components : list string) (root element : ref) :
  Segmenter.refine sel = Ok components ->
  components <> [] ->
  exists reads r,
    matchElementsTrace E d components
      (Z.of_nat (List.length components) - 1) root element
    = Some (reads, r)
    /\ matchElements E d components
         (Z.of_nat (List.length components) - 1) root element = r
    /\ Forall (fun p =>
                 (0 <= p <= Z.of_nat (List.length components) - 1)%Z
                 /\ exists c, index components p = Some c
                              /\ c <> EmptyString) reads
    /\ ((forall c, In c components -> valid E c = true) ->
        exists b, r = Ok b).
Proof.
  intros Href Hne.
  assert (Hlen : 0 < List.length components)
    by (destruct components; [congruence | simpl; lia]).
  assert (Hnonempty := refine_components _ _ Href).
  destruct (whileLoop_total components root (S (List.length element))
              (Z.of_nat (List.length components) - 1)%Z (Some element))
    as (reads & r & Hw); [simpl; lia|].
  exists reads, r. unfold matchElements, matchElementsTrace. rewrite Hw.
  assert (Hstart : (0 <= Z.of_nat (List.length components) - 1
                      <= Z.of_nat (List.length components) - 1)%Z) by lia.
  destruct (whileLoop_bounds components root _ _ _ _ _ _ Hstart Hw)
    as [Hreads Hbool].
  repeat split; try reflexivity.
  - eapply Forall_impl; [|exact Hreads]. intros p Hp. split; [exact Hp|].
    destruct (index_in_bounds components _ Hp) as (c & Hc & Hin).
    exists c. split; [exact Hc|].
    rewrite Forall_forall in Hnonempty. now apply Hnonempty.
  - intro Hvalid. apply Hbool. intros p Hp.
    destruct (index_in_bounds components _ Hp) as (c & Hc & Hin).
    rewrite Hc. simpl. now apply Hvalid.
Qed.

End MatcherFacts.

(* ================================================================== *)
(** ** The document tree *)

(** Induction on elements with the hypothesis on every child element and on
    every element at the top of the shadow tree. *)
Lemma element_induction (P : element -> Prop) :
  (forall t sh kids,
      match sh with Some content => Forall P content | None => True end ->
      Forall P kids -> P (Elem t sh kids)) ->
  forall e, P e.
Proof.
  intro H. fix IH 1. intros [t sh kids]. apply H.
  - destruct sh as [content|]; [|exact I].
    induction content as [|c content IHc]; constructor; [apply IH | exact IHc].
  - induction kids as [|c kids IHk]; constructor; [apply IH | exact IHk].
Qed.

Lemma resolve_walkFrom (d : document) (r : ref) :
  resolve d r = walkFrom (NDocument d) r.
Proof. induction r as [|s r IH]; simpl; [reflexivity | now rewrite IH]. Qed.

Lemma walkFrom_app (n : node) (a b : ref) :
  walkFrom n (a ++ b)
  = match walkFrom n b with
    | Some m => walkFrom m a
    | None => None
    end.
Proof.
  induction a as [|s a IH]; simpl.
  - now destruct (walkFrom n b).
  - rewrite IH. now destruct (walkFrom n b).
Qed.

Lemma resolve_app (d : document) (steps root : ref) :
  resolve d (steps ++ root)
  = match resolve d root with
    | Some n => walkFrom n steps
    | None => None
    end.
Proof. now rewrite !resolve_walkFrom, walkFrom_app. Qed.

Lemma shadowDepth_eq (t : string) (sh : option (list element))
  (kids : list element) :
  shadowDepth (Elem t sh kids)
  = Nat.max (match sh with
             | Some content => S (forestDepth content)
             | None => 0
             end) (forestDepth kids).
Proof. reflexivity. Qed.

Lemma forestDepth_cons (e : element) (f : list element) :
  forestDepth (e :: f) = Nat.max (shadowDepth e) (forestDepth f).
Proof. reflexivity. Qed.

Lemma forestDepth_nth (f : list element) (i : nat) (e : element) :
  nth_error f i = Some e -> shadowDepth e <= forestDepth f.
Proof.
  revert i. induction f as [|x f IH]; intros [|i] H; simpl in H;
    try discriminate; rewrite forestDepth_cons.
  - inversion H. lia.
  - apply IH in H. lia.
Qed.

Lemma childElements_depth (n : node) :
  forestDepth (childElements n) <= nodeDepth n.
Proof.
  destruct n as [kids|[t sh kids]|content]; cbn [nodeDepth childElements];
    try lia.
  rewrite shadowDepth_eq. lia.
Qed.

Lemma enter_depth (n m : node) (s : step) :
  enter n s = Some m -> nodeDepth m <= nodeDepth n.
Proof.
  destruct s as [i|]; simpl.
  - destruct (nth_error (childElements n) i) as [e|] eqn:He; [|discriminate].
    intro H; inversion H; subst. cbn [nodeDepth].
    apply forestDepth_nth in He. pose proof (childElements_depth n). lia.
  - destruct n as [kids|[t [content|] kids]|content]; try discriminate.
    intro H; inversion H; subst. cbn [nodeDepth].
    rewrite shadowDepth_eq. lia.
Qed.

Lemma resolve_depth (d : document) (r : ref) (n : node) :
  resolve d r = Some n -> nodeDepth n <= forestDepth d.
Proof.
  revert n. induction r as [|s r IH]; intros n; simpl.
  - intro H; inversion H; subst. cbn [nodeDepth]. lia.
  - destruct (resolve d r) as [m|]; [|discriminate].
    intro H. apply enter_depth in H. specialize (IH m eq_refl). lia.
Qed.

(* ================================================================== *)
(** ** The collector *)

Section CollectorFacts.

Variable E : Engine.
Variable d : document.

Lemma collect_cons (fuel : nat) (node : ref) (more elements : list ref) :
  collectElements d (S fuel) (node :: more) elements
  = match shadowRoot d node with
    | Some sr =>
        match collectElements d fuel (querySelectorAllStar d sr)
                (elements ++ [node]) with
        | Some elements' => collectElements d (S fuel) more elements'
        | None => None
        end
    | None => collectElements d (S fuel) more (elements ++ [node])
    end.
Proof. reflexivity. Qed.

Lemma collect_app (fuel : nat) (l1 l2 elements : list ref) :
  collectElements d (S fuel) (l1 ++ l2) elements
  = match collectElements d (S fuel) l1 elements with
    | Some elements' => collectElements d (S fuel) l2 elements'
    | None => None
    end.
Proof.
  revert elements. induction l1 as [|x l1 IH]; intro elements.
  - reflexivity.
  - simpl app. rewrite !collect_cons.
    destruct (shadowRoot d x) as [sr|]; [|apply IH].
    destruct (collectElements d fuel _ _); [apply IH | reflexivity].
Qed.

(** The element at [r] is [e]; then the references to its children resolve
    to its children, and its shadow root to its shadow content. *)
Lemma resolve_child (r : ref) (n : node) (i : nat) (c : element) :
  resolve d r = Some n -> nth_error (childElements n) i = Some c ->
  resolve d (Child i :: r) = Some (NElement c).
Proof. intros Hr Hc. simpl. rewrite Hr. simpl. now rewrite Hc. Qed.

Lemma shadowRoot_element (r : ref) (t : string) (sh : option (list element))
  (kids : list element) :
  resolve d r = Some (NElement (Elem t sh kids)) ->
  shadowRoot d r
  = match sh with Some _ => Some (Shadow :: r) | None => None end.
Proof. intro H. unfold shadowRoot. rewrite H. reflexivity. Qed.

Lemma star_shadow (r : ref) (t : string) (content kids : list element) :
  resolve d r = Some (NElement (Elem t (Some content) kids)) ->
  querySelectorAllStar d (Shadow :: r) = treeOrder (Shadow :: r) content.
Proof. intro H. unfold querySelectorAllStar. simpl. rewrite H. reflexivity. Qed.

Lemma collects_forest (parent : ref) (n : node) (fuel : nat) :
  resolve d parent = Some n ->
  forall (f : list element) (i : nat) (elements : list ref),
    Forall (collects d) f ->
    (forall j c, nth_error f j = Some c ->
                 nth_error (childElements n) (i + j) = Some c) ->
    forestDepth f <= fuel ->
    collectElements d (S fuel)
      (flatMapi (fun i c => subtree (Child i :: parent) c) i f) elements
    = Some (elements
            ++ flatMapi (fun i c => discover (Child i :: parent) c) i f).
Proof.
  intros Hn f. induction f as [|c f IH]; intros i elements HP Hnth Hfuel.
  - simpl. now rewrite app_nil_r.
  - inversion HP as [|? ? Hc Hf]; subst.
    rewrite forestDepth_cons in Hfuel. simpl flatMapi.
    rewrite collect_app, Hc.
    + rewrite IH.
      * now rewrite <- app_assoc.
      * exact Hf.
      * intros j c' Hj. replace (S i + j) with (i + S j) by lia.
        now apply Hnth.
      * lia.
    + eapply resolve_child; [exact Hn|].
      specialize (Hnth 0 c eq_refl). now rewrite Nat.add_0_r in Hnth.
    + lia.
Qed.

Lemma collects_all (e : element) : collects d e.
Proof.
  induction e as [t sh kids IHsh IHkids] using element_induction.
  intros r fuel elements Hr Hfuel. rewrite shadowDepth_eq in Hfuel.
  simpl subtree. rewrite collect_cons, (shadowRoot_element _ _ _ _ Hr).
  simpl discover.
  assert (Hkids : forall elements',
             collectElements d (S fuel)
               (flatMapi (fun i c => subtree (Child i :: r) c) 0 kids) elements'
             = Some (elements'
                     ++ flatMapi (fun i c => discover (Child i :: r) c) 0 kids)).
  { intro elements'.
    apply (collects_forest r (NElement (Elem t sh kids)) fuel Hr);
      [exact IHkids | intros j c Hj; exact Hj | lia]. }
  destruct sh as [content|].
  - rewrite (star_shadow _ _ _ _ Hr).
    destruct fuel as [|fuel]; [lia|].
    unfold treeOrder.
    rewrite (collects_forest (Shadow :: r) (NShadowRoot content) fuel);
      [ | simpl; rewrite Hr; reflexivity | exact IHsh
        | intros j c Hj; exact Hj | lia ].
    rewrite Hkids. f_equal. rewrite <- !app_assoc. reflexivity.
  - rewrite Hkids. f_equal. rewrite <- !app_assoc. reflexivity.
Qed.

(** Below any node of the document the collector lists what the worded
    collection lists. *)
Lemma collect_node (root : ref) (n : node) (elements : list ref) (fuel : nat) :
  resolve d root = Some n ->
  forestDepth (childElements n) <= fuel ->
  collectElements d (S fuel) (querySelectorAllStar d root) elements
  = Some (elements ++ discoverForest root (childElements n)).
Proof.
  intros Hn Hfuel. unfold querySelectorAllStar, treeOrder, discoverForest.
  rewrite Hn.
  apply (collects_forest root n fuel Hn);
    [ | intros j c Hj; exact Hj | exact Hfuel ].
  every collects_all.
Qed.

Lemma collected_discovery (root : ref) :
  collected d root = Some (discovery d root).
Proof.
  unfold collected, discovery, budget.
  destruct (resolve d root) as [n|] eqn:Hn.
  - pose proof (resolve_depth _ _ _ Hn) as Hdepth.
    pose proof (childElements_depth n) as Hkids.
    destruct n as [kids|[t sh kids]|content].
    + unfold shadowRoot. rewrite Hn.
      rewrite (collect_node _ _ [] (forestDepth d) Hn)
        by (cbn [childElements nodeDepth] in *; lia).
      reflexivity.
    + rewrite (shadowRoot_element _ _ _ _ Hn).
      cbn [nodeDepth] in Hdepth. rewrite shadowDepth_eq in Hdepth.
      destruct sh as [content|].
      * assert (Hs : resolve d (Shadow :: root) = Some (NShadowRoot content))
          by (simpl; rewrite Hn; reflexivity).
        rewrite (collect_node _ _ [] (forestDepth d) Hs)
          by (cbn [childElements nodeDepth] in *; lia).
        rewrite (collect_node _ _ _ (forestDepth d) Hn)
          by (cbn [childElements nodeDepth] in *; lia).
        reflexivity.
      * rewrite (collect_node _ _ [] (forestDepth d) Hn)
        by (cbn [childElements nodeDepth] in *; lia).
        reflexivity.
    + unfold shadowRoot. rewrite Hn.
      rewrite (collect_node _ _ [] (forestDepth d) Hn)
        by (cbn [childElements nodeDepth] in *; lia).
      reflexivity.
  - unfold shadowRoot, querySelectorAllStar. rewrite Hn. reflexivity.
Qed.

(** *** Which nodes are collected *)

Lemma flatMapi_in {A B : Type} (f : nat -> A -> list B) (l : list A) :
  forall i x,
    In x (flatMapi f i l)
    <-> exists j c, nth_error l j = Some c /\ In x (f (i + j) c).
Proof.
  induction l as [|a l IH]; intros i x; simpl.
  - split; [tauto|]. intros (j & c & H & _). now destruct j.
  - rewrite in_app_iff, IH. split.
    + intros [H|(j & c & Hj & H)].
      * exists 0, a. rewrite Nat.add_0_r. now split.
      * exists (S j), c. replace (i + S j) with (S i + j) by lia. now split.
    + intros ([|j] & c & Hj & H); simpl in Hj.
      * inversion Hj; subst. rewrite Nat.add_0_r in H. now left.
      * right. exists j, c. replace (S i + j) with (i + S j) by lia.
        now split.
Qed.

Lemma forest_in (p : ref) (f : list element) (x : ref) :
  Forall lists f ->
  In x (discoverForest p f)
  <-> exists i c steps,
        nth_error f i = Some c /\ x = steps ++ Child i :: p
        /\ reaches (NElement c) steps.
Proof.
  intro Hf. unfold discoverForest. rewrite flatMapi_in. simpl.
  rewrite Forall_forall in Hf. split.
  - intros (j & c & Hj & Hx).
    apply (Hf c (nth_error_In _ _ Hj)) in Hx.
    destruct Hx as (steps & Hx & Hr). now exists j, c, steps.
  - intros (i & c & steps & Hi & Hx & Hr). exists i, c. split; [exact Hi|].
    apply (Hf c (nth_error_In _ _ Hi)). now exists steps.
Qed.

Lemma discoverNode_eq (p : ref) (n : node) :
  discoverNode p n
  = match shadowContent n with
    | Some content => discoverForest (Shadow :: p) content
    | None => []
    end ++ discoverForest p (childElements n).
Proof. now destruct n as [kids|[t sh kids]|content]. Qed.

Lemma enter_child (n : node) (i : nat) (m : node) :
  enter n (Child i) = Some m
  <-> exists c, nth_error (childElements n) i = Some c /\ m = NElement c.
Proof.
  simpl. destruct (nth_error (childElements n) i) as [c|]; split.
  - intro H; inversion H. now exists c.
  - intros (c' & H & ->). now inversion H.
  - discriminate.
  - intros (c' & H & _). discriminate.
Qed.

Lemma enter_shadow (n m : node) :
  enter n Shadow = Some m
  <-> exists content, shadowContent n = Some content /\ m = NShadowRoot content.
Proof.
  destruct n as [kids|[t [content|] kids]|content]; simpl; split;
    try discriminate; try (intros (c & H & _); discriminate).
  - intro H; inversion H. now exists content.
  - intros (c & H & ->). now inversion H.
Qed.

Lemma node_in (p : ref) (n : node) (x : ref) :
  Forall lists (childElements n) ->
  match shadowContent n with
  | Some content => Forall lists content
  | None => True
  end ->
  In x (discoverNode p n)
  <-> exists steps, steps <> [] /\ x = steps ++ p /\ reaches n steps.
Proof.
  intros Hkids Hsh. rewrite discoverNode_eq, in_app_iff. split.
  - intros [H|H].
    + destruct (shadowContent n) as [content|] eqn:Hc; [|contradiction].
      apply (forest_in _ _ _ Hsh) in H.
      destruct H as (i & c & steps & Hi & Hx & (e & He)).
      exists (steps ++ [Child i; Shadow]). repeat split.
      * now destruct steps.
      * now rewrite <- app_assoc.
      * exists e. rewrite walkFrom_app.
        assert (Hw : walkFrom n [Child i; Shadow] = Some (NElement c)).
        { cbn [walkFrom].
          assert (Hs : enter n Shadow = Some (NShadowRoot content))
            by (apply enter_shadow; now exists content).
          rewrite Hs. apply enter_child. now exists c. }
        now rewrite Hw.
    + apply (forest_in _ _ _ Hkids) in H.
      destruct H as (i & c & steps & Hi & Hx & (e & He)).
      exists (steps ++ [Child i]). repeat split.
      * now destruct steps.
      * now rewrite <- app_assoc.
      * exists e. rewrite walkFrom_app.
        assert (Hw : walkFrom n [Child i] = Some (NElement c))
          by (cbn [walkFrom]; apply enter_child; now exists c).
        now rewrite Hw.
  - intros (steps & Hne & Hx & (e & He)).
    destruct (exists_last Hne) as (steps' & s & ->).
    rewrite walkFrom_app in He. cbn [walkFrom] in He.
    destruct (enter n s) as [m|] eqn:Hm; [|discriminate].
    destruct s as [i|].
    + right. apply enter_child in Hm. destruct Hm as (c & Hc & ->).
      apply (forest_in _ _ _ Hkids). exists i, c, steps'.
      repeat split; [exact Hc | now rewrite Hx, <- app_assoc | now exists e].
    + left. apply enter_shadow in Hm. destruct Hm as (content & Hc & ->).
      rewrite Hc in *.
      destruct steps' as [|s0 steps0] using rev_ind; [discriminate|].
      rewrite walkFrom_app in He. cbn [walkFrom] in He.
      destruct s0 as [i|]; [|discriminate].
      destruct (enter (NShadowRoot content) (Child i)) as [m|] eqn:Hm;
        [|discriminate].
      apply enter_child in Hm. destruct Hm as (c & Hci & ->).
      apply (forest_in _ _ _ Hsh). exists i, c, steps0.
      repeat split; [exact Hci | | now exists e].
      rewrite Hx, <- !app_assoc. reflexivity.
Qed.

Lemma discover_node (p : ref) (e : element) :
  discover p e = p :: discoverNode p (NElement e).
Proof. now destruct e as [t [content|] kids]. Qed.

Lemma lists_all (e : element) : lists e.
Proof.
  induction e as [t sh kids IHsh IHkids] using element_induction.
  intros p x. rewrite discover_node. simpl In.
  rewrite (node_in p (NElement (Elem t sh kids)) x IHkids IHsh). split.
  - intros [<-|(steps & _ & Hx & Hr)].
    + exists []. split; [reflexivity|]. now exists (Elem t sh kids).
    + now exists steps.
  - intros (steps & Hx & Hr). destruct steps as [|s steps].
    + left. now rewrite Hx.
    + right. exists (s :: steps).
      repeat split; [discriminate | exact Hx | exact Hr].
Qed.

(** The worded collection below [root] lists exactly the elements that lie
    strictly below it, shadow trees included. *)
Lemma discovery_in (root x : ref) :
  In x (discovery d root) <-> below root x /\ isElement d x.
Proof.
  unfold discovery, below, isElement.
  destruct (resolve d root) as [n|] eqn:Hn.
  - rewrite node_in.
    + split.
      * intros (steps & Hne & Hx & (e & He)). split; [now exists steps|].
        exists e. now rewrite Hx, resolve_app, Hn.
      * intros [(steps & Hne & Hx) (e & He)]. exists steps.
        repeat split; [exact Hne | exact Hx |]. exists e.
        now rewrite Hx, resolve_app, Hn in He.
    + every lists_all.
    + destruct (shadowContent n); [|exact I].
      every lists_all.
  - split; [contradiction|]. intros [(steps & _ & Hx) (e & He)].
    now rewrite Hx, resolve_app, Hn in He.
Qed.

(** *** No element is collected twice *)

Lemma suffix_step_inj (s1 s2 p : ref) (a b : step) :
  s1 ++ a :: p = s2 ++ b :: p -> a = b.
Proof.
  intro H.
  change (a :: p) with ([a] ++ p) in H. change (b :: p) with ([b] ++ p) in H.
  rewrite !app_assoc in H. apply app_inv_tail in H.
  now apply app_inj_tail in H.
Qed.

Lemma suffix_longer (steps p : ref) : steps <> [] -> steps ++ p <> p.
Proof.
  intros Hne H. apply (f_equal (@List.length step)) in H.
  rewrite length_app in H. destruct steps; [congruence | simpl in H; lia].
Qed.

Lemma flatMapi_NoDup {A B : Type} (f : nat -> A -> list B) (l : list A) :
  forall i,
    (forall j c, nth_error l j = Some c -> NoDup (f (i + j) c)) ->
    (forall j1 j2 c1 c2 x,
        nth_error l j1 = Some c1 -> nth_error l j2 = Some c2 ->
        In x (f (i + j1) c1) -> In x (f (i + j2) c2) -> j1 = j2) ->
    NoDup (flatMapi f i l).
Proof.
  induction l as [|a l IH]; intros i Hnd Hdis; simpl; [constructor|].
  apply NoDup_app.
  - specialize (Hnd 0 a eq_refl). now rewrite Nat.add_0_r in Hnd.
  - apply IH.
    + intros j c Hj. replace (S i + j) with (i + S j) by lia. now apply Hnd.
    + intros j1 j2 c1 c2 x H1 H2 Hx1 Hx2.
      replace (S i + j1) with (i + S j1) in Hx1 by lia.
      replace (S i + j2) with (i + S j2) in Hx2 by lia.
      assert (S j1 = S j2) by exact (Hdis (S j1) (S j2) c1 c2 x H1 H2 Hx1 Hx2).
      lia.
  - intros x Hx Hx'. apply flatMapi_in in Hx'.
    destruct Hx' as (j & c & Hj & Hxj).
    replace (S i + j) with (i + S j) in Hxj by lia.
    rewrite <- (Nat.add_0_r i) in Hx.
    assert (0 = S j) by exact (Hdis 0 (S j) a c x eq_refl Hj Hx Hxj). lia.
Qed.

Lemma discover_suffix (p x : ref) (e : element) :
  In x (discover p e) -> exists steps, x = steps ++ p.
Proof.
  intro H. apply lists_all in H. destruct H as (steps & Hx & _).
  now exists steps.
Qed.

Lemma forest_NoDup (p : ref) (f : list element) :
  Forall (fun e => forall q, NoDup (discover q e)) f ->
  NoDup (discoverForest p f).
Proof.
  intro Hf. rewrite Forall_forall in Hf. apply flatMapi_NoDup.
  - intros j c Hj. apply (Hf c (nth_error_In _ _ Hj)).
  - intros j1 j2 c1 c2 x _ _ H1 H2. simpl in H1, H2.
    apply discover_suffix in H1, H2.
    destruct H1 as (s1 & H1). destruct H2 as (s2 & H2).
    rewrite H1 in H2. apply suffix_step_inj in H2. congruence.
Qed.

Lemma forest_suffix (p x : ref) (f : list element) :
  In x (discoverForest p f) -> exists steps i, x = steps ++ Child i :: p.
Proof.
  intro H. apply flatMapi_in in H. destruct H as (j & c & _ & H).
  apply discover_suffix in H. destruct H as (steps & H).
  now exists steps, (0 + j).
Qed.

Lemma node_NoDup (p : ref) (n : node) :
  Forall (fun e => forall q, NoDup (discover q e)) (childElements n) ->
  match shadowContent n with
  | Some content => Forall (fun e => forall q, NoDup (discover q e)) content
  | None => True
  end ->
  NoDup (discoverNode p n).
Proof.
  intros Hkids Hsh. rewrite discoverNode_eq. apply NoDup_app.
  - destruct (shadowContent n); [now apply forest_NoDup | constructor].
  - now apply forest_NoDup.
  - intros x H1 H2. destruct (shadowContent n); [|contradiction].
    apply forest_suffix in H1, H2.
    destruct H1 as (s1 & i & H1). destruct H2 as (s2 & j & H2).
    rewrite H1 in H2.
    change (Child i :: Shadow :: p) with ([Child i] ++ Shadow :: p) in H2.
    rewrite app_assoc in H2. apply suffix_step_inj in H2. discriminate.
Qed.

Lemma discover_NoDup (e : element) : forall p, NoDup (discover p e).
Proof.
  induction e as [t sh kids IHsh IHkids] using element_induction.
  intro p. rewrite discover_node. constructor.
  - intro H. apply node_in in H.
    + destruct H as (steps & Hne & Hx & _). symmetry in Hx.
      now apply suffix_longer in Hx.
    + every lists_all.
    + destruct sh; [|exact I]. every lists_all.
  - now apply node_NoDup.
Qed.

Lemma discovery_NoDup (root : ref) : NoDup (discovery d root).
Proof.
  unfold discovery. destruct (resolve d root) as [n|]; [|constructor].
  apply node_NoDup.
  - every discover_NoDup.
  - destruct (shadowContent n); [|exact I].
    every discover_NoDup.
Qed.

(** *** A host is followed at once by the content of its shadow tree *)

Lemma flatMapi_split {A B : Type} (f : nat -> A -> list B) (l : list A) :
  forall i x,
    In x (flatMapi f i l) ->
    exists j c pre post,
      nth_error l j = Some c /\ In x (f (i + j) c)
      /\ flatMapi f i l = pre ++ f (i + j) c ++ post.
Proof.
  induction l as [|a l IH]; intros i x H; simpl in H; [contradiction|].
  apply in_app_or in H. destruct H as [H|H].
  - exists 0, a, [], (flatMapi f (S i) l). rewrite Nat.add_0_r.
    repeat split; assumption || reflexivity.
  - destruct (IH _ _ H) as (j & c & pre & post & Hj & Hx & Heq).
    exists (S j), c, (f i a ++ pre), post.
    replace (i + S j) with (S i + j) by lia.
    repeat split; try assumption.
    simpl. rewrite Heq. now rewrite <- app_assoc.
Qed.

Lemma forest_block (p : ref) (n : node) (h : ref) (content : list element) :
  resolve d p = Some n ->
  Forall (blocks d) (childElements n) ->
  In h (discoverForest p (childElements n)) -> hostAt d h content ->
  exists pre post,
    discoverForest p (childElements n)
    = pre ++ h :: discoverForest (Shadow :: h) content ++ post.
Proof.
  intros Hn Hall Hin Hh. unfold discoverForest in Hin.
  destruct (flatMapi_split _ _ _ _ Hin)
    as (j & c & pre & post & Hj & Hx & Heq).
  simpl in Hx, Heq. rewrite Forall_forall in Hall.
  destruct (Hall c (nth_error_In _ _ Hj) (Child j :: p) h content)
    as (pre' & post' & Hc);
    [eapply resolve_child; eassumption | exact Hx | exact Hh |].
  exists (pre ++ pre'), (post' ++ post).
  unfold discoverForest at 1. rewrite Heq, Hc.
  rewrite <- !app_assoc. simpl. now rewrite <- !app_assoc.
Qed.

Lemma node_block (p : ref) (n : node) (h : ref) (content : list element) :
  resolve d p = Some n ->
  Forall (blocks d) (childElements n) ->
  match shadowContent n with
  | Some c => Forall (blocks d) c
  | None => True
  end ->
  In h (discoverNode p n) -> hostAt d h content ->
  exists pre post,
    discoverNode p n
    = pre ++ h :: discoverForest (Shadow :: h) content ++ post.
Proof.
  intros Hn Hkids Hsh Hin Hh. rewrite discoverNode_eq in *.
  apply in_app_or in Hin. destruct Hin as [Hin|Hin].
  - destruct (shadowContent n) as [c|] eqn:Hc; [|contradiction].
    assert (Hs : resolve d (Shadow :: p) = Some (NShadowRoot c)).
    { simpl. rewrite Hn. apply enter_shadow. now exists c. }
    destruct (forest_block _ _ _ _ Hs Hsh Hin Hh) as (pre & post & Heq).
    simpl childElements in Heq.
    exists pre, (post ++ discoverForest p (childElements n)).
    rewrite Heq, <- !app_assoc. simpl. now rewrite <- !app_assoc.
  - destruct (forest_block _ _ _ _ Hn Hkids Hin Hh) as (pre & post & Heq).
    exists (match shadowContent n with
            | Some c => discoverForest (Shadow :: p) c
            | None => []
            end ++ pre), post.
    rewrite Heq, <- app_assoc. reflexivity.
Qed.

Lemma blocks_all (e : element) : blocks d e.
Proof.
  induction e as [t sh kids IHsh IHkids] using element_induction.
  intros p h content Hp Hin Hh. rewrite discover_node in *.
  destruct Hin as [<-|Hin].
  - destruct Hh as (t' & kids' & Hh). rewrite Hp in Hh.
    inversion Hh; subst. exists [], (discoverForest p kids'). reflexivity.
  - destruct (node_block _ _ _ _ Hp IHkids IHsh Hin Hh)
      as (pre & post & Heq).
    exists (p :: pre), post. now rewrite Heq.
Qed.

Lemma discovery_block (root h sr : ref) :
  In h (discovery d root) -> shadowRoot d h = Some sr ->
  exists pre post,
    discovery d root = pre ++ h :: discovery d sr ++ post.
Proof.
  intros Hin Hsr. unfold shadowRoot in Hsr.
  destruct (resolve d h) as [[kids|[t [content|] kids]|c]|] eqn:Hh;
    try discriminate.
  inversion Hsr; subst sr. clear Hsr.
  assert (Hd : discovery d (Shadow :: h)
               = discoverForest (Shadow :: h) content).
  { unfold discovery. simpl. rewrite Hh. reflexivity. }
  rewrite Hd. unfold discovery in *.
  destruct (resolve d root) as [n|] eqn:Hn; [|contradiction].
  apply (node_block _ _ _ _ Hn); try assumption.
  - every blocks_all.
  - destruct (shadowContent n); [|exact I].
    every blocks_all.
  - now exists t, kids.
Qed.

(** The content of the root's own shadow tree comes first. *)
Lemma discovery_shadow_first (root sr : ref) :
  shadowRoot d root = Some sr ->
  exists light,
    discovery d root = discovery d sr ++ light
    /\ forall x, In x light -> ~ below sr x.
Proof.
  intro Hsr. unfold shadowRoot in Hsr.
  destruct (resolve d root) as [[kids|[t [content|] kids]|c]|] eqn:Hn;
    try discriminate.
  inversion Hsr; subst sr. clear Hsr.
  exists (discoverForest root kids). split.
  - unfold discovery. simpl. rewrite Hn. reflexivity.
  - intros x Hx (steps & _ & Hb). apply forest_suffix in Hx.
    destruct Hx as (s & i & Hx). rewrite Hx in Hb.
    apply suffix_step_inj in Hb. discriminate.
Qed.

Lemma filterR_ok {A : Type} (p : A -> result bool) (q : A -> bool)
  (l : list A) :
  (forall x, p x = Ok (q x)) -> filterR p l = Ok (filter q l).
Proof.
  intro H. induction l as [|x l IH]; simpl; [reflexivity|].
  rewrite H, IH. simpl. reflexivity.
Qed.

Lemma gather_unfiltered (root : ref) :
  gatherAllElementsXFind E d None root = Ok (discovery d root).
Proof. unfold gatherAllElementsXFind. now rewrite collected_discovery. Qed.

Lemma gather_filtered (root : ref) (s : string) :
  s <> EmptyString -> valid E s = true ->
  gatherAllElementsXFind E d (Some s) root
  = Ok (filter (fun el => nativeMatches E d el s) (discovery d root)).
Proof.
  intros Hs Hv. unfold gatherAllElementsXFind. rewrite collected_discovery.
  destruct s as [|c s]; [congruence|]. cbn [Segmenter.truthyString].
  apply filterR_ok. intro x. unfold matches. now rewrite Hv.
Qed.

(** C7.  Without a filter the collector returns the elements strictly below
    the root, those inside shadow trees at any depth included, each once, in
    the order of the worded collection: every host is followed at once by
    the whole content of its shadow tree, and the content of the root's own
    shadow tree comes before the root's own tree.  With a selector the
    engine accepts, exactly the elements that match it natively are kept, in
    that order. *)
Theorem gatherAllElementsXFind_collects (root : ref) :
  gatherAllElementsXFind E d None root = Ok (discovery d root)
  /\ (forall x, In x (discovery d root) <-> below root x /\ isElement d x)
  /\ NoDup (discovery d root)
  /\ (forall h sr,
        In h (discovery d root) -> shadowRoot d h = Some sr ->
        exists pre post,
          discovery d root = pre ++ h :: discovery d sr ++ post)
  /\ (forall sr,
        shadowRoot d root = Some sr ->
        exists light,
          discovery d root = discovery d sr ++ light
          /\ forall x, In x light -> ~ below sr x)
  /\ (forall s,
        s <> EmptyString -> valid E s = true ->
        gatherAllElementsXFind E d (Some s) root
        = Ok (filter (fun el => nativeMatches E d el s) (discovery d root))).
Proof.
  split; [|split; [|split; [|split; [|split]]]].
  - apply gather_unfiltered.
  - intro x. apply discovery_in.
  - apply discovery_NoDup.
  - apply discovery_block.
  - apply discovery_shadow_first.
  - intros s Hs Hv. now apply gather_filtered.
Qed.

End CollectorFacts.

(* ================================================================== *)
(** ** The orchestrator *)

Section OrchestratorFacts.

Variable E : Engine.

(** C4.  A selector that the engine's parser rejects makes both entry
    points throw [Error("Invalid selector: ...")] before anything else
    happens: no stage is queried, nothing is logged, no result is produced.
    The empty selector, when the engine rejects it, is one such case. *)
Theorem invalid_selector_is_thrown (selector : string) (root : ref)
  (w : world) :
  valid E selector = false ->
  xfind E selector root w
    = (w, Throw (Error (append "Invalid selector: " selector)))
  /\ xfindAll E selector root w
    = (w, Throw (Error (append "Invalid selector: " selector)))
  /\ (selector = EmptyString ->
      xfind E EmptyString root w = (w, Throw (Error "Invalid selector: "))
      /\ xfindAll E EmptyString root w
         = (w, Throw (Error "Invalid selector: "))).
Proof.
  intro H.
  assert (Hp : forall findMany,
             performQuery E selector findMany root w
             = (w, Throw (Error (append "Invalid selector: " selector)))).
  { intro findMany. unfold performQuery, validateSelector. now rewrite H. }
  assert (H1 : xfind E selector root w
               = (w, Throw (Error (append "Invalid selector: " selector))))
    by (unfold xfind; now rewrite Hp).
  assert (H2 : xfindAll E selector root w
               = (w, Throw (Error (append "Invalid selector: " selector))))
    by (unfold xfindAll; now rewrite Hp).
  split; [exact H1 | split; [exact H2 |]].
  intros ->. split; [exact H1 | exact H2].
Qed.

(** *** Stages *)

Lemma dom_enterStage (sel : string) (root : ref) (w : world) :
  dom (enterStage sel root w) = dom w.
Proof. reflexivity. Qed.

Lemma stages_step (findMany : bool) (sel : string) (rest : list string)
  (cur : ref) (w : world) :
  rest <> [] \/ findMany = false ->
  stages E findMany (sel :: rest) cur w
  = match querySelectorXFind E (dom w) sel cur with
    | Throw e => (enterStage sel cur w, Throw e)
    | Ok VNull =>
        (say (ConsoleError (append "Selector " (append sel " not found")))
             (enterStage sel cur w),
         Ok (if findMany then VArray [] else VNull))
    | Ok (VElement el) => stages E findMany rest el (enterStage sel cur w)
    | Ok (VArray _) => (enterStage sel cur w, Throw (TypeError "querySelector"))
    end.
Proof.
  intros [H|H].
  - destruct rest as [|s rest]; [congruence|]. now destruct findMany.
  - subst findMany. now destruct rest.
Qed.


(** *** What a call leaves of the world, and what it depends on *)

Lemma stages_dom (findMany : bool) (selectors : list string) :
  forall cur w, dom (fst (stages E findMany selectors cur w)) = dom w.
Proof.
  induction selectors as [|s rest IH]; intros cur w; [reflexivity|].
  cbn [stages].
  destruct rest as [|s' rest'].
  - destruct findMany; [reflexivity|].
    destruct (querySelectorXFind E (dom w) s cur) as [[|el|els]|e];
      reflexivity.
  - destruct (querySelectorXFind E (dom w) s cur) as [[|el|els]|e];
      try (destruct findMany; reflexivity).
    destruct findMany; now rewrite IH.
Qed.

Lemma stages_result (findMany : bool) (selectors : list string) :
  forall cur w w',
    dom w = dom w' ->
    snd (stages E findMany selectors cur w)
    = snd (stages E findMany selectors cur w').
Proof.
  induction selectors as [|s rest IH]; intros cur w w' Hd; [reflexivity|].
  cbn [stages]. rewrite <- Hd.
  destruct rest as [|s' rest'].
  - destruct findMany; [reflexivity|].
    destruct (querySelectorXFind E (dom w) s cur) as [[|el|els]|e];
      reflexivity.
  - destruct (querySelectorXFind E (dom w) s cur) as [[|el|els]|e];
      try (destruct findMany; reflexivity).
    destruct findMany; now apply IH.
Qed.

Lemma performQuery_dom (selector : string) (findMany : bool) (root : ref)
  (w : world) :
  dom (fst (performQuery E selector findMany root w)) = dom w.
Proof.
  unfold performQuery. destruct (validateSelector E selector); [|reflexivity].
  apply stages_dom.
Qed.

Lemma performQuery_result (selector : string) (findMany : bool) (root : ref)
  (w w' : world) :
  dom w = dom w' ->
  snd (performQuery E selector findMany root w)
  = snd (performQuery E selector findMany root w').
Proof.
  intro Hd. unfold performQuery.
  destruct (validateSelector E selector); [|reflexivity].
  now apply stages_result.
Qed.

Lemma xfindAll_dom (selector : string) (root : ref) (w : world) :
  dom (fst (xfindAll E selector root w)) = dom w.
Proof.
  unfold xfindAll. pose proof (performQuery_dom selector true root w) as H.
  destruct (performQuery E selector true root w) as [w1 [[|el|els]|e]];
    exact H.
Qed.

Lemma xfindAll_result (selector : string) (root : ref) (w w' : world) :
  dom w = dom w' ->
  snd (xfindAll E selector root w) = snd (xfindAll E selector root w').
Proof.
  intro Hd. unfold xfindAll.
  pose proof (performQuery_result selector true root w w' Hd) as H.
  destruct (performQuery E selector true root w) as [w1 [[|el|els]|e]];
    destruct (performQuery E selector true root w') as [w1' [[|el'|els']|e']];
    simpl in H; try discriminate; inversion H; reflexivity.
Qed.

(** *** In multi mode a result is an array *)

Lemma alternative_many (d : document) (root : ref) (acc : list ref)
  (sel : string) (v : value) :
  alternative E d true root (VArray acc) sel = Ok v -> exists l, v = VArray l.
Proof.
  unfold alternative. cbn [negb andb].
  destruct (Segmenter.refine sel) as [refined|e]; cbn [bind]; [|discriminate].
  destruct (gatherAllElementsXFind E d _ root) as [els|e]; cbn [bind];
    [|discriminate].
  destruct (filterR _ els) as [l|e]; cbn [bind]; [|discriminate].
  intro H; inversion H. now eexists.
Qed.

Lemma reduceR_many (d : document) (root : ref) (sels : list string) :
  forall acc v,
    reduceR (alternative E d true root) sels (VArray acc) = Ok v ->
    exists l, v = VArray l.
Proof.
  induction sels as [|sel sels IH]; intros acc v; cbn [reduceR].
  - intro H; inversion H. now eexists.
  - destruct (alternative E d true root (VArray acc) sel) as [v'|e] eqn:Ha;
      cbn [bind]; [|discriminate].
    apply alternative_many in Ha. destruct Ha as (l & ->). apply IH.
Qed.

Lemma query_many (d : document) (sel : string) (root : ref) (v : value) :
  queryInShadowDOM E d sel true root = Ok v -> exists l, v = VArray l.
Proof.
  unfold queryInShadowDOM.
  destruct (querySelector E d root sel) as [light|e]; cbn [bind];
    [|discriminate].
  destruct (shadowSupport E).
  - destruct (Tokenizer.splitByUnquotedCharacter sel (str1 comma))
      as [sels|e]; cbn [bind]; [|discriminate].
    apply reduceR_many.
  - destruct (querySelectorAll E d root sel) as [l|e]; cbn [bind];
      [|discriminate].
    intro H; inversion H. now eexists.
Qed.

Lemma stages_many (selectors : list string) :
  forall cur w v,
    selectors <> [] ->
    snd (stages E true selectors cur w) = Ok v -> exists l, v = VArray l.
Proof.
  induction selectors as [|s rest IH]; intros cur w v Hne; [congruence|].
  destruct rest as [|s' rest'].
  - cbn [stages snd]. apply query_many.
  - rewrite stages_step by (left; discriminate).
    destruct (querySelectorXFind E (dom w) s cur) as [[|el|els]|e];
      cbn [snd]; try discriminate.
    + intro H; inversion H. now eexists.
    + apply IH. discriminate.
Qed.

Lemma splitBoundary_nonempty (s : string) :
  forall skip cur, splitBoundary skip cur s <> [].
Proof.
  induction s as [|c s IH]; intros skip cur; cbn [splitBoundary];
    [discriminate|].
  destruct skip; [|apply IH].
  destruct (prefix _ _); [discriminate | apply IH].
Qed.

Lemma xfindAll_outcome (selector : string) (root : ref) (w : world) :
  (exists els, snd (xfindAll E selector root w) = Ok (VArray els))
  \/ (exists e, snd (xfindAll E selector root w) = Throw e).
Proof.
  unfold xfindAll.
  destruct (performQuery E selector true root w) as [w1 [v|e]] eqn:Hp;
    [|right; now eexists].
  assert (Hv : exists l, v = VArray l).
  { unfold performQuery in Hp.
    destruct (validateSelector E selector); [|discriminate].
    apply (stages_many (split selector) root w).
    - apply splitBoundary_nonempty.
    - now rewrite Hp. }
  destruct Hv as (l & ->). left. now eexists.
Qed.

(** C8.  For a selector the engine validates, a call of [xfindAll] either
    throws or returns an array, and leaves the document as it found it; a
    second call made right after the first, in the world the first one
    left, ends the way the first did: the same exception, or an array of the
    same length holding the same elements at the same positions. *)
Theorem xfindAll_twice (selector : string) (root : ref) (w : world) :
  valid E selector = true ->
  let first := xfindAll E selector root w in
  let second := xfindAll E selector root (fst first) in
  dom (fst first) = dom w
  /\ dom (fst second) = dom w
  /\ snd second = snd first
  /\ ((exists els, snd first = Ok (VArray els))
      \/ (exists e, snd first = Throw e))
  /\ (forall els,
        snd first = Ok (VArray els) ->
        exists els',
          snd second = Ok (VArray els')
          /\ List.length els' = List.length els
          /\ forall i, nth_error els' i = nth_error els i).
Proof.
  intros _ first second.
  assert (H1 : dom (fst first) = dom w) by apply xfindAll_dom.
  assert (H2 : snd second = snd first)
    by (apply xfindAll_result; exact H1).
  split; [exact H1|]. split.
  - unfold second. rewrite xfindAll_dom. exact H1.
  - split; [exact H2|]. split; [apply xfindAll_outcome|].
    intros els Hels. exists els.
    rewrite H2. repeat split; assumption || reflexivity.
Qed.

End OrchestratorFacts.

(* ================================================================== *)
(** ** Agreement with the native queries *)

Section NativeAgreement.

Variable E : Engine.

Lemma shadowFree_discover (e : element) :
  shadowFree e = true -> forall p, discover p e = subtree p e.
Proof.
  induction e as [t sh kids IHsh IHkids] using element_induction.
  destruct sh as [content|]; [discriminate|].
  cbn [shadowFree]. intros Hfree p. cbn [discover subtree app]. f_equal.
  clear IHsh. generalize 0.
  induction kids as [|c kids IH]; intro i; [reflexivity|].
  cbn [forallb] in Hfree. apply andb_true_iff in Hfree.
  destruct Hfree as [Hc Hrest]. inversion IHkids; subst.
  cbn [flatMapi]. f_equal; [now auto | now apply IH].
Qed.

Lemma shadowFree_forest (f : list element) (p : ref) :
  forallb shadowFree f = true -> discoverForest p f = treeOrder p f.
Proof.
  unfold discoverForest, treeOrder. generalize 0.
  induction f as [|c f IH]; intros i H; [reflexivity|].
  cbn [forallb] in H. apply andb_true_iff in H. destruct H as [Hc Hf].
  cbn [flatMapi]. f_equal; [now apply shadowFree_discover | now apply IH].
Qed.

(** Without shadow trees the collection is the tree order of the root. *)
Lemma noShadowTrees_discovery (d : document) (root : ref) :
  noShadowTrees d root = true ->
  discovery d root = querySelectorAllStar d root.
Proof.
  unfold noShadowTrees, discovery, querySelectorAllStar.
  destruct (resolve d root) as [n|]; [|reflexivity].
  rewrite discoverNode_eq.
  destruct (shadowContent n); [discriminate|].
  intro H. now apply shadowFree_forest.
Qed.

Lemma isElement_hasMatches (d : document) (x : ref) :
  isElement d x -> hasMatches x = true.
Proof.
  intros (e & He). destruct x as [|[i|] p]; [discriminate|reflexivity|].
  simpl in He. destruct (resolve d p) as [[kids|[t [c|] kids]|c]|];
    discriminate.
Qed.

(** A single component is decided by the first test of the walk. *)
Lemma matchElements_single (d : document) (c : string) (root el : ref) :
  hasMatches el = true -> matches E d el c = Ok true ->
  matchElements E d [c] 0 root el = Ok true.
Proof.
  intros Hm Hc. unfold matchElements, matchElementsTrace.
  cbn [whileLoop]. rewrite Hm. cbn [index Z.ltb Z.compare Z.to_nat nth_error
                                     toDOMString].
  rewrite Hc. reflexivity.
Qed.

Lemma filterR_all (A : Type) (p : A -> result bool) (l : list A) :
  (forall x, In x l -> p x = Ok true) -> filterR p l = Ok l.
Proof.
  induction l as [|x l IH]; intro H; [reflexivity|].
  cbn [filterR]. rewrite (H x (or_introl eq_refl)). cbn [bind].
  rewrite IH; [reflexivity|]. intros y Hy. apply H. now right.
Qed.

Lemma findR_first (A : Type) (p : A -> result bool) (l : list A) :
  (forall x, In x l -> p x = Ok true) -> findR p l = Ok (hd_error l).
Proof.
  destruct l as [|x l]; intro H; [reflexivity|].
  cbn [findR]. now rewrite (H x (or_introl eq_refl)).
Qed.

(** The candidates of a single-component selector on a tree without shadow
    trees are the native matches, and the matcher keeps them all. *)
Lemma single_component_candidates (d : document) (sel : string) (root : ref) :
  valid E sel = true -> sel <> EmptyString ->
  noShadowTrees d root = true ->
  gatherAllElementsXFind E d (Some sel) root
  = Ok (filter (fun el => nativeMatches E d el sel)
               (querySelectorAllStar d root))
  /\ forall x,
       In x (filter (fun el => nativeMatches E d el sel)
                    (querySelectorAllStar d root)) ->
       matchElements E d [sel] 0 root x = Ok true.
Proof.
  intros Hv Hne Hfree.
  rewrite (gather_filtered E d root sel Hne Hv),
    (noShadowTrees_discovery d root Hfree).
  split; [reflexivity|].
  intros x Hx. apply filter_In in Hx. destruct Hx as [Hx Hm].
  rewrite <- (noShadowTrees_discovery d root Hfree) in Hx.
  apply discovery_in in Hx. destruct Hx as [_ Hx].
  apply matchElements_single.
  - now apply isElement_hasMatches with d.
  - unfold matches. now rewrite Hv, Hm.
Qed.

Lemma query_single_component (d : document) (sel : string) (root : ref)
  (findMany : bool) :
  valid E sel = true ->
  Tokenizer.splitByUnquotedCharacter sel (str1 comma) = Ok [sel] ->
  Segmenter.refine sel = Ok [sel] ->
  noShadowTrees d root = true ->
  scopeFree E d root sel ->
  queryInShadowDOM E d sel findMany root
  = if findMany then
      l <- querySelectorAll E d root sel ;; Ok (VArray l)
    else
      o <- querySelector E d root sel ;; Ok (ofOption o).
Proof.
  intros Hv Hsplit Href Hfree Hscope.
  assert (Hne : sel <> EmptyString).
  { pose proof (refine_components _ _ Href) as H. now inversion H. }
  destruct (single_component_candidates d sel root Hv Hne Hfree)
    as [Hgather Hall].
  unfold queryInShadowDOM, querySelector, querySelectorAll.
  rewrite Hv. cbn [bind].
  rewrite (filter_ext_in _ _ _ Hscope).
  destruct (shadowSupport E); [|now destruct findMany].
  set (natives := filter (fun el => nativeMatches E d el sel)
                         (querySelectorAllStar d root)) in *.
  assert (Halt : forall acc,
             (findMany = false -> acc = VNull) ->
             (findMany = true -> acc = VArray []) ->
             alternative E d findMany root acc sel
             = if findMany then Ok (VArray natives)
               else Ok (ofOption (hd_error natives))).
  { intros acc Hs Hm. unfold alternative. rewrite Href. cbn [bind].
    cbn [List.length Z.of_nat Pos.of_succ_nat Z.sub Z.add Z.opp Z.pos_sub
         index Z.ltb Z.compare Z.to_nat nth_error].
    rewrite Hgather. cbn [bind].
    destruct findMany.
    - rewrite (Hm eq_refl). cbn [negb andb].
      now rewrite (filterR_all _ _ _ Hall).
    - rewrite (Hs eq_refl). cbn [negb truthy andb].
      now rewrite (findR_first _ _ _ Hall). }
  destruct findMany.
  - rewrite Hsplit. cbn [bind reduceR]. rewrite Halt by congruence.
    reflexivity.
  - destruct (hd_error natives) as [el|] eqn:Hhd; [reflexivity|].
    rewrite Hsplit. cbn [bind reduceR]. rewrite Halt by congruence.
    reflexivity.
Qed.

(** A selector without the marker is its own single stage. *)
Lemma splitBoundary_no_marker (s : string) :
  forall cur,
    hasMarker s = false -> splitBoundary 0 cur s = [append cur s].
Proof.
  induction s as [|c s IH]; intros cur H.
  - now rewrite append_nil_r.
  - cbn [hasMarker] in H. apply orb_false_iff in H. destruct H as [Hp Hs].
    cbn [splitBoundary]. rewrite Hp, (IH _ Hs), append_assoc. reflexivity.
Qed.

Lemma split_no_marker (s : string) :
  hasMarker s = false -> split s = [s].
Proof. intro H. unfold split. now rewrite splitBoundary_no_marker. Qed.

(** *** Plain selectors are single components *)

Lemma lineTerminator_whiteSpace (c : ascii) :
  whiteSpace c = false -> lineTerminator c = false.
Proof.
  unfold whiteSpace, lineTerminator. intro H.
  repeat (apply orb_false_iff in H; destruct H as [H ?]).
  apply orb_false_iff. now split.
Qed.

Lemma unbroken_cons (c : ascii) (s : string) :
  unbroken (String c s) = true ->
  whiteSpace c = false /\ Ascii.eqb c comma = false /\ unbroken s = true.
Proof.
  cbn [unbroken]. intro H.
  apply andb_true_iff in H. destruct H as [H Hs].
  apply andb_true_iff in H. destruct H as [Hw Hc].
  apply negb_true_iff in Hw, Hc. now repeat split.
Qed.

Lemma unbroken_noLineTerminator (s : string) :
  unbroken s = true -> noLineTerminator s = true.
Proof.
  induction s as [|c s IH]; [reflexivity|]. intro H.
  apply unbroken_cons in H. destruct H as (Hw & _ & Hs).
  cbn [noLineTerminator]. rewrite (lineTerminator_whiteSpace _ Hw).
  now apply IH.
Qed.

(** Without an occurrence of the delimiter the worded tokenizer returns its
    input as the one piece, whatever the quotes do. *)
Lemma splitSpec_whole (c : ascii) (s : string) :
  absent c s = true ->
  forall dq sq cur, Tokenizer.splitSpec c dq sq cur s = [append cur s].
Proof.
  induction s as [|x|x y s IH1 IH2] using string_pair_ind; intros H dq sq cur.
  - cbn. now rewrite append_nil_r.
  - unfold str1 in *. cbn [absent] in H.
    apply andb_true_iff in H. destruct H as [Hx _].
    apply negb_true_iff in Hx.
    rewrite splitSpec_char by now right. rewrite Hx, !andb_false_r.
    destruct (Ascii.eqb x dquote && negb sq);
      [|destruct (Ascii.eqb x squote && negb dq)]; reflexivity.
  - cbn [absent] in H. apply andb_true_iff in H. destruct H as [Hx H].
    apply negb_true_iff in Hx.
    destruct (Ascii.eqb x backslash) eqn:Hb.
    + cbn [Tokenizer.splitSpec]. rewrite Hb.
      cbn [absent] in H. apply andb_true_iff in H. destruct H as [_ H].
      rewrite (IH1 H). now rewrite append_assoc.
    + rewrite splitSpec_char by now left. rewrite Hx, !andb_false_r.
      destruct (Ascii.eqb x dquote && negb sq);
        [|destruct (Ascii.eqb x squote && negb dq)];
        rewrite (IH2 H); now rewrite append_assoc.
Qed.

Lemma unbroken_absent (c : ascii) (s : string) :
  whiteSpace c = true \/ c = comma ->
  unbroken s = true -> absent c s = true.
Proof.
  intros Hc. induction s as [|x s IH]; [reflexivity|]. intro Hs.
  apply unbroken_cons in Hs. destruct Hs as (Hw & Hcomma & Hs).
  cbn [absent]. rewrite (IH Hs), andb_true_r. apply negb_true_iff.
  destruct (Ascii.eqb_spec x c) as [->|]; [|reflexivity].
  destruct Hc as [Hc| ->]; [congruence|].
  now rewrite Ascii.eqb_refl in Hcomma.
Qed.

Lemma split_whole (c : ascii) (s : string) :
  whiteSpace c = true \/ c = comma ->
  unbroken s = true ->
  Tokenizer.splitByUnquotedCharacter s (str1 c) = Ok [s].
Proof.
  intros Hc Hs.
  rewrite split_refines by now apply unbroken_noLineTerminator.
  now rewrite (splitSpec_whole c s (unbroken_absent c s Hc Hs)).
Qed.

Lemma trim_unbroken (s : string) : unbroken s = true -> Segmenter.trim s = s.
Proof.
  intro H. unfold Segmenter.trim.
  assert (Hstart : Segmenter.trimStart s = s).
  { destruct s as [|c s]; [reflexivity|].
    apply unbroken_cons in H. destruct H as (Hw & _). cbn. now rewrite Hw. }
  rewrite Hstart. clear Hstart.
  induction s as [|c s IH]; [reflexivity|].
  apply unbroken_cons in H. destruct H as (Hw & _ & Hs).
  cbn [Segmenter.trimEnd]. rewrite (IH Hs), Hw. now destruct s.
Qed.

Lemma replaceCombinators_unbroken (s : string) :
  unbroken s = true ->
  forall swallow, Segmenter.replaceCombinators EmptyString swallow s = s.
Proof.
  induction s as [|c s IH]; [reflexivity|]. intros H swallow.
  apply unbroken_cons in H. destruct H as (Hw & _ & Hs).
  cbn [Segmenter.replaceCombinators]. rewrite Hw.
  destruct (Segmenter.combinator c); cbn; now rewrite (IH Hs).
Qed.

(** A plain selector is left whole by the split on commas and by the
    segmentation. *)
Lemma plain_single_component (s : string) :
  plain s = true -> singleComponent s.
Proof.
  unfold plain, singleComponent. intro H. apply andb_true_iff in H. destruct H as [Hne Hs].
  split.
  - apply split_whole; [now right | exact Hs].
  - unfold Segmenter.refine, Segmenter.normalize.
    rewrite (trim_unbroken _ Hs), (replaceCombinators_unbroken _ Hs).
    rewrite split_whole; [|now left | exact Hs].
    cbn [bind filter]. now rewrite Hne.
Qed.

(** C1, as amended.  Let the engine validate a selector without boundary
    marker.  (a) Whenever the native single query on the root returns an
    element, [xfind] returns that element.  (b) On a host without shadow
    support, and (c) on a root below which there is no shadow tree when the
    selector is a single component (neither the split on commas nor the
    segmentation changes it, as for every plain selector) whose matching
    does not depend on the scoping root (the native query from the root
    selects an element exactly when the element's own [matches] test
    accepts the selector; a selector with [:scope] need not be so),
    [xfind] and [xfindAll] return exactly what the native single and all
    queries return. *)
Theorem xfind_agrees_with_native (selector : string) (root : ref) (w : world) :
  valid E selector = true ->
  hasMarker selector = false ->
  (forall el,
      querySelector E (dom w) root selector = Ok (Some el) ->
      snd (xfind E selector root w) = Ok (VElement el))
  /\ (shadowSupport E = false
      \/ (singleComponent selector
          /\ noShadowTrees (dom w) root = true
          /\ scopeFree E (dom w) root selector) ->
      snd (xfind E selector root w)
        = (o <- querySelector E (dom w) root selector ;; Ok (ofOption o))
      /\ snd (xfindAll E selector root w)
        = (l <- querySelectorAll E (dom w) root selector ;; Ok (VArray l))).
Proof.
  intros Hv Hs. apply split_no_marker in Hs.
  assert (Hfirst : snd (xfind E selector root w)
                   = match queryInShadowDOM E (dom w) selector false root with
                     | Ok (VArray _) => Throw (TypeError "querySelector")
                     | r => r
                     end).
  { unfold xfind, performQuery, validateSelector. rewrite Hv, Hs.
    cbn [stages]. unfold querySelectorXFind.
    destruct (queryInShadowDOM E (dom w) selector false root)
      as [[|el|els]|e]; reflexivity. }
  assert (Hall : snd (xfindAll E selector root w)
                 = match queryInShadowDOM E (dom w) selector true root with
                   | Ok (VArray els) => Ok (VArray els)
                   | Ok VNull => Throw (TypeError "length")
                   | r => r
                   end).
  { unfold xfindAll, performQuery, validateSelector. rewrite Hv, Hs.
    cbn [stages]. unfold querySelectorAllXFind.
    destruct (queryInShadowDOM E (dom w) selector true root)
      as [[|el|els]|e]; reflexivity. }
  split.
  - intros el Hel. rewrite Hfirst. unfold queryInShadowDOM.
    rewrite Hel. cbn [bind]. now destruct (shadowSupport E).
  - intros [Hno|((Hsplit & Href) & Hfree & Hscope)].
    + rewrite Hfirst, Hall. unfold queryInShadowDOM. rewrite Hno.
      unfold querySelector, querySelectorAll. rewrite Hv. cbn [bind].
      split; [|reflexivity].
      now destruct (hd_error _).
    + rewrite Hfirst, Hall.
      rewrite !(query_single_component (dom w) selector root _
                  Hv Hsplit Href Hfree Hscope).
      unfold querySelector, querySelectorAll. rewrite Hv. cbn [bind].
      split; [|reflexivity].
      now destruct (hd_error _).
Qed.

End NativeAgreement.

(* ================================================================== *)
(** ** The statements at concrete inputs *)

Open Scope string_scope.

(** C1 fails as stated.  On [<div><span/></div>], which has no shadow tree,
    the selector [div div>span] has no boundary marker and matches nothing
    natively, yet [xfind] and [xfindAll] return the span: after the span
    matched [div>span] the walk tests [div] on the span's parent itself.
    For [span,div] the native query lists the div before the span,
    [xfindAll] the span before the div.  And for the single component
    [:scope>span], queried from the div, the native query returns the span,
    the scoping root being the div, where [xfindAll] returns nothing: in the
    span's own [matches] test [:scope] is the span. *)
Lemma xfind_differs_from_native :
  noShadowTrees Sample.light [] = true
  /\ hasMarker "div div>span" = false
  /\ hasMarker "span,div" = false
  /\ noShadowTrees Sample.light [Child 0] = true
  /\ hasMarker ":scope>span" = false
  /\ valid Mini.engine ":scope>span" = true
  /\ singleComponent ":scope>span"
  /\ querySelectorAll Mini.engine Sample.light [Child 0] ":scope>span"
     = Ok [Sample.span]
  /\ snd (xfindAll Mini.engine ":scope>span" [Child 0]
            (Sample.fresh Sample.light))
     = Ok (VArray [])
  /\ querySelector Mini.engine Sample.light [] "div div>span" = Ok None
  /\ snd (xfind Mini.engine "div div>span" [] (Sample.fresh Sample.light))
     = Ok (VElement Sample.span)
  /\ querySelectorAll Mini.engine Sample.light [] "div div>span" = Ok []
  /\ snd (xfindAll Mini.engine "div div>span" [] (Sample.fresh Sample.light))
     = Ok (VArray [Sample.span])
  /\ querySelectorAll Mini.engine Sample.light [] "span,div"
     = Ok [[Child 0]; Sample.span]
  /\ snd (xfindAll Mini.engine "span,div" [] (Sample.fresh Sample.light))
     = Ok (VArray [Sample.span; [Child 0]])
  /\ snd (xfind Mini.engine "div div>span" [] (Sample.fresh Sample.light))
     <> (o <- querySelector Mini.engine Sample.light [] "div div>span" ;;
         Ok (ofOption o))
  /\ snd (xfindAll Mini.engine "span,div" [] (Sample.fresh Sample.light))
     <> (l <- querySelectorAll Mini.engine Sample.light [] "span,div" ;;
         Ok (VArray l)).
Proof. repeat split; vm_compute; (reflexivity || discriminate). Qed.

Lemma xfind_agrees_with_native_witness :
  valid Mini.engine "span" = true
  /\ hasMarker "span" = false
  /\ singleComponent "span"
  /\ noShadowTrees Sample.light [] = true
  /\ scopeFree Mini.engine Sample.light [] "span"
  /\ snd (xfind Mini.engine "span" [] (Sample.fresh Sample.light))
     = (o <- querySelector Mini.engine Sample.light [] "span" ;;
        Ok (ofOption o))
  /\ snd (xfindAll Mini.engine "span" [] (Sample.fresh Sample.light))
     = (l <- querySelectorAll Mini.engine Sample.light [] "span" ;;
        Ok (VArray l)).
Proof.
  assert (H1 : valid Mini.engine "span" = true) by reflexivity.
  assert (H2 : hasMarker "span" = false) by reflexivity.
  assert (H3 : singleComponent "span") by (split; reflexivity).
  assert (H4 : noShadowTrees Sample.light [] = true) by reflexivity.
  assert (H5 : scopeFree Mini.engine Sample.light [] "span")
    by (intros el _; reflexivity).
  repeat (split; [assumption|]).
  exact (proj2 (xfind_agrees_with_native Mini.engine "span" []
                  (Sample.fresh Sample.light) H1 H2)
           (or_intror (conj H3 (conj H4 H5)))).
Defined.

Lemma matchElements_is_greedy_walk_witness :
  ["main"; "b"] <> []
  /\ matchElements Mini.engine Sample.nested ["main"; "b"]
       (Z.of_nat (List.length ["main"; "b"]) - 1) [] Sample.bold
     = greedy Mini.engine Sample.nested ["main"; "b"]
         (List.length ["main"; "b"] - 1) (visited [] Sample.bold).
Proof.
  assert (H : ["main"; "b"] <> []) by discriminate.
  split; [exact H|].
  exact (matchElements_is_greedy_walk Mini.engine Sample.nested
           ["main"; "b"] [] Sample.bold H).
Defined.

(** C2 fails as stated.  With the panel as bounding root, the button at the
    top of the panel's shadow tree and the components [panel button]: the
    button matches, the walk moves to the panel, which is the bounding root,
    and the predicate tests it and accepts; the worded walk has run out of
    nodes on reaching the bounding root and rejects. *)
Lemma matchElements_visits_bounding_root :
  matchElements Mini.engine Sample.nested ["panel"; "button"] 1
    Sample.panel Sample.button = Ok true
  /\ visited Sample.panel Sample.button
     = [Sample.button; Sample.panel; [Child 0]; []]
  /\ visitedWorded Sample.panel Sample.button = [Sample.button]
  /\ greedy Mini.engine Sample.nested ["panel"; "button"] 1
       (visitedWorded Sample.panel Sample.button) = Ok false
  /\ matchElements Mini.engine Sample.nested ["panel"; "button"] 1
       Sample.panel Sample.button
     <> greedy Mini.engine Sample.nested ["panel"; "button"] 1
          (visitedWorded Sample.panel Sample.button).
Proof. repeat split; vm_compute; (reflexivity || discriminate). Qed.



Lemma invalid_selector_is_thrown_witness :
  valid Mini.engine EmptyString = false
  /\ xfind Mini.engine EmptyString [] (Sample.fresh Sample.light)
     = (Sample.fresh Sample.light, Throw (Error "Invalid selector: "))
  /\ xfindAll Mini.engine EmptyString [] (Sample.fresh Sample.light)
     = (Sample.fresh Sample.light, Throw (Error "Invalid selector: ")).
Proof.
  assert (H : valid Mini.engine EmptyString = false) by reflexivity.
  split; [exact H|].
  exact (proj2 (proj2 (invalid_selector_is_thrown Mini.engine EmptyString []
                         (Sample.fresh Sample.light) H)) eq_refl).
Defined.

(** C6 fails as stated.  The button at the top of the panel's shadow tree
    has the panel's shadow root as parent; with the panel as bounding root
    the resolved parent is the bounding root, and the function returns it
    where the worded contract returns none. *)
Lemma getParentOrHost_returns_bounding_root :
  parentNode Sample.button = Some (Shadow :: Sample.panel)
  /\ host (Shadow :: Sample.panel) = Some Sample.panel
  /\ getParentOrHost Sample.button Sample.panel = Some Sample.panel
  /\ parentSpec Sample.button Sample.panel = None
  /\ getParentOrHost Sample.button Sample.panel
     <> parentSpec Sample.button Sample.panel.
Proof. repeat split; vm_compute; (reflexivity || discriminate). Qed.

Lemma xfindAll_twice_witness :
  valid Mini.engine "main button" = true
  /\ (let first :=
        xfindAll Mini.engine "main button" [] (Sample.fresh Sample.nested) in
      let second := xfindAll Mini.engine "main button" [] (fst first) in
      snd first = Ok (VArray [Sample.button])
      /\ snd second = snd first).
Proof.
  assert (H : valid Mini.engine "main button" = true) by reflexivity.
  split; [exact H|].
  split; [reflexivity|].
  exact (proj1 (proj2 (proj2 (xfindAll_twice Mini.engine "main button" []
                                (Sample.fresh Sample.nested) H)))).
Defined.

Lemma matchElements_cursor_in_bounds_witness :
  Segmenter.refine "main  b" = Ok ["main"; "b"]
  /\ ["main"; "b"] <> []
  /\ exists reads r,
       matchElementsTrace Mini.engine Sample.nested ["main"; "b"]
         (Z.of_nat (List.length ["main"; "b"]) - 1) [] Sample.bold
       = Some (reads, r)
       /\ Forall (fun p => (0 <= p <= 1)%Z) reads.
Proof.
  assert (H1 : Segmenter.refine "main  b" = Ok ["main"; "b"]) by reflexivity.
  assert (H2 : ["main"; "b"] <> []) by discriminate.
  split; [exact H1|]. split; [exact H2|].
  destruct (matchElements_cursor_in_bounds Mini.engine Sample.nested
              "main  b" ["main"; "b"] [] Sample.bold H1 H2)
    as (reads & r & Ht & _ & Hb & _).
  exists reads, r. split; [exact Ht|].
  eapply Forall_impl; [|exact Hb]. intros p [Hp _]. exact Hp.
Defined.

Lemma split_join_roundtrip_witness :
  noLineTerminator Sample.quoted = true
  /\ exists pieces,
       Tokenizer.splitByUnquotedCharacter Sample.quoted (str1 comma)
       = Ok pieces
       /\ String.concat (str1 comma) pieces = Sample.quoted.
Proof.
  assert (H : noLineTerminator Sample.quoted = true) by reflexivity.
  split; [exact H|].
  exact (split_join_roundtrip Sample.quoted comma H).
Defined.

(** The collector on the nested sample, from the document and from the
    panel: each host is followed by the content of its shadow tree. *)
Example gather_nested :
  gatherAllElementsXFind Mini.engine Sample.nested None []
  = Ok [[Child 0]; Sample.panel; Sample.button;
        [Child 1; Shadow; Child 0; Child 0]; Sample.bold;
        [Child 0; Child 0; Child 0]; [Child 1; Child 0]]
  /\ gatherAllElementsXFind Mini.engine Sample.nested (Some "b") Sample.panel
     = Ok [Sample.bold].
Proof. split; reflexivity. Qed.

(* ================================================================== *)
(** * Further properties of the code *)

Close Scope string_scope.

(* ================================================================== *)
(** ** The tokenizer on every input *)

Section TokenizerMore.

Import Tokenizer.

Lemma backslash_not_lineTerminator (c : ascii) :
  Ascii.eqb c backslash = true -> lineTerminator c = false.
Proof. intro H. apply Ascii.eqb_eq in H. now subst. Qed.

(** The tokens spell the input without its line terminators. *)
Lemma scanTokens_strip (s : string) :
  flatten (scanTokens s) = stripLineTerminators s.
Proof.
  unfold stripLineTerminators.
  induction s as [|c|c x s IH1 IH2] using string_pair_ind.
  - reflexivity.
  - unfold str1. cbn [scanTokens keep].
    destruct (Ascii.eqb c backslash) eqn:Hb.
    + now rewrite (backslash_not_lineTerminator _ Hb).
    + now destruct (lineTerminator c).
  - rewrite scanTokens_step.
    change (keep (fun c0 => negb (lineTerminator c0)) (String c (String x s)))
      with (if negb (lineTerminator c)
            then String c (keep (fun c0 => negb (lineTerminator c0))
                             (String x s))
            else keep (fun c0 => negb (lineTerminator c0)) (String x s)).
    destruct (Ascii.eqb c backslash) eqn:Hb.
    + rewrite (backslash_not_lineTerminator _ Hb). cbn [negb].
      destruct (lineTerminator x) eqn:Hx.
      * change (flatten (str1 c :: scanTokens (String x s)))
          with (String c (flatten (scanTokens (String x s)))).
        now rewrite IH2.
      * change (flatten (String c (str1 x) :: scanTokens s))
          with (String c (String x (flatten (scanTokens s)))).
        rewrite IH1. cbn [keep]. now rewrite Hx.
    + destruct (lineTerminator c); cbn [negb]; [exact IH2|].
      change (flatten (str1 c :: scanTokens (String x s)))
        with (String c (flatten (scanTokens (String x s)))).
      now rewrite IH2.
Qed.

Lemma fold_nonempty (character : string) (toks : list string) (acc : Acc) :
  strings acc <> [] ->
  strings (fold_left (reducer character) toks acc) <> [].
Proof.
  revert acc. induction toks as [|t toks IH]; intros acc H; [exact H|].
  cbn [fold_left]. apply IH. now apply reducer_nonempty.
Qed.

Lemma split_join_strip (s : string) (c : ascii) (pieces : list string) :
  splitByUnquotedCharacter s (str1 c) = Ok pieces ->
  String.concat (str1 c) pieces = stripLineTerminators s.
Proof.
  unfold splitByUnquotedCharacter, regexMatch.
  destruct s as [|x s].
  - intro H. inversion H. reflexivity.
  - destruct (scanTokens (String x s)) as [|t toks] eqn:Ht;
      intro H; cbv iota in H; [discriminate|].
    injection H as <-.
    change (fold_left (reducer (str1 c)) toks (reducer (str1 c) initialAcc t))
      with (fold_left (reducer (str1 c)) (t :: toks) initialAcc).
    rewrite fold_join by (cbn; discriminate).
    rewrite <- scanTokens_strip, Ht. reflexivity.
Qed.

(** X1.  Whenever the tokenizer returns, joining its pieces with the
    delimiter gives the input with its line terminators deleted: line
    terminators, the characters that the dot of the token expression
    refuses, are the only characters it can lose. *)
Theorem split_join_strips_line_terminators (s : string) (c : ascii)
  (pieces : list string) :
  splitByUnquotedCharacter s (str1 c) = Ok pieces ->
  String.concat (str1 c) pieces = stripLineTerminators s.
Proof. apply split_join_strip. Qed.

Lemma scanTokens_empty (s : string) :
  scanTokens s = [] <-> allChars lineTerminator s = true.
Proof.
  induction s as [|c|c x s IH1 IH2] using string_pair_ind.
  - split; reflexivity.
  - unfold str1. cbn [scanTokens allChars].
    destruct (Ascii.eqb c backslash) eqn:Hb.
    + rewrite (backslash_not_lineTerminator _ Hb). split; discriminate.
    + destruct (lineTerminator c); split; try discriminate; reflexivity.
  - rewrite scanTokens_step.
    change (allChars lineTerminator (String c (String x s)))
      with (lineTerminator c && allChars lineTerminator (String x s)).
    destruct (Ascii.eqb c backslash) eqn:Hb.
    + rewrite (backslash_not_lineTerminator _ Hb).
      destruct (lineTerminator x); split; discriminate.
    + destruct (lineTerminator c); [exact IH2|]. split; discriminate.
Qed.

(** X2.  The tokenizer throws exactly on a non-empty input made of line
    terminators alone, and then it is the TypeError of calling [reduce] on
    [null]; on every other input it returns at least one piece, whatever
    the delimiter. *)
Theorem split_throws_only_on_line_terminators (s character : string) :
  (s <> EmptyString /\ allChars lineTerminator s = true ->
   splitByUnquotedCharacter s character = Throw (TypeError "reduce"))
  /\ (s = EmptyString \/ allChars lineTerminator s = false ->
      exists piece pieces,
        splitByUnquotedCharacter s character = Ok (piece :: pieces)).
Proof.
  unfold splitByUnquotedCharacter, regexMatch. split.
  - intros [Hne Hall]. destruct s as [|x s]; [congruence|].
    apply scanTokens_empty in Hall. now rewrite Hall.
  - intro H.
    assert (Hsome : exists toks,
               match s with
               | EmptyString => Some [EmptyString]
               | String _ _ =>
                   match scanTokens s with
                   | [] => None
                   | t :: l => Some (t :: l)
                   end
               end = Some toks).
    { destruct s as [|x s]; [now eexists|].
      destruct H as [H|H]; [discriminate|].
      destruct (scanTokens (String x s)) eqn:Ht; [|now eexists].
      apply scanTokens_empty in Ht. congruence. }
    destruct Hsome as (toks & ->).
    pose proof (fold_nonempty character toks initialAcc) as Hn.
    destruct (strings (fold_left (reducer character) toks initialAcc))
      as [|piece pieces]; [exfalso; apply Hn; [discriminate | reflexivity]|].
    now exists piece, pieces.
Qed.

(** X3.  An input without line terminators in which the delimiter does not
    occur comes back as the single piece, quotes and backslashes, balanced
    or not, notwithstanding. *)
Theorem split_without_delimiter (s : string) (c : ascii) :
  noLineTerminator s = true -> absent c s = true ->
  splitByUnquotedCharacter s (str1 c) = Ok [s].
Proof.
  intros Hlt Habs. rewrite split_refines by exact Hlt.
  now rewrite (splitSpec_whole c s Habs).
Qed.

Lemma allChars_cons (p : ascii -> bool) (c : ascii) (s : string) :
  allChars p (String c s) = true -> p c = true /\ allChars p s = true.
Proof. cbn [allChars]. intro H. now apply andb_true_iff in H. Qed.

Lemma ordinaryChar_spec (c : ascii) :
  ordinaryChar c = true ->
  Ascii.eqb c dquote = false /\ Ascii.eqb c squote = false
  /\ Ascii.eqb c backslash = false /\ lineTerminator c = false.
Proof.
  unfold ordinaryChar. intro H.
  repeat (apply andb_true_iff in H; destruct H as [H ?]).
  repeat split; now apply negb_true_iff.
Qed.

Lemma ordinary_noLineTerminator (s : string) :
  allChars ordinaryChar s = true -> noLineTerminator s = true.
Proof.
  induction s as [|c s IH]; [reflexivity|]. intro H.
  apply allChars_cons in H. destruct H as [Hc Hs].
  apply ordinaryChar_spec in Hc. destruct Hc as (_ & _ & _ & Hc).
  cbn [noLineTerminator]. rewrite Hc. now apply IH.
Qed.

Lemma splitSpec_ordinary (c : ascii) (s : string) :
  allChars ordinaryChar s = true ->
  forall cur, splitSpec c false false cur s = splitOn c cur s.
Proof.
  induction s as [|x s IH]; [reflexivity|]. intros H cur.
  apply allChars_cons in H. destruct H as [Hx Hs].
  apply ordinaryChar_spec in Hx. destruct Hx as (Hd & Hq & Hb & _).
  rewrite splitSpec_char by now left.
  rewrite Hd, Hq. cbn [andb negb splitOn].
  destruct (Ascii.eqb x c); now rewrite IH.
Qed.

(** X4.  On an input without quotes, backslashes and line terminators the
    tokenizer is the ordinary split at every occurrence of the delimiter. *)
Theorem split_is_ordinary_split (s : string) (c : ascii) :
  allChars ordinaryChar s = true ->
  splitByUnquotedCharacter s (str1 c) = Ok (splitOn c EmptyString s).
Proof.
  intro H. rewrite split_refines by now apply ordinary_noLineTerminator.
  now rewrite splitSpec_ordinary.
Qed.

(** The piece being built only ever gets characters appended. *)
Lemma splitSpec_cur (c : ascii) (s : string) :
  forall dq sq cur,
    splitSpec c dq sq cur s = prepend cur (splitSpec c dq sq EmptyString s).
Proof.
  induction s as [|x|x y s IH1 IH2] using string_pair_ind; intros dq sq cur.
  - cbn. now rewrite append_nil_r.
  - unfold str1.
    rewrite (splitSpec_char c x dq sq cur),
      (splitSpec_char c x dq sq EmptyString) by now right.
    destruct (Ascii.eqb x dquote && negb sq);
      [|destruct (Ascii.eqb x squote && negb dq);
        [|destruct (negb dq && negb sq && Ascii.eqb x c)]];
      cbn; now rewrite ?append_nil_r.
  - destruct (Ascii.eqb x backslash) eqn:Hb.
    + cbn [splitSpec]. rewrite Hb.
      rewrite (IH1 dq sq (append cur _)), (IH1 dq sq (append EmptyString _)).
      destruct (splitSpec c dq sq EmptyString s); cbn; [reflexivity|].
      now rewrite append_assoc.
    + rewrite (splitSpec_char c x dq sq cur),
        (splitSpec_char c x dq sq EmptyString) by now left.
      destruct (Ascii.eqb x dquote && negb sq);
        [|destruct (Ascii.eqb x squote && negb dq);
          [|destruct (negb dq && negb sq && Ascii.eqb x c)]].
      * rewrite (IH2 _ _ (append cur _)), (IH2 _ _ (append EmptyString _)).
        destruct (splitSpec c (negb dq) sq EmptyString (String y s)); cbn;
          [reflexivity | now rewrite append_assoc].
      * rewrite (IH2 _ _ (append cur _)), (IH2 _ _ (append EmptyString _)).
        destruct (splitSpec c dq (negb sq) EmptyString (String y s)); cbn;
          [reflexivity | now rewrite append_assoc].
      * cbn. now rewrite append_nil_r.
      * rewrite (IH2 _ _ (append cur _)), (IH2 _ _ (append EmptyString _)).
        destruct (splitSpec c dq sq EmptyString (String y s)); cbn;
          [reflexivity | now rewrite append_assoc].
Qed.

Lemma splitSpec_nonempty (c : ascii) (s : string) :
  forall dq sq cur, splitSpec c dq sq cur s <> [].
Proof.
  intros dq sq cur. rewrite splitSpec_cur.
  revert dq sq.
  induction s as [|x|x y s IH1 IH2] using string_pair_ind; intros dq sq.
  - discriminate.
  - unfold str1. rewrite splitSpec_char by now right.
    destruct (Ascii.eqb x dquote && negb sq);
      [|destruct (Ascii.eqb x squote && negb dq);
        [|destruct (negb dq && negb sq && Ascii.eqb x c)]]; discriminate.
  - assert (Hp : forall dq sq t,
               prepend cur (splitSpec c dq sq t s) <> [] /\
               prepend cur (splitSpec c dq sq t (String y s)) <> []).
    { intros dq' sq' t. rewrite (splitSpec_cur c s), (splitSpec_cur c (String y s)).
      specialize (IH1 dq' sq'). specialize (IH2 dq' sq').
      destruct (splitSpec c dq' sq' EmptyString s);
        destruct (splitSpec c dq' sq' EmptyString (String y s));
        cbn in *; split; congruence. }
    destruct (Ascii.eqb x backslash) eqn:Hb.
    + cbn [splitSpec]. rewrite Hb. apply Hp.
    + rewrite splitSpec_char by now left.
      destruct (Ascii.eqb x dquote && negb sq);
        [|destruct (Ascii.eqb x squote && negb dq);
          [|destruct (negb dq && negb sq && Ascii.eqb x c)]];
        try apply Hp. discriminate.
Qed.

(** *** Quoted literals *)

Lemma quotable_spec (q x : ascii) :
  quotable q x = true ->
  Ascii.eqb x q = false /\ Ascii.eqb x backslash = false
  /\ lineTerminator x = false.
Proof.
  unfold quotable. intro H.
  repeat (apply andb_true_iff in H; destruct H as [H ?]).
  repeat split; now apply negb_true_iff.
Qed.

(** Inside a literal nothing separates and nothing toggles. *)
Lemma splitSpec_inside (c q : ascii) (body rest : string) :
  q = dquote \/ q = squote ->
  allChars (quotable q) body = true ->
  forall cur,
    splitSpec c (Ascii.eqb q dquote) (Ascii.eqb q squote) cur
      (append body rest)
    = splitSpec c (Ascii.eqb q dquote) (Ascii.eqb q squote)
        (append cur body) rest.
Proof.
  intros Hq. induction body as [|x body IH]; intros H cur.
  - cbn. now rewrite append_nil_r.
  - apply allChars_cons in H. destruct H as [Hx Hbody].
    apply quotable_spec in Hx. destruct Hx as (Hxq & Hb & _).
    cbn [append]. rewrite splitSpec_char by now left.
    assert (Hstep : forall rest',
               (if Ascii.eqb x dquote && negb (Ascii.eqb q squote)
                then splitSpec c (negb (Ascii.eqb q dquote))
                       (Ascii.eqb q squote) (append cur (str1 x)) rest'
                else if Ascii.eqb x squote && negb (Ascii.eqb q dquote)
                then splitSpec c (Ascii.eqb q dquote)
                       (negb (Ascii.eqb q squote)) (append cur (str1 x)) rest'
                else if negb (Ascii.eqb q dquote) && negb (Ascii.eqb q squote)
                        && Ascii.eqb x c
                then cur :: splitSpec c (Ascii.eqb q dquote)
                              (Ascii.eqb q squote) EmptyString rest'
                else splitSpec c (Ascii.eqb q dquote) (Ascii.eqb q squote)
                       (append cur (str1 x)) rest')
               = splitSpec c (Ascii.eqb q dquote) (Ascii.eqb q squote)
                   (append cur (str1 x)) rest').
    { intro rest'. destruct Hq as [-> | ->].
      - rewrite Hxq. change (Ascii.eqb dquote dquote) with true.
        change (Ascii.eqb dquote squote) with false.
        cbn [negb andb]. now rewrite andb_false_r.
      - rewrite Hxq. change (Ascii.eqb squote dquote) with false.
        change (Ascii.eqb squote squote) with true.
        cbn [negb andb]. now rewrite andb_false_r. }
    rewrite Hstep, (IH Hbody). now rewrite append_assoc.
Qed.

Lemma splitSpec_open (c q : ascii) (s cur : string) :
  q = dquote \/ q = squote ->
  splitSpec c false false cur (String q s)
  = splitSpec c (Ascii.eqb q dquote) (Ascii.eqb q squote)
      (append cur (str1 q)) s.
Proof.
  intros [-> | ->]; rewrite splitSpec_char by (left; reflexivity);
    reflexivity.
Qed.

Lemma splitSpec_close (c q : ascii) (s cur : string) :
  q = dquote \/ q = squote ->
  splitSpec c (Ascii.eqb q dquote) (Ascii.eqb q squote) cur (String q s)
  = splitSpec c false false (append cur (str1 q)) s.
Proof.
  intros [-> | ->]; rewrite splitSpec_char by (left; reflexivity);
    reflexivity.
Qed.

Lemma noLineTerminator_app (a b : string) :
  noLineTerminator a = true -> noLineTerminator b = true ->
  noLineTerminator (append a b) = true.
Proof.
  intros Ha Hb. induction a as [|x a IH]; [exact Hb|].
  apply noLineTerminator_cons in Ha. destruct Ha as [Hx Ha].
  cbn [append noLineTerminator]. rewrite Hx. now apply IH.
Qed.

Lemma quotable_noLineTerminator (q : ascii) (body : string) :
  allChars (quotable q) body = true -> noLineTerminator body = true.
Proof.
  induction body as [|x body IH]; [reflexivity|]. intro H.
  apply allChars_cons in H. destruct H as [Hx Hb].
  apply quotable_spec in Hx. destruct Hx as (_ & _ & Hx).
  cbn [noLineTerminator]. rewrite Hx. now apply IH.
Qed.

Lemma splitSpec_quote (c q : ascii) (body rest cur : string) :
  q = dquote \/ q = squote ->
  allChars (quotable q) body = true ->
  splitSpec c false false cur (append (quote q body) rest)
  = splitSpec c false false (append cur (quote q body)) rest.
Proof.
  intros Hq Hbody. unfold quote. cbn [append].
  rewrite (splitSpec_open c q _ cur Hq), append_assoc.
  rewrite (splitSpec_inside c q body _ Hq Hbody).
  cbn [append]. rewrite (splitSpec_close c q rest _ Hq).
  f_equal. rewrite !append_assoc. reflexivity.
Qed.

(** X5.  A literal in double or in single quotes at the front of the input
    goes whole into the first piece, delimiters and quotes of the other
    kind inside it included, and what follows it is split as it would be on
    its own. *)
Theorem split_keeps_quoted_literal (c q : ascii) (body rest : string) :
  q = dquote \/ q = squote ->
  allChars (quotable q) body = true ->
  noLineTerminator rest = true ->
  exists first others,
    splitByUnquotedCharacter rest (str1 c) = Ok (first :: others)
    /\ splitByUnquotedCharacter (append (quote q body) rest) (str1 c)
       = Ok (append (quote q body) first :: others).
Proof.
  intros Hq Hbody Hrest.
  assert (Hq' : lineTerminator q = false) by now destruct Hq as [-> | ->].
  assert (Hlit : noLineTerminator (quote q body) = true).
  { unfold quote. cbn [noLineTerminator]. rewrite Hq'. cbn [negb andb].
    apply noLineTerminator_app; [now apply quotable_noLineTerminator with q|].
    cbn. now rewrite Hq'. }
  rewrite !split_refines
    by (try apply noLineTerminator_app; assumption).
  rewrite (splitSpec_quote c q body rest EmptyString Hq Hbody).
  change (append EmptyString (quote q body)) with (quote q body).
  rewrite (splitSpec_cur c rest false false (quote q body)).
  destruct (splitSpec c false false EmptyString rest) as [|first others] eqn:Hs;
    [now apply splitSpec_nonempty in Hs|].
  exists first, others. split; reflexivity.
Qed.

(** *** Pieces are atomic *)

Lemma pieces_extend (c : ascii) (dq sq dq' sq' : bool) (pre t : string)
  (P : string -> Prop) :
  (forall t', splitSpec c dq sq EmptyString (append pre t')
              = splitSpec c dq' sq' pre t') ->
  (exists seg others,
      splitSpec c dq' sq' EmptyString t = seg :: others
      /\ splitSpec c dq' sq' EmptyString seg = [seg] /\ Forall P others) ->
  exists seg others,
    splitSpec c dq sq EmptyString (append pre t) = seg :: others
    /\ splitSpec c dq sq EmptyString seg = [seg] /\ Forall P others.
Proof.
  intros Hpre (seg & others & Hs & Hw & Ho).
  exists (append pre seg), others. repeat split; [| |exact Ho].
  - now rewrite Hpre, splitSpec_cur, Hs.
  - now rewrite Hpre, splitSpec_cur, Hw.
Qed.

(** The first piece is whole for the quote states the scan started in, the
    later ones for the states outside quotes, where every split happens. *)
Lemma splitSpec_pieces (c : ascii) (s : string) :
  forall dq sq,
    exists seg others,
      splitSpec c dq sq EmptyString s = seg :: others
      /\ splitSpec c dq sq EmptyString seg = [seg]
      /\ Forall (fun p => splitSpec c false false EmptyString p = [p]) others.
Proof.
  induction s as [|x|x y s IH1 IH2] using string_pair_ind; intros dq sq.
  - exists EmptyString, []. repeat split. constructor.
  - unfold str1.
    pose proof (splitSpec_char c x dq sq EmptyString EmptyString
                  (or_intror eq_refl)) as Hx.
    revert Hx.
    destruct (Ascii.eqb x dquote && negb sq);
      [|destruct (Ascii.eqb x squote && negb dq);
        [|destruct (negb dq && negb sq && Ascii.eqb x c) eqn:Hd]];
      intro Hx;
      try (exists (String x EmptyString), []; rewrite Hx;
           repeat split; constructor).
    apply andb_true_iff in Hd. destruct Hd as [Hd _].
    apply andb_true_iff in Hd. destruct Hd as [Hdq Hsq].
    apply negb_true_iff in Hdq, Hsq. subst dq sq.
    exists EmptyString, [EmptyString]. rewrite Hx.
    repeat split. constructor; [reflexivity | constructor].
  - destruct (Ascii.eqb x backslash) eqn:Hb.
    + change (String x (String y s))
        with (append (String x (str1 y)) s).
      apply (pieces_extend c dq sq dq sq); [|apply IH1].
      intro t'. cbn [append splitSpec]. now rewrite Hb.
    + assert (Hx : forall t',
                 splitSpec c dq sq EmptyString (String x t')
                 = if Ascii.eqb x dquote && negb sq then
                     splitSpec c (negb dq) sq (str1 x) t'
                   else if Ascii.eqb x squote && negb dq then
                     splitSpec c dq (negb sq) (str1 x) t'
                   else if negb dq && negb sq && Ascii.eqb x c then
                     EmptyString :: splitSpec c dq sq EmptyString t'
                   else splitSpec c dq sq (str1 x) t').
      { intro t'. now rewrite splitSpec_char by now left. }
      revert Hx.
      destruct (Ascii.eqb x dquote && negb sq);
        [|destruct (Ascii.eqb x squote && negb dq);
          [|destruct (negb dq && negb sq && Ascii.eqb x c) eqn:Hd]];
        intro Hx;
        try (change (String x (String y s))
               with (append (str1 x) (String y s));
             eapply pieces_extend; [exact Hx | apply IH2]).
      apply andb_true_iff in Hd. destruct Hd as [Hd _].
      apply andb_true_iff in Hd. destruct Hd as [Hdq Hsq].
      apply negb_true_iff in Hdq, Hsq. subst dq sq.
      destruct (IH2 false false) as (seg & others & Hs & Hw & Ho).
      exists EmptyString, (seg :: others). rewrite Hx, Hs.
      repeat split. constructor; assumption.
Qed.

Lemma noLineTerminator_split (a b : string) :
  noLineTerminator (append a b) = true ->
  noLineTerminator a = true /\ noLineTerminator b = true.
Proof.
  induction a as [|x a IH]; [now split|]. cbn [append]. intro H.
  apply noLineTerminator_cons in H. destruct H as [Hx H].
  destruct (IH H) as [Ha Hb']. split; [|exact Hb'].
  cbn [noLineTerminator]. now rewrite Hx, Ha.
Qed.

Lemma noLineTerminator_concat (sep : string) (l : list string) :
  noLineTerminator (String.concat sep l) = true ->
  Forall (fun p => noLineTerminator p = true) l.
Proof.
  induction l as [|p l IH]; [constructor|].
  destruct l as [|p' l].
  - cbn. intro H. constructor; [exact H | constructor].
  - change (String.concat sep (p :: p' :: l))
      with (append p (append sep (String.concat sep (p' :: l)))).
    intro H. apply noLineTerminator_split in H. destruct H as [Hp H].
    apply noLineTerminator_split in H. destruct H as [_ H].
    constructor; [exact Hp | now apply IH].
Qed.

Lemma strip_noLineTerminator (s : string) :
  noLineTerminator s = true -> stripLineTerminators s = s.
Proof.
  unfold stripLineTerminators.
  induction s as [|x s IH]; [reflexivity|]. intro H.
  apply noLineTerminator_cons in H. destruct H as [Hx Hs].
  cbn [keep]. rewrite Hx. cbn [negb]. now rewrite IH.
Qed.

Lemma split_atomic (s : string) (c : ascii) (pieces : list string) :
  noLineTerminator s = true ->
  splitByUnquotedCharacter s (str1 c) = Ok pieces ->
  Forall (fun p => splitByUnquotedCharacter p (str1 c) = Ok [p]) pieces.
Proof.
  intros Hlt Hsplit.
  assert (Hclean : Forall (fun p => noLineTerminator p = true) pieces).
  { apply noLineTerminator_concat with (str1 c).
    rewrite (split_join_strip s c pieces Hsplit).
    now rewrite strip_noLineTerminator. }
  rewrite split_refines in Hsplit by exact Hlt.
  injection Hsplit as <-.
  destruct (splitSpec_pieces c s false false) as (seg & others & Hs & Hw & Ho).
  rewrite Hs in *.
  inversion Hclean as [|? ? Hseg Hothers]; subst.
  constructor.
  - rewrite split_refines by exact Hseg. now rewrite Hw.
  - rewrite Forall_forall in *. intros p Hp.
    rewrite split_refines by now apply Hothers. now rewrite (Ho p Hp).
Qed.

(** X6.  The pieces are atomic: on an input without line terminators,
    tokenizing any returned piece again with the same delimiter returns
    that piece alone. *)
Theorem split_pieces_are_atomic (s : string) (c : ascii)
  (pieces : list string) :
  noLineTerminator s = true ->
  splitByUnquotedCharacter s (str1 c) = Ok pieces ->
  Forall (fun p => splitByUnquotedCharacter p (str1 c) = Ok [p]) pieces.
Proof. exact (split_atomic s c pieces). Qed.

End TokenizerMore.

(* ================================================================== *)
(** ** Normalisation and segmentation of an alternative *)

Section SegmenterMore.

Import Segmenter.

Lemma keep_app (p : ascii -> bool) (a b : string) :
  keep p (append a b) = append (keep p a) (keep p b).
Proof.
  induction a as [|x a IH]; [reflexivity|]. cbn [append keep].
  destruct (p x); [cbn [append]|]; now rewrite IH.
Qed.

Lemma visible_cons (c : ascii) (s : string) :
  visible (String c s)
  = if whiteSpace c then visible s else String c (visible s).
Proof. unfold visible. cbn [keep]. now destruct (whiteSpace c). Qed.

Lemma visible_white (s : string) :
  allChars whiteSpace s = true -> visible s = EmptyString.
Proof.
  induction s as [|c s IH]; [reflexivity|]. cbn [allChars]. intro H.
  apply andb_true_iff in H. destruct H as [Hc Hs].
  now rewrite visible_cons, Hc, IH.
Qed.

Lemma visible_trimStart (s : string) : visible (trimStart s) = visible s.
Proof.
  induction s as [|c s IH]; [reflexivity|]. cbn [trimStart].
  destruct (whiteSpace c) eqn:Hc; [|reflexivity].
  now rewrite IH, visible_cons, Hc.
Qed.

Lemma visible_trimEnd (s : string) : visible (trimEnd s) = visible s.
Proof.
  induction s as [|c s IH]; [reflexivity|]. cbn [trimEnd].
  rewrite (visible_cons c s), <- IH.
  destruct (trimEnd s) as [|x t].
  - destruct (whiteSpace c) eqn:Hc; [reflexivity|].
    unfold str1. now rewrite visible_cons, Hc.
  - now rewrite (visible_cons c (String x t)).
Qed.

Lemma combinator_not_white (c : ascii) :
  combinator c = true -> whiteSpace c = false.
Proof.
  unfold combinator, whiteSpace. cbn zeta.
  intro H. apply orb_true_iff in H. destruct H as [H|H];
    [apply orb_true_iff in H; destruct H as [H|H]|];
    apply Nat.eqb_eq in H; now rewrite H.
Qed.

Lemma allChars_snoc (p : ascii -> bool) (s : string) (c : ascii) :
  allChars p s = true -> p c = true ->
  allChars p (append s (str1 c)) = true.
Proof.
  intros Hs Hc. induction s as [|x s IH].
  - cbn. now rewrite Hc.
  - cbn [append allChars] in *. apply andb_true_iff in Hs.
    destruct Hs as [Hx Hs]. now rewrite Hx, IH.
Qed.

Lemma visible_replaceCombinators (s : string) :
  forall pending swallow,
    allChars whiteSpace pending = true ->
    visible (replaceCombinators pending swallow s) = visible s.
Proof.
  induction s as [|c s IH]; intros pending swallow Hp;
    cbn [replaceCombinators].
  - now apply visible_white.
  - destruct (combinator c) eqn:Hc.
    + rewrite !visible_cons, (combinator_not_white c Hc).
      now rewrite IH.
    + destruct (whiteSpace c) eqn:Hw.
      * rewrite (visible_cons c s), Hw.
        destruct swallow; apply IH; [reflexivity|].
        now apply allChars_snoc.
      * unfold visible at 1. rewrite keep_app.
        fold (visible pending). rewrite (visible_white pending Hp).
        cbn [append]. fold (visible (String c
          (replaceCombinators EmptyString false s))).
        rewrite !visible_cons, Hw. now rewrite IH.
Qed.

Lemma visible_normalize (sel : string) : visible (normalize sel) = visible sel.
Proof.
  unfold normalize, trim.
  rewrite visible_replaceCombinators by reflexivity.
  now rewrite visible_trimEnd, visible_trimStart.
Qed.

Lemma visible_strip (s : string) : visible (stripLineTerminators s) = visible s.
Proof.
  unfold stripLineTerminators.
  induction s as [|c s IH]; [reflexivity|]. cbn [keep].
  destruct (lineTerminator c) eqn:Hc; cbn [negb].
  - rewrite visible_cons, IH.
    assert (Hw : whiteSpace c = true).
    { unfold lineTerminator in Hc. unfold whiteSpace. cbn zeta.
      apply orb_true_iff in Hc. destruct Hc as [H|H];
        apply Nat.eqb_eq in H; now rewrite H. }
    now rewrite Hw.
  - now rewrite !visible_cons, IH.
Qed.

Lemma concat_empty_cons (x : string) (l : list string) :
  String.concat EmptyString (x :: l)
  = append x (String.concat EmptyString l).
Proof.
  destruct l; [cbn; now rewrite append_nil_r | reflexivity].
Qed.

Lemma visible_app (a b : string) :
  visible (append a b) = append (visible a) (visible b).
Proof. apply keep_app. Qed.

Lemma visible_pieces (pieces : list string) :
  visible (String.concat (str1 space) pieces)
  = visible (String.concat EmptyString (filter truthyString pieces)).
Proof.
  induction pieces as [|p pieces IH]; [reflexivity|].
  assert (Hstep : visible (String.concat (str1 space) (p :: pieces))
                  = append (visible p)
                      (visible (String.concat (str1 space) pieces))).
  { destruct pieces as [|q pieces].
    - cbn [String.concat]. now rewrite append_nil_r.
    - change (String.concat (str1 space) (p :: q :: pieces))
        with (append p (append (str1 space)
                (String.concat (str1 space) (q :: pieces)))).
      rewrite !visible_app. reflexivity. }
  rewrite Hstep, IH. cbn [filter].
  destruct p as [|c p]; [reflexivity|].
  cbn [truthyString]. now rewrite concat_empty_cons, visible_app.
Qed.

(** X7.  Segmentation loses nothing but white space.  Whenever an
    alternative is segmented into components, the components written one
    after the other spell the alternative with its white space removed:
    every other character is kept, in its place, and none is added. *)
Theorem refine_spells_the_selector (sel : string) (components : list string) :
  refine sel = Ok components ->
  visible (String.concat EmptyString components) = visible sel.
Proof.
  unfold refine.
  destruct (Tokenizer.splitByUnquotedCharacter (normalize sel) (str1 space))
    as [pieces|e] eqn:Hs; cbn [bind]; [|discriminate].
  intro H; inversion H; subst components.
  rewrite <- visible_pieces.
  rewrite (split_join_strip _ _ _ Hs).
  now rewrite visible_strip, visible_normalize.
Qed.

Lemma tight_white (s : string) :
  allChars whiteSpace s = true -> tight s = true.
Proof.
  induction s as [|a s IH]; [reflexivity|]. cbn [allChars tight]. intro H.
  apply andb_true_iff in H. destruct H as [Ha Hs].
  rewrite (IH Hs), andb_true_r.
  destruct s as [|b s]; [reflexivity|].
  cbn [allChars] in Hs. apply andb_true_iff in Hs. destruct Hs as [Hb _].
  destruct (combinator a) eqn:Hca;
    [apply combinator_not_white in Hca; congruence|].
  destruct (combinator b) eqn:Hcb;
    [apply combinator_not_white in Hcb; congruence|].
  now rewrite andb_false_r.
Qed.

Lemma tight_white_prefix (pending : string) (c : ascii) (rest : string) :
  allChars whiteSpace pending = true ->
  combinator c = false ->
  tight (String c rest) = true ->
  tight (append pending (String c rest)) = true.
Proof.
  intros Hp Hc Ht. induction pending as [|a pending IH]; [exact Ht|].
  cbn [allChars] in Hp. apply andb_true_iff in Hp. destruct Hp as [Ha Hp].
  cbn [append]. cbn [tight]. fold (tight (append pending (String c rest))).
  rewrite (IH Hp), andb_true_r.
  assert (Hca : combinator a = false).
  { destruct (combinator a) eqn:H; [|reflexivity].
    apply combinator_not_white in H. congruence. }
  destruct pending as [|b pending]; cbn [append].
  - now rewrite Hca, Hc, andb_false_r.
  - cbn [allChars] in Hp. apply andb_true_iff in Hp. destruct Hp as [Hb _].
    assert (Hcb : combinator b = false).
    { destruct (combinator b) eqn:H; [|reflexivity].
      apply combinator_not_white in H. congruence. }
    now rewrite Hca, Hcb, andb_false_r.
Qed.

Lemma tight_replaceCombinators (s : string) :
  forall pending swallow,
    allChars whiteSpace pending = true ->
    tight (replaceCombinators pending swallow s) = true
    /\ (swallow = true -> pending = EmptyString ->
        flushLeft (replaceCombinators pending swallow s) = true).
Proof.
  induction s as [|c s IH]; intros pending swallow Hp;
    cbn [replaceCombinators].
  - split; [now apply tight_white|]. now intros _ ->.
  - destruct (combinator c) eqn:Hc.
    + destruct (IH EmptyString true eq_refl) as [Ht Hf].
      specialize (Hf eq_refl eq_refl).
      split.
      * cbn [tight]. fold (tight (replaceCombinators EmptyString true s)).
        rewrite Ht, andb_true_r.
        destruct (replaceCombinators EmptyString true s) as [|b out];
          [reflexivity|].
        cbn [flushLeft] in Hf. apply negb_true_iff in Hf.
        now rewrite Hf, (combinator_not_white c Hc), andb_false_r.
      * intros _ _. cbn [flushLeft].
        now rewrite (combinator_not_white c Hc).
    + destruct (whiteSpace c) eqn:Hw.
      * destruct swallow.
        -- destruct (IH EmptyString true eq_refl) as [Ht Hf].
           split; [exact Ht|]. intros _ _. now apply Hf.
        -- destruct (IH (append pending (str1 c)) false) as [Ht _];
             [now apply allChars_snoc|].
           split; [exact Ht | discriminate].
      * destruct (IH EmptyString false eq_refl) as [Ht _].
        assert (Hone : tight (String c
                          (replaceCombinators EmptyString false s)) = true).
        { cbn [tight].
          fold (tight (replaceCombinators EmptyString false s)).
          rewrite Ht, andb_true_r.
          destruct (replaceCombinators EmptyString false s);
            [reflexivity|].
          now rewrite Hc, Hw. }
        split; [now apply tight_white_prefix|].
        intros _ ->. cbn [append flushLeft]. now rewrite Hw.
Qed.

Lemma flushLeft_trim (s : string) : flushLeft (trim s) = true.
Proof.
  unfold trim.
  assert (H : flushLeft (trimStart s) = true).
  { induction s as [|c s IH]; [reflexivity|]. cbn [trimStart].
    destruct (whiteSpace c) eqn:Hc; [exact IH|].
    cbn [flushLeft]. now rewrite Hc. }
  destruct (trimStart s) as [|c t]; [reflexivity|].
  cbn [flushLeft] in H. cbn [trimEnd].
  apply negb_true_iff in H.
  destruct (trimEnd t); rewrite ?H; cbn [flushLeft str1]; now rewrite H.
Qed.

Lemma flushLeft_replaceCombinators (s : string) (swallow : bool) :
  flushLeft s = true ->
  flushLeft (replaceCombinators EmptyString swallow s) = true.
Proof.
  destruct s as [|c s]; [reflexivity|]. cbn [flushLeft replaceCombinators].
  intro H. apply negb_true_iff in H. rewrite H.
  destruct (combinator c); cbn [append flushLeft]; now rewrite H.
Qed.

(** X8.  After normalisation no white space stands next to a combinator
    ([>], [+], [~]) and none begins the selector, so that a combinator and
    the compound selectors around it stay in one component. *)
Theorem normalize_is_tight (sel : string) :
  tight (normalize sel) = true /\ flushLeft (normalize sel) = true.
Proof.
  unfold normalize. split.
  - now apply tight_replaceCombinators.
  - apply flushLeft_replaceCombinators, flushLeft_trim.
Qed.

End SegmenterMore.

(* ================================================================== *)
(** ** Parent resolution and the matcher inside a document *)

Section MatcherMore.

Variable E : Engine.
Variable d : document.

(** X9.  From an element of the document, parent resolution returns, when
    it returns a node, a node of the document strictly above the element
    that is an element or the document itself: never a shadow root. *)
Theorem getParentOrHost_in_document (element root p : ref) :
  isElement d element ->
  getParentOrHost element root = Some p ->
  below p element /\ (isElement d p \/ p = []).
Proof.
  intros (e & He) Hp.
  destruct element as [|[i|] parent]; try discriminate.
  cbn [resolve] in He.
  destruct (resolve d parent) as [n|] eqn:Hn; [|discriminate].
  unfold getParentOrHost in Hp. cbn [parentNode] in Hp.
  destruct parent as [|[j|] h]; cbn [host nodeType] in Hp.
  - destruct (ref_eqb [] root); inversion Hp; subst. split.
    + exists [Child i]. split; [discriminate | reflexivity].
    + now right.
  - destruct (ref_eqb (Child j :: h) root); inversion Hp; subst. split.
    + exists [Child i]. split; [discriminate | reflexivity].
    + left. pose proof Hn as Hn'. cbn [resolve] in Hn'.
      destruct (resolve d h) as [m|]; [|discriminate].
      apply enter_child in Hn'. destruct Hn' as (c & _ & ->). now exists c.
  - cbn in Hp. inversion Hp; subst. split.
    + exists [Child i; Shadow]. split; [discriminate | reflexivity].
    + left. cbn [resolve] in Hn.
      destruct (resolve d p) as [m|] eqn:Hm; [|discriminate].
      apply enter_shadow in Hn. destruct Hn as (content & Hc & _).
      destruct m as [kids|e'|c']; try discriminate. now exists e'.
Qed.

(** *** The greedy walk finds a chain whenever there is one *)

Lemma subsequence_tail {A : Type} (x : A) (s l : list A) :
  subsequence (x :: s) l -> subsequence s l.
Proof.
  intro H. remember (x :: s) as xs eqn:Hxs. revert x s Hxs.
  induction H as [l|y s' l H IH|y s' l H IH]; intros x s Hxs.
  - discriminate.
  - inversion Hxs; subst. now apply sub_skip.
  - apply sub_skip. now apply (IH x).
Qed.

Lemma firstn_snoc (l : list string) (k : nat) :
  k < List.length l ->
  rev (firstn (S k) l) = nth k l EmptyString :: rev (firstn k l).
Proof.
  revert k. induction l as [|a l IH]; intros k Hk; [simpl in Hk; lia|].
  destruct k as [|k].
  - reflexivity.
  - change (firstn (S (S k)) (a :: l)) with (a :: firstn (S k) l).
    change (firstn (S k) (a :: l)) with (a :: firstn k l).
    cbn [rev nth]. rewrite IH by (simpl in Hk; lia). reflexivity.
Qed.

(** With components the engine accepts, the walk returns a boolean, and it
    is [true] exactly when the nodes hold, in order, a match for each of the
    components from the cursor down to the first. *)
Lemma greedy_finds_chain (components : list string) :
  Forall (fun c => valid E c = true) components ->
  forall nodes k,
    k < List.length components ->
    exists b,
      greedy E d components k nodes = Ok b
      /\ (b = true
          <-> exists sub,
                subsequence sub nodes
                /\ Forall2 (matchesAt E d) sub
                     (rev (firstn (S k) components))).
Proof.
  intros Hvalid. rewrite Forall_forall in Hvalid.
  induction nodes as [|x up IH]; intros k Hk.
  - exists false. split; [reflexivity|]. split; [discriminate|].
    intros (sub & Hsub & Hm). inversion Hsub; subst.
    rewrite firstn_snoc in Hm by exact Hk. inversion Hm.
  - cbn [greedy]. rewrite firstn_snoc by exact Hk.
    assert (Hv : valid E (nth k components EmptyString) = true)
      by (apply Hvalid, nth_In; exact Hk).
    unfold matches. rewrite Hv.
    assert (Hm : exists m,
               (if hasMatches x
                then Ok (nativeMatches E d x (nth k components EmptyString))
                else Ok false) = Ok m
               /\ (m = true
                   <-> matchesAt E d x (nth k components EmptyString))).
    { unfold matchesAt. destruct (hasMatches x).
      - eexists. split; [reflexivity|]. tauto.
      - exists false. split; [reflexivity|].
        split; [discriminate | intros [H _]; discriminate]. }
    destruct Hm as (m & -> & Hm). cbn [bind].
    destruct m.
    + destruct k as [|k].
      * exists true. split; [reflexivity|]. split; [|reflexivity].
        intros _. exists [x]. split.
        -- apply sub_take, sub_nil.
        -- constructor; [now apply Hm | constructor].
      * destruct (IH k ltac:(lia)) as (b & Hb & Hiff).
        exists b. split; [exact Hb|]. rewrite Hiff. split.
        -- intros (sub & Hsub & Hall). exists (x :: sub). split.
           ++ now apply sub_take.
           ++ constructor; [now apply Hm | exact Hall].
        -- intros (sub & Hsub & Hall).
           inversion Hall as [|n c sub' cs Hn Hrest]; subst.
           exists sub'. split; [|exact Hrest].
           inversion Hsub; subst; [assumption|].
           eapply subsequence_tail; eassumption.
    + destruct (IH k Hk) as (b & Hb & Hiff).
      exists b. split; [exact Hb|]. rewrite Hiff.
      rewrite firstn_snoc by exact Hk. split.
      * intros (sub & Hsub & Hall). exists sub. split; [|exact Hall].
        now apply sub_skip.
      * intros (sub & Hsub & Hall). exists sub. split; [|exact Hall].
        inversion Hall as [|n c sub' cs Hn Hrest]; subst.
        inversion Hsub; subst; [|assumption].
        apply Hm in Hn. discriminate.
Qed.

(** The predicate is the worded walk from any cursor inside the sequence. *)
Lemma matchElements_greedy_from (components : list string) (k : nat)
  (root element : ref) :
  k < List.length components ->
  matchElements E d components (Z.of_nat k) root element
  = greedy E d components k (visited root element).
Proof.
  intro Hk. unfold matchElements, matchElementsTrace, visited.
  destruct (whileLoop_total E d components root (S (List.length element))
              (Z.of_nat k) (Some element))
    as (reads & r & Hw); [simpl; lia|].
  rewrite Hw. eapply whileLoop_greedy; [exact Hk | exact Hw].
Qed.

(** X10.  When the engine accepts every component, the matcher answers with
    a boolean, and it accepts a candidate exactly when the nodes on its way
    up hold, in that order, a match for the last component, then one for
    the component before it, and so on down to the first: taking the
    nearest match each time never loses a chain that exists. *)
Theorem matchElements_accepts_iff_chain (components : list string)
  (root element : ref) :
  components <> [] ->
  Forall (fun c => valid E c = true) components ->
  exists b,
    matchElements E d components (Z.of_nat (List.length components) - 1)
      root element = Ok b
    /\ (b = true
        <-> exists chain,
              subsequence chain (visited root element)
              /\ Forall2 (matchesAt E d) chain (rev components)).
Proof.
  intros Hne Hvalid.
  assert (Hlen : 0 < List.length components)
    by (destruct components; [congruence | simpl; lia]).
  replace (Z.of_nat (List.length components) - 1)%Z
    with (Z.of_nat (List.length components - 1)) by lia.
  rewrite matchElements_greedy_from by lia.
  destruct (greedy_finds_chain components Hvalid (visited root element)
              (List.length components - 1) ltac:(lia)) as (b & Hb & Hiff).
  exists b. split; [exact Hb|].
  replace (S (List.length components - 1)) with (List.length components)
    in Hiff by lia.
  now rewrite firstn_all in Hiff.
Qed.

End MatcherMore.

(* ================================================================== *)
(** ** The collector and the native queries *)

Section CollectorMore.

Variable E : Engine.
Variable d : document.

Lemma subtree_in_discover (e : element) :
  forall p x, In x (subtree p e) -> In x (discover p e).
Proof.
  induction e as [t sh kids IHsh IHkids] using element_induction.
  intros p x. cbn [subtree discover]. intros [Hx|Hx]; [now left|].
  right. apply in_or_app. right.
  apply flatMapi_in in Hx. destruct Hx as (j & c & Hj & Hx).
  apply flatMapi_in. exists j, c. split; [exact Hj|].
  rewrite Forall_forall in IHkids.
  apply (IHkids c (nth_error_In _ _ Hj)). exact Hx.
Qed.

(** What [querySelectorAll('*')] lists below a node is collected. *)
Lemma star_in_discovery (root x : ref) :
  In x (querySelectorAllStar d root) -> In x (discovery d root).
Proof.
  unfold querySelectorAllStar, discovery.
  destruct (resolve d root) as [n|]; [|contradiction].
  rewrite discoverNode_eq. intro Hx. apply in_or_app. right.
  unfold treeOrder in Hx. unfold discoverForest.
  apply flatMapi_in in Hx. destruct Hx as (j & c & Hj & Hx).
  apply flatMapi_in. exists j, c. split; [exact Hj|].
  now apply subtree_in_discover.
Qed.

(** X11.  The collector lists at least what the root's own
    [querySelectorAll('*')] lists, and exactly that, in that order, when no
    shadow tree hangs below the root. *)
Theorem gather_extends_native_star (root : ref) :
  exists collected,
    gatherAllElementsXFind E d None root = Ok collected
    /\ incl (querySelectorAllStar d root) collected
    /\ (noShadowTrees d root = true ->
        collected = querySelectorAllStar d root).
Proof.
  exists (discovery d root). split; [apply gather_unfiltered|]. split.
  - intros x Hx. now apply star_in_discovery.
  - apply noShadowTrees_discovery.
Qed.

Lemma below_trans (a b c : ref) : below a b -> below b c -> below a c.
Proof.
  intros (s1 & H1 & ->) (s2 & H2 & ->). exists (s2 ++ s1). split.
  - destruct s2; [congruence | discriminate].
  - now rewrite app_assoc.
Qed.

Lemma discovery_nests (root inner : ref) :
  In inner (discovery d root) ->
  incl (discovery d inner) (discovery d root).
Proof.
  intros Hin x Hx. apply discovery_in in Hin, Hx. apply discovery_in.
  destruct Hin as [Hb _]. destruct Hx as [Hb' He].
  split; [now apply below_trans with inner | exact He].
Qed.

(** X12.  Collections nest: what the collector lists from an element it
    listed from a root, it also lists from that root. *)
Theorem gather_nests (root inner : ref) (outerList innerList : list ref) :
  gatherAllElementsXFind E d None root = Ok outerList ->
  In inner outerList ->
  gatherAllElementsXFind E d None inner = Ok innerList ->
  incl innerList outerList.
Proof.
  rewrite !gather_unfiltered. intros H1 Hin H2.
  injection H1 as <-. injection H2 as <-. now apply discovery_nests.
Qed.

(** X13.  A filter the engine rejects throws its SyntaxError as soon as
    there is one element to test, and goes unnoticed, with an empty result,
    when there is none. *)
Theorem gather_with_rejected_filter (root : ref) (s : string) :
  s <> EmptyString -> valid E s = false ->
  gatherAllElementsXFind E d (Some s) root
  = match discovery d root with
    | [] => Ok []
    | _ :: _ => Throw (SyntaxError s)
    end.
Proof.
  intros Hs Hv. unfold gatherAllElementsXFind. rewrite collected_discovery.
  destruct s as [|c s]; [congruence|]. cbn [Segmenter.truthyString].
  destruct (discovery d root) as [|x l]; [reflexivity|].
  cbn [filterR]. unfold matches. now rewrite Hv.
Qed.

End CollectorMore.

(* ================================================================== *)
(** ** What the entry points return *)

Section ResultsMore.

Variable E : Engine.

(** *** In single mode a result is [null] or one element *)

Lemma alternative_single (d : document) (root : ref) (acc : value)
  (sel : string) (v : value) :
  isSingle acc ->
  alternative E d false root acc sel = Ok v -> isSingle v.
Proof.
  intros Hacc. unfold alternative. cbn [negb andb].
  destruct (truthy acc).
  - intro H; inversion H; now subst.
  - destruct (Segmenter.refine sel) as [refined|e]; cbn [bind];
      [|discriminate].
    destruct (gatherAllElementsXFind E d _ root) as [els|e]; cbn [bind];
      [|discriminate].
    destruct (findR _ els) as [[el|]|e]; cbn [bind]; try discriminate;
      intro H; inversion H; [right; now eexists | now left].
Qed.

Lemma reduceR_single (d : document) (root : ref) (sels : list string) :
  forall acc v,
    isSingle acc ->
    reduceR (alternative E d false root) sels acc = Ok v -> isSingle v.
Proof.
  induction sels as [|sel sels IH]; intros acc v Hacc; cbn [reduceR].
  - intro H; inversion H; now subst.
  - destruct (alternative E d false root acc sel) as [v'|e] eqn:Ha;
      cbn [bind]; [|discriminate].
    apply IH. eapply alternative_single; eassumption.
Qed.

Lemma query_single (d : document) (sel : string) (root : ref) (v : value) :
  queryInShadowDOM E d sel false root = Ok v -> isSingle v.
Proof.
  unfold queryInShadowDOM.
  destruct (querySelector E d root sel) as [light|e]; cbn [bind];
    [|discriminate].
  destruct (shadowSupport E).
  - destruct light as [el|].
    + intro H; inversion H. right. now eexists.
    + destruct (Tokenizer.splitByUnquotedCharacter sel (str1 comma))
        as [sels|e]; cbn [bind]; [|discriminate].
      apply reduceR_single. now left.
  - intro H; inversion H. destruct light; [right; now eexists | now left].
Qed.



(** *** Results lie below the root *)

Lemma filterR_incl {A : Type} (p : A -> result bool) (l : list A) :
  forall l', filterR p l = Ok l' -> incl l' l.
Proof.
  induction l as [|x l IH]; intros l'; cbn [filterR].
  - intro H; inversion H. apply incl_refl.
  - destruct (p x) as [b|e]; cbn [bind]; [|discriminate].
    destruct (filterR p l) as [rest|e]; cbn [bind]; [|discriminate].
    intro H; inversion H. specialize (IH rest eq_refl).
    destruct b.
    + apply incl_cons; [now left | now apply incl_tl].
    + now apply incl_tl.
Qed.

Lemma findR_in {A : Type} (p : A -> result bool) (l : list A) (x : A) :
  findR p l = Ok (Some x) -> In x l.
Proof.
  induction l as [|y l IH]; cbn [findR]; [discriminate|].
  destruct (p y) as [[|]|e]; cbn [bind]; try discriminate.
  - intro H; inversion H. now left.
  - intro H. right. now apply IH.
Qed.

Lemma gather_incl (d : document) (selector : option string) (root : ref)
  (l : list ref) :
  gatherAllElementsXFind E d selector root = Ok l ->
  incl l (discovery d root).
Proof.
  unfold gatherAllElementsXFind. rewrite collected_discovery.
  destruct selector as [s|].
  - destruct (Segmenter.truthyString s).
    + apply filterR_incl.
    + intro H; inversion H. apply incl_refl.
  - intro H; inversion H. apply incl_refl.
Qed.

Lemma alternative_within (d : document) (findMany : bool) (root : ref)
  (acc : value) (sel : string) (v : value) :
  within d root acc ->
  alternative E d findMany root acc sel = Ok v -> within d root v.
Proof.
  intro Hacc. unfold alternative.
  destruct (negb findMany && truthy acc).
  - intro H; inversion H; now subst.
  - destruct (Segmenter.refine sel) as [refined|e]; cbn [bind];
      [|discriminate].
    destruct (gatherAllElementsXFind E d _ root) as [els|e] eqn:Hg;
      cbn [bind]; [|discriminate].
    apply gather_incl in Hg.
    destruct findMany.
    + destruct acc as [|el|acc]; try discriminate.
      destruct (filterR _ els) as [found|e] eqn:Hf; cbn [bind];
        [|discriminate].
      intro H; inversion H. cbn [within] in *.
      apply incl_app; [exact Hacc|].
      apply filterR_incl in Hf. now apply incl_tran with els.
    + destruct (findR _ els) as [[el|]|e] eqn:Hf; cbn [bind];
        try discriminate; intro H; inversion H; cbn; [|exact I].
      apply Hg. now apply findR_in in Hf.
Qed.

Lemma reduceR_within (d : document) (findMany : bool) (root : ref)
  (sels : list string) :
  forall acc v,
    within d root acc ->
    reduceR (alternative E d findMany root) sels acc = Ok v ->
    within d root v.
Proof.
  induction sels as [|sel sels IH]; intros acc v Hacc; cbn [reduceR].
  - intro H; inversion H; now subst.
  - destruct (alternative E d findMany root acc sel) as [v'|e] eqn:Ha;
      cbn [bind]; [|discriminate].
    apply IH. eapply alternative_within; eassumption.
Qed.

Lemma native_in_star (d : document) (root : ref) (sel : string)
  (l : list ref) :
  querySelectorAll E d root sel = Ok l ->
  incl l (querySelectorAllStar d root).
Proof.
  unfold querySelectorAll. destruct (valid E sel); [|discriminate].
  intro H; inversion H. intros x Hx. now apply filter_In in Hx.
Qed.

Lemma query_within (d : document) (sel : string) (findMany : bool)
  (root : ref) (v : value) :
  queryInShadowDOM E d sel findMany root = Ok v -> within d root v.
Proof.
  unfold queryInShadowDOM, querySelector.
  destruct (querySelectorAll E d root sel) as [natives|e] eqn:Hn;
    cbn [bind]; [|discriminate].
  apply native_in_star in Hn.
  assert (Hhd : forall el, hd_error natives = Some el ->
                           In el (discovery d root)).
  { intros el Hel. apply star_in_discovery, Hn.
    destruct natives; inversion Hel. now left. }
  assert (Hslow : (sels <- Tokenizer.splitByUnquotedCharacter sel
                             (str1 comma) ;;
                   reduceR (alternative E d findMany root) sels
                     (if findMany then VArray [] else VNull)) = Ok v ->
                  within d root v).
  { destruct (Tokenizer.splitByUnquotedCharacter sel (str1 comma))
      as [sels|e]; cbn [bind]; [|discriminate].
    apply reduceR_within. destruct findMany; cbn; [|exact I].
    intros x []. }
  destruct (shadowSupport E).
  - destruct findMany; [exact Hslow|].
    destruct (hd_error natives) as [el|] eqn:Hel; [|exact Hslow].
    intro H; inversion H. cbn. now apply Hhd.
  - destruct findMany.
    + intro H; inversion H. cbn. intros x Hx.
      now apply star_in_discovery, Hn.
    + intro H; inversion H. destruct (hd_error natives) as [el|] eqn:Hel;
        cbn; [now apply Hhd | exact I].
Qed.

Lemma within_nests (d : document) (root inner : ref) (v : value) :
  In inner (discovery d root) -> within d inner v -> within d root v.
Proof.
  intros Hin. pose proof (discovery_nests d root inner Hin) as Hn.
  destruct v as [|el|els]; cbn; [tauto | apply Hn |].
  intro H. now apply incl_tran with (discovery d inner).
Qed.

Lemma stages_within (findMany : bool) (selectors : list string) :
  forall cur w v,
    selectors <> [] ->
    snd (stages E findMany selectors cur w) = Ok v ->
    within (dom w) cur v.
Proof.
  induction selectors as [|s rest IH]; intros cur w v Hne; [congruence|].
  destruct rest as [|s' rest'].
  - destruct findMany.
    + cbn [stages snd]. apply query_within.
    + rewrite stages_step by now right.
      destruct (querySelectorXFind E (dom w) s cur) as [[|el|els]|e] eqn:Hq;
        cbn [snd stages]; try discriminate.
      * intro H; inversion H. exact I.
      * intro H; inversion H; subst. now apply query_within in Hq.
  - rewrite stages_step by (left; discriminate).
    destruct (querySelectorXFind E (dom w) s cur) as [[|el|els]|e] eqn:Hq;
      cbn [snd]; try discriminate.
    + intro H; inversion H. destruct findMany; cbn; [|exact I].
      intros x [].
    + intro H. apply query_within in Hq. cbn [within] in Hq.
      apply within_nests with el; [exact Hq|].
      apply (IH el (enterStage s cur w) v); [discriminate | exact H].
Qed.

(** X15.  Whatever [xfind] and [xfindAll] return lies strictly below the
    root they were given, shadow trees included: each returned node is an
    element of the document below that root, never the root itself and
    never a node beside or above it, however many stages the selector
    has. *)
Theorem results_lie_below_the_root (selector : string) (root : ref)
  (w : world) :
  (forall el,
      snd (xfind E selector root w) = Ok (VElement el) ->
      below root el /\ isElement (dom w) el)
  /\ (forall els el,
        snd (xfindAll E selector root w) = Ok (VArray els) ->
        In el els -> below root el /\ isElement (dom w) el).
Proof.
  assert (Hp : forall findMany v,
             snd (performQuery E selector findMany root w) = Ok v ->
             within (dom w) root v).
  { intros findMany v. unfold performQuery.
    destruct (validateSelector E selector); [|discriminate].
    apply stages_within, splitBoundary_nonempty. }
  split.
  - intros el. unfold xfind.
    specialize (Hp false).
    destruct (performQuery E selector false root w) as [w1 [v1|e]];
      cbn [snd] in *; [|discriminate].
    intro H; inversion H; subst. apply discovery_in. exact (Hp _ eq_refl).
  - intros els el. unfold xfindAll.
    specialize (Hp true).
    destruct (performQuery E selector true root w) as [w1 [[|x|l]|e]];
      cbn [snd] in *; intro H; inversion H; subst.
    intro Hin. apply discovery_in. exact (Hp _ eq_refl el Hin).
Qed.

End ResultsMore.

(* ================================================================== *)
(** ** Boundary stages *)

Section StagesMore.

Variable E : Engine.

Lemma prefix_marker (s : string) :
  prefix ">>>"%string s = true -> exists t, s = append ">>>"%string t.
Proof.
  destruct s as [|a s]; [discriminate|]. cbn [prefix].
  destruct (ascii_dec _ a) as [<-|]; [|discriminate].
  destruct s as [|b s]; [discriminate|]. cbn [prefix].
  destruct (ascii_dec _ b) as [<-|]; [|discriminate].
  destruct s as [|c s]; [discriminate|]. cbn [prefix].
  destruct (ascii_dec _ c) as [<-|]; [|discriminate].
  intros _. now exists s.
Qed.

Lemma splitBoundary_skip (a b : ascii) (t cur : string) :
  splitBoundary 2 cur (String a (String b t)) = splitBoundary 0 cur t.
Proof. destruct t; reflexivity. Qed.

Lemma concat_cons (sep x : string) (l : list string) :
  l <> [] ->
  String.concat sep (x :: l) = append x (append sep (String.concat sep l)).
Proof. destruct l; [congruence | reflexivity]. Qed.

Lemma splitBoundary_join (n : nat) :
  forall s cur,
    String.length s <= n ->
    String.concat ">>>"%string (splitBoundary 0 cur s) = append cur s.
Proof.
  induction n as [|n IH]; intros s cur Hlen.
  - destruct s; [|cbn in Hlen; lia]. cbn. now rewrite append_nil_r.
  - destruct s as [|c s']; [cbn; now rewrite append_nil_r|].
    cbn [splitBoundary].
    destruct (prefix ">>>"%string (String c s')) eqn:Hp.
    + apply prefix_marker in Hp. destruct Hp as (t & Ht).
      cbn [append] in Ht. inversion Ht; subst c s'. clear Ht.
      rewrite splitBoundary_skip.
      rewrite concat_cons by apply splitBoundary_nonempty.
      cbn [String.length] in Hlen.
      rewrite IH by lia. reflexivity.
    + rewrite IH by (cbn [String.length] in Hlen; lia).
      now rewrite append_assoc.
Qed.

(** X16.  Joining the stages of a selector with the boundary marker gives
    the selector back: [selector.split('>>>')] loses nothing. *)
Theorem stages_join_to_selector (selector : string) :
  String.concat ">>>"%string (split selector) = selector.
Proof.
  unfold split. now rewrite (splitBoundary_join (String.length selector)).
Qed.

Lemma stages_effects (findMany : bool) (selectors : list string) :
  forall cur w,
    selectors <> [] ->
    let w' := fst (stages E findMany selectors cur w) in
    stageQueries w' = stageQueries w ++ trail E (dom w) selectors cur
    /\ (console w' = console w
        \/ exists s,
             In s selectors
             /\ console w'
                = console w
                  ++ [ConsoleError
                        (append "Selector "%string
                           (append s " not found"%string))]
             /\ snd (stages E findMany selectors cur w)
                = Ok (if findMany then VArray [] else VNull)).
Proof.
  induction selectors as [|s rest IH]; intros cur w Hne; [congruence|].
  destruct rest as [|s' rest'].
  - destruct findMany.
    + cbn [stages fst trail]. split; [|left; reflexivity].
      cbn [enterStage stageQueries].
      now destruct (querySelectorXFind E (dom w) s cur) as [[|el|els]|e].
    + rewrite stages_step by now right.
      cbn [trail].
      destruct (querySelectorXFind E (dom w) s cur) as [[|el|els]|e];
        cbn [fst snd stages enterStage say stageQueries console];
        (split; [reflexivity|]); try (left; reflexivity).
      right. exists s. split; [now left|]. split; reflexivity.
  - rewrite stages_step by (left; discriminate).
    cbn [trail].
    destruct (querySelectorXFind E (dom w) s cur) as [[|el|els]|e];
      try (cbn [fst snd enterStage say stageQueries console];
           split;
           [ reflexivity
           | first [ left; reflexivity
                   | right; exists s; split;
                     [now left | split; reflexivity] ] ]).
    destruct (IH el (enterStage s cur w)) as (Hq & Hc); [discriminate|].
    cbn zeta.
    split.
    + rewrite Hq. cbn [enterStage stageQueries dom].
      rewrite <- app_assoc. reflexivity.
    + destruct Hc as [Hc|(x & Hin & Hc & Hr)].
      * left. exact Hc.
      * right. exists x. split; [now right|]. split; assumption.
Qed.

(** X18.  What a query does besides returning.  It leaves the document as
    it is.  For a selector the engine validates it issues the stage queries
    one after the other, each on the element the previous one found, and
    none after a stage that found nothing or threw; it writes at most one
    line to the console, an error naming a stage of the selector, and then
    returns [null] or the empty array.  For a selector the engine rejects
    it issues no query and writes nothing. *)
Theorem performQuery_effects (selector : string) (findMany : bool)
  (root : ref) (w : world) :
  let w' := fst (performQuery E selector findMany root w) in
  dom w' = dom w
  /\ (if valid E selector
      then stageQueries w'
           = stageQueries w ++ trail E (dom w) (split selector) root
           /\ (console w' = console w
               \/ exists s,
                    In s (split selector)
                    /\ console w'
                       = console w
                         ++ [ConsoleError
                               (append "Selector "%string
                                  (append s " not found"%string))]
                    /\ snd (performQuery E selector findMany root w)
                       = Ok (if findMany then VArray [] else VNull))
      else w' = w).
Proof.
  cbn zeta. split; [apply performQuery_dom|].
  unfold performQuery, validateSelector.
  destruct (valid E selector); [|reflexivity].
  apply (stages_effects findMany (split selector) root w).
  apply splitBoundary_nonempty.
Qed.

End StagesMore.

(* ================================================================== *)
(** ** Alternatives of a selector list *)

Section AlternativesMore.

Variable E : Engine.
Variable d : document.

Lemma filterR_findR {A : Type} (p : A -> result bool) (l : list A) :
  forall kept, filterR p l = Ok kept -> findR p l = Ok (hd_error kept).
Proof.
  induction l as [|x l IH]; intros kept; cbn [filterR findR].
  - intro H; inversion H. reflexivity.
  - destruct (p x) as [b|e]; cbn [bind]; [|discriminate].
    destruct (filterR p l) as [rest|e]; cbn [bind]; [|discriminate].
    intro H; inversion H; subst kept.
    destruct b; [reflexivity | now apply IH].
Qed.

Lemma alternative_many_shape (root : ref) (acc : list ref) (sel : string)
  (v : value) :
  alternative E d true root (VArray acc) sel = Ok v ->
  exists matched,
    v = VArray (acc ++ matched)
    /\ alternative E d true root (VArray []) sel = Ok (VArray matched)
    /\ alternative E d false root VNull sel = Ok (ofOption (hd_error matched)).
Proof.
  unfold alternative. cbn [negb andb truthy].
  destruct (Segmenter.refine sel) as [refined|e]; cbn [bind]; [|discriminate].
  destruct (gatherAllElementsXFind E d _ root) as [els|e]; cbn [bind];
    [|discriminate].
  destruct (filterR _ els) as [l|e] eqn:Hf; cbn [bind]; [|discriminate].
  intro H; inversion H. exists l.
  split; [reflexivity|]. split; [reflexivity|].
  now rewrite (filterR_findR _ _ _ Hf).
Qed.

Lemma alternative_many_acc (root : ref) (acc : list ref) (sel : string)
  (matched : list ref) :
  alternative E d true root (VArray []) sel = Ok (VArray matched) ->
  alternative E d true root (VArray acc) sel = Ok (VArray (acc ++ matched)).
Proof.
  unfold alternative. cbn [negb andb truthy].
  destruct (Segmenter.refine sel) as [refined|e]; cbn [bind]; [|discriminate].
  destruct (gatherAllElementsXFind E d _ root) as [els|e]; cbn [bind];
    [|discriminate].
  destruct (filterR _ els) as [l|e] eqn:Hf; cbn [bind]; [|discriminate].
  intro H; inversion H. reflexivity.
Qed.

Lemma reduce_head (root : ref) (sels : list string) :
  forall acc l,
    reduceR (alternative E d true root) sels (VArray acc) = Ok (VArray l) ->
    reduceR (alternative E d false root) sels (ofOption (hd_error acc))
    = Ok (ofOption (hd_error l)).
Proof.
  induction sels as [|sel sels IH]; intros acc l; cbn [reduceR].
  - intro H; inversion H. reflexivity.
  - destruct (alternative E d true root (VArray acc) sel) as [v|e] eqn:Ha;
      cbn [bind]; [|discriminate].
    apply alternative_many_shape in Ha.
    destruct Ha as (matched & -> & _ & Hone). intro Hrest.
    apply IH in Hrest.
    destruct acc as [|x acc].
    + cbn [hd_error ofOption]. rewrite Hone. cbn [bind]. exact Hrest.
    + cbn [hd_error ofOption alternative negb andb truthy bind].
      exact Hrest.
Qed.

(** X19.  The first match and the list of all matches are consistent.
    Whenever the all-matches query of a stage returns an array, the
    single-match query of the same stage returns too: the native first match
    if the light DOM has one, and otherwise the first element of that array
    ([null] if the array is empty). *)
Theorem first_match_heads_all_matches (selector : string) (root : ref)
  (l : list ref) :
  querySelectorAllXFind E d selector root = Ok (VArray l) ->
  exists light,
    querySelector E d root selector = Ok light
    /\ querySelectorXFind E d selector root
       = Ok (match light with
             | Some el => VElement el
             | None => ofOption (hd_error l)
             end).
Proof.
  unfold querySelectorAllXFind, querySelectorXFind, queryInShadowDOM.
  unfold querySelector.
  destruct (querySelectorAll E d root selector) as [native|e] eqn:Hn;
    cbn [bind]; [|discriminate].
  intro H. exists (hd_error native). split; [reflexivity|].
  destruct (shadowSupport E).
  - destruct (hd_error native) as [el|]; [reflexivity|].
    destruct (Tokenizer.splitByUnquotedCharacter selector (str1 comma))
      as [sels|e]; cbn [bind] in *; [|discriminate].
    now apply (reduce_head root sels []).
  - inversion H; subst l. now destruct (hd_error native).
Qed.

Lemma reduce_concat (root : ref) (alts : list string) :
  forall acc results,
    Forall2 (fun a r => alternative E d true root (VArray []) a
                        = Ok (VArray r)) alts results ->
    reduceR (alternative E d true root) alts (VArray acc)
    = Ok (VArray (acc ++ List.concat results)).
Proof.
  induction alts as [|a alts IH]; intros acc results H; inversion H; subst.
  - cbn. now rewrite app_nil_r.
  - cbn [reduceR List.concat].
    rewrite (alternative_many_acc root acc a _ H2). cbn [bind].
    rewrite (IH _ _ H4). now rewrite app_assoc.
Qed.

Lemma reduce_concat_inv (root : ref) (alts : list string) :
  forall acc l,
    reduceR (alternative E d true root) alts (VArray acc) = Ok (VArray l) ->
    exists results,
      Forall2 (fun a r => alternative E d true root (VArray []) a
                          = Ok (VArray r)) alts results
      /\ l = acc ++ List.concat results.
Proof.
  induction alts as [|a alts IH]; intros acc l; cbn [reduceR].
  - intro H; inversion H. exists []. split; [constructor|].
    cbn. now rewrite app_nil_r.
  - destruct (alternative E d true root (VArray acc) a) as [v|e] eqn:Ha;
      cbn [bind]; [|discriminate].
    apply alternative_many_shape in Ha.
    destruct Ha as (matched & -> & Hm & _). intro Hrest.
    apply IH in Hrest. destruct Hrest as (results & Hall & ->).
    exists (matched :: results). split; [now constructor|].
    cbn [List.concat]. now rewrite app_assoc.
Qed.

Lemma query_one_alternative (a : string) (root : ref) :
  shadowSupport E = true ->
  valid E a = true ->
  Tokenizer.splitByUnquotedCharacter a (str1 comma) = Ok [a] ->
  querySelectorAllXFind E d a root
  = alternative E d true root (VArray []) a.
Proof.
  intros Hs Hv Hsplit.
  unfold querySelectorAllXFind, queryInShadowDOM, querySelector,
    querySelectorAll.
  rewrite Hv, Hs, Hsplit. cbn [bind reduceR].
  now destruct (alternative E d true root (VArray []) a).
Qed.

(** X20.  A selector list is answered alternative by alternative.  With
    shadow support, for a list the engine validates, free of line
    terminators, whose alternatives (the pieces between unquoted commas) are
    each valid on their own: the all-matches query returns an array exactly
    when the all-matches query of every alternative does, and the array is
    then the concatenation of theirs, in the order of the alternatives (an
    element matching two alternatives is listed twice). *)
Theorem all_matches_concatenate_alternatives (selector : string)
  (alts : list string) (root : ref) (l : list ref) :
  shadowSupport E = true ->
  valid E selector = true ->
  noLineTerminator selector = true ->
  Tokenizer.splitByUnquotedCharacter selector (str1 comma) = Ok alts ->
  Forall (fun a => valid E a = true) alts ->
  querySelectorAllXFind E d selector root = Ok (VArray l)
  <-> exists results,
        Forall2 (fun a r => querySelectorAllXFind E d a root = Ok (VArray r))
                alts results
        /\ l = List.concat results.
Proof.
  intros Hs Hv Hlt Hsplit Hvalid.
  assert (Hone : forall results,
             Forall2 (fun a r => querySelectorAllXFind E d a root
                                 = Ok (VArray r)) alts results
             <-> Forall2 (fun a r => alternative E d true root (VArray []) a
                                     = Ok (VArray r)) alts results).
  { pose proof (split_atomic selector comma alts Hlt Hsplit) as Hatomic.
    clear Hsplit. intro results. revert results.
    induction alts as [|a alts IH]; intros results.
    - split; intro H; inversion H; constructor.
    - inversion Hvalid; inversion Hatomic; subst.
      split; intro H; inversion H; subst; constructor;
        try (now apply IH).
      + now rewrite <- query_one_alternative.
      + now rewrite query_one_alternative. }
  assert (Hq : querySelectorAllXFind E d selector root
               = reduceR (alternative E d true root) alts (VArray [])).
  { unfold querySelectorAllXFind, queryInShadowDOM, querySelector,
      querySelectorAll.
    rewrite Hv, Hs, Hsplit. reflexivity. }
  rewrite Hq. split.
  - intro H. apply reduce_concat_inv in H.
    destruct H as (results & Hall & ->).
    exists results. split; [now apply Hone | reflexivity].
  - intros (results & Hall & ->).
    apply Hone in Hall. now rewrite (reduce_concat root alts [] results Hall).
Qed.

End AlternativesMore.

(* ================================================================== *)
(** ** What a stage query answers *)

Section AnswerMore.

Variable E : Engine.
Variable d : document.

Lemma index_last (init : list string) (c : string) :
  index (init ++ [c]) (Z.of_nat (List.length (init ++ [c])) - 1) = Some c.
Proof.
  unfold index. rewrite length_app. cbn [List.length].
  replace (Z.of_nat (List.length init + 1) - 1)%Z
    with (Z.of_nat (List.length init)) by lia.
  destruct (Z.ltb_spec (Z.of_nat (List.length init)) 0); [lia|].
  rewrite Nat2Z.id, nth_error_app2 by lia.
  now rewrite Nat.sub_diag.
Qed.

Lemma filter_filter (A : Type) (f g : A -> bool) (l : list A) :
  filter g (filter f l) = filter (fun x => f x && g x) l.
Proof.
  induction l as [|x l IH]; [reflexivity|]. cbn [filter].
  destruct (f x); cbn [filter andb]; [|exact IH].
  destruct (g x); now rewrite IH.
Qed.

Lemma filter_subsequence (A : Type) (f : A -> bool) (l : list A) :
  subsequence (filter f l) l.
Proof.
  induction l as [|x l IH]; [constructor|]. cbn [filter].
  destruct (f x); now constructor.
Qed.

Lemma matchElements_decides (components : list string) (root element : ref) :
  components <> [] ->
  Forall (fun c => valid E c = true) components ->
  exists b,
    matchElements E d components (Z.of_nat (List.length components) - 1)
      root element = Ok b
    /\ (b = true
        <-> exists chain,
              subsequence chain (visited root element)
              /\ Forall2 (matchesAt E d) chain (rev components)).
Proof.
  intros Hne Hvalid.
  assert (Hlen : 0 < List.length components)
    by (destruct components; [congruence | simpl; lia]).
  replace (Z.of_nat (List.length components) - 1)%Z
    with (Z.of_nat (List.length components - 1)) by lia.
  rewrite matchElements_greedy_from by lia.
  destruct (greedy_finds_chain E d components Hvalid (visited root element)
              (List.length components - 1) ltac:(lia)) as (b & Hb & Hiff).
  exists b. split; [exact Hb|].
  replace (S (List.length components - 1)) with (List.length components)
    in Hiff by lia.
  now rewrite firstn_all in Hiff.
Qed.

(** X21.  A single-component selector pierces every shadow boundary.  With
    shadow support, for a valid selector that is one alternative of one
    component, the all-matches query returns exactly the elements below the
    root, shadow trees included, that natively match the selector, in the
    collector's order (each host followed by its shadow content). *)
Theorem single_component_pierces_shadow_trees (sel : string) (root : ref) :
  shadowSupport E = true ->
  valid E sel = true ->
  singleComponent sel ->
  querySelectorAllXFind E d sel root
  = Ok (VArray (filter (fun el => nativeMatches E d el sel)
                       (discovery d root))).
Proof.
  intros Hs Hv [Hsplit Href].
  assert (Hne : sel <> EmptyString).
  { pose proof (refine_components _ _ Href) as H. now inversion H. }
  unfold querySelectorAllXFind, queryInShadowDOM, querySelector,
    querySelectorAll.
  rewrite Hv, Hs, Hsplit. cbn [bind reduceR].
  unfold alternative. rewrite Href. cbn [bind negb andb].
  cbn [List.length Z.of_nat Pos.of_succ_nat Z.sub Z.add Z.opp Z.pos_sub
       index Z.ltb Z.compare Z.to_nat nth_error].
  rewrite (gather_filtered E d root sel Hne Hv). cbn [bind].
  rewrite filterR_all; [reflexivity|].
  intros x Hx. apply filter_In in Hx. destruct Hx as [Hx Hm].
  apply discovery_in in Hx. destruct Hx as [_ Hx].
  apply matchElements_single.
  - now apply isElement_hasMatches with d.
  - unfold matches. now rewrite Hv, Hm.
Qed.

(** X22.  What the all-matches query of one alternative returns.  With
    shadow support, for a valid selector that is a single alternative and
    whose components [init ++ [final]] the engine accepts one by one, the
    query returns an array; its elements are, in the collector's order,
    the elements below the root (shadow trees included) that natively match
    the final component and on whose way up (through parents and, across a
    shadow boundary, hosts) the components find matches in order, the last
    component nearest. *)
Theorem all_matches_of_an_alternative (sel : string) (root : ref)
  (init : list string) (final : string) :
  shadowSupport E = true ->
  valid E sel = true ->
  Tokenizer.splitByUnquotedCharacter sel (str1 comma) = Ok [sel] ->
  Segmenter.refine sel = Ok (init ++ [final]) ->
  Forall (fun c => valid E c = true) (init ++ [final]) ->
  exists l,
    querySelectorAllXFind E d sel root = Ok (VArray l)
    /\ subsequence l (discovery d root)
    /\ forall el,
         In el l
         <-> In el (discovery d root)
             /\ nativeMatches E d el final = true
             /\ exists chain,
                  subsequence chain (visited root el)
                  /\ Forall2 (matchesAt E d) chain (rev (init ++ [final])).
Proof.
  intros Hs Hv Hsplit Href Hvalid.
  remember (init ++ [final]) as components eqn:Hc.
  assert (Hne : components <> []) by (rewrite Hc; now destruct init).
  assert (Hidx : index components (Z.of_nat (List.length components) - 1)
                 = Some final) by (rewrite Hc; apply index_last).
  assert (Hfinal : final <> EmptyString /\ valid E final = true).
  { pose proof (refine_components _ _ Href) as H.
    assert (Hin : In final components)
      by (rewrite Hc; apply in_or_app; right; now left).
    split; [exact (proj1 (Forall_forall _ _) H _ Hin)
           | exact (proj1 (Forall_forall _ _) Hvalid _ Hin)]. }
  destruct Hfinal as [Hfne Hfv].
  set (accepts := fun el =>
         match matchElements E d components
                 (Z.of_nat (List.length components) - 1) root el with
         | Ok b => b
         | Throw _ => false
         end).
  assert (Hacc : forall el,
             matchElements E d components
               (Z.of_nat (List.length components) - 1) root el
             = Ok (accepts el)).
  { intro el. unfold accepts.
    destruct (matchElements_decides components root el Hne Hvalid)
      as (b & -> & _). reflexivity. }
  exists (filter (fun el => nativeMatches E d el final && accepts el)
                 (discovery d root)).
  split; [|split].
  - unfold querySelectorAllXFind, queryInShadowDOM, querySelector,
      querySelectorAll.
    rewrite Hv, Hs, Hsplit. cbn [bind reduceR].
    unfold alternative. rewrite Href. cbn [bind negb andb].
    rewrite Hidx.
    rewrite (gather_filtered E d root final Hfne Hfv). cbn [bind].
    rewrite (filterR_ok _ accepts _ Hacc). cbn [bind app].
    now rewrite filter_filter.
  - apply filter_subsequence.
  - intro el. rewrite filter_In, andb_true_iff.
    destruct (matchElements_decides components root el Hne Hvalid)
      as (b & Hb & Hiff).
    assert (Hab : accepts el = b) by (unfold accepts; now rewrite Hb).
    rewrite Hab, Hiff. tauto.
Qed.

End AnswerMore.

(* ================================================================== *)
(** ** Highlighting *)

Section HighlightMore.

Lemma highlight_pending (els : list ref) :
  forall p,
    timers (fold_left highlight els p)
    = timers p ++ timers (fold_left highlight els (mkPage (outline p) []))
    /\ outline (fold_left highlight els p)
       = outline (fold_left highlight els (mkPage (outline p) [])).
Proof.
  induction els as [|el els IH]; intro p; cbn [fold_left].
  - cbn [timers outline]. now rewrite app_nil_r.
  - destruct (IH (highlight p el)) as [Ht Ho].
    destruct (IH (highlight (mkPage (outline p) []) el)) as [Ht' Ho'].
    rewrite Ht, Ho, Ht', Ho'.
    unfold highlight. cbn [timers outline app].
    rewrite <- app_assoc. split; reflexivity.
Qed.

Lemma occurrences_cons (x el : ref) (els : list ref) :
  occurrences x (el :: els)
  = if ref_eqb x el then S (occurrences x els) else occurrences x els.
Proof. unfold occurrences. cbn [filter]. now destruct (ref_eqb x el). Qed.

Lemma highlight_paints (els : list ref) :
  forall st tm x,
    outline (fold_left highlight els (mkPage st tm)) x
    = if occurrences x els =? 0 then st x else "2px solid red"%string.
Proof.
  induction els as [|el els IH]; intros st tm x; [reflexivity|].
  cbn [fold_left]. unfold highlight at 2. cbn [outline timers].
  rewrite IH, occurrences_cons. unfold setOutline.
  destruct (ref_eqb x el); [|reflexivity].
  now destruct (occurrences x els).
Qed.

Lemma timeouts_restore (els : list ref) :
  forall st cur x,
    fold_left timeout (timers (fold_left highlight els (mkPage st []))) cur x
    = if occurrences x els =? 0 then cur x
      else if occurrences x els =? 1 then st x
           else "2px solid red"%string.
Proof.
  induction els as [|el els IH]; intros st cur x; [reflexivity|].
  cbn [fold_left]. unfold highlight at 2. cbn [outline timers app].
  destruct (highlight_pending els
              (mkPage (setOutline el "2px solid red"%string st)
                      [(el, st el)])) as [Ht _].
  rewrite Ht. cbn [timers outline app fold_left].
  rewrite IH, occurrences_cons.
  unfold timeout, setOutline. cbn [fst snd].
  destruct (ref_eqb x el) eqn:Hx.
  - apply ref_eqb_eq in Hx. subst el.
    destruct (occurrences x els) as [|[|n]]; reflexivity.
  - reflexivity.
Qed.

(** X23.  Highlighting, and what is left of it.  Starting with no callback
    pending, [highlightElements] on an array gives the red outline to the
    elements the array lists and leaves every other outline alone.  Once
    the callbacks have run, an element listed once has its outline back;
    an element listed twice or more keeps the red outline for good, since
    the later callbacks put back the red outline that was saved for them. *)
Theorem highlight_restores_elements_listed_once (st : ref -> string)
  (els : list ref) (x : ref) :
  let highlighted := highlightElements (VArray els) (mkPage st []) in
  outline highlighted x
  = (if occurrences x els =? 0 then st x else "2px solid red"%string)
  /\ outline (afterTimeouts highlighted) x
     = (if occurrences x els <=? 1 then st x else "2px solid red"%string).
Proof.
  cbn zeta. cbn [highlightElements afterTimeouts outline].
  split; [apply highlight_paints|].
  rewrite timeouts_restore, highlight_paints.
  destruct (occurrences x els) as [|[|n]]; reflexivity.
Qed.

End HighlightMore.

(* ================================================================== *)
(** ** Instances of the further properties *)

Open Scope string_scope.

Lemma split_join_strips_line_terminators_witness :
  Tokenizer.splitByUnquotedCharacter (String "a" (String LF "b")) (str1 comma)
  = Ok ["ab"]
  /\ String.concat (str1 comma) ["ab"]
     = stripLineTerminators (String "a" (String LF "b")).
Proof.
  assert (H : Tokenizer.splitByUnquotedCharacter
                (String "a" (String LF "b")) (str1 comma) = Ok ["ab"])
    by reflexivity.
  split; [exact H|].
  exact (split_join_strips_line_terminators _ comma ["ab"] H).
Defined.

Lemma split_throws_only_on_line_terminators_witness :
  (str1 LF <> EmptyString /\ allChars lineTerminator (str1 LF) = true)
  /\ Tokenizer.splitByUnquotedCharacter (str1 LF) "," = Throw (TypeError "reduce")
  /\ allChars lineTerminator "a,b" = false
  /\ exists piece pieces,
       Tokenizer.splitByUnquotedCharacter "a,b" "," = Ok (piece :: pieces).
Proof.
  assert (H1 : str1 LF <> EmptyString /\ allChars lineTerminator (str1 LF) = true)
    by (split; [discriminate | reflexivity]).
  assert (H2 : allChars lineTerminator "a,b" = false) by reflexivity.
  split; [exact H1|].
  split; [exact (proj1 (split_throws_only_on_line_terminators (str1 LF) ",") H1)|].
  split; [exact H2|].
  exact (proj2 (split_throws_only_on_line_terminators "a,b" ",")
           (or_intror H2)).
Defined.

Lemma split_without_delimiter_witness :
  noLineTerminator "div span" = true
  /\ absent comma "div span" = true
  /\ Tokenizer.splitByUnquotedCharacter "div span" (str1 comma)
     = Ok ["div span"].
Proof.
  assert (H1 : noLineTerminator "div span" = true) by reflexivity.
  assert (H2 : absent comma "div span" = true) by reflexivity.
  split; [exact H1|]. split; [exact H2|].
  exact (split_without_delimiter "div span" comma H1 H2).
Defined.

Lemma split_is_ordinary_split_witness :
  allChars ordinaryChar "a,b,c" = true
  /\ splitOn comma EmptyString "a,b,c" = ["a"; "b"; "c"]
  /\ Tokenizer.splitByUnquotedCharacter "a,b,c" (str1 comma)
     = Ok (splitOn comma EmptyString "a,b,c").
Proof.
  assert (H : allChars ordinaryChar "a,b,c" = true) by reflexivity.
  split; [exact H|]. split; [reflexivity|].
  exact (split_is_ordinary_split "a,b,c" comma H).
Defined.

Lemma split_keeps_quoted_literal_witness :
  allChars (quotable dquote) "1,2" = true
  /\ noLineTerminator ",b" = true
  /\ exists first others,
       Tokenizer.splitByUnquotedCharacter ",b" (str1 comma)
       = Ok (first :: others)
       /\ Tokenizer.splitByUnquotedCharacter
            (append (quote dquote "1,2") ",b") (str1 comma)
          = Ok (append (quote dquote "1,2") first :: others).
Proof.
  assert (H1 : allChars (quotable dquote) "1,2" = true) by reflexivity.
  assert (H2 : noLineTerminator ",b" = true) by reflexivity.
  split; [exact H1|]. split; [exact H2|].
  exact (split_keeps_quoted_literal comma dquote "1,2" ",b"
           (or_introl eq_refl) H1 H2).
Defined.

Lemma split_pieces_are_atomic_witness :
  noLineTerminator Sample.quoted = true
  /\ Tokenizer.splitByUnquotedCharacter Sample.quoted (str1 comma)
     = Ok [Sample.quotedPiece; "b"]
  /\ Forall (fun p => Tokenizer.splitByUnquotedCharacter p (str1 comma)
                      = Ok [p])
            [Sample.quotedPiece; "b"].
Proof.
  assert (H1 : noLineTerminator Sample.quoted = true) by reflexivity.
  assert (H2 : Tokenizer.splitByUnquotedCharacter Sample.quoted (str1 comma)
               = Ok [Sample.quotedPiece; "b"]) by reflexivity.
  split; [exact H1|]. split; [exact H2|].
  exact (split_pieces_are_atomic Sample.quoted comma _ H1 H2).
Defined.

Lemma refine_spells_the_selector_witness :
  Segmenter.refine " main  >  b i " = Ok ["main>b"; "i"]
  /\ visible (String.concat EmptyString ["main>b"; "i"])
     = visible " main  >  b i ".
Proof.
  assert (H : Segmenter.refine " main  >  b i " = Ok ["main>b"; "i"])
    by reflexivity.
  split; [exact H|].
  exact (refine_spells_the_selector _ _ H).
Defined.

Lemma getParentOrHost_in_document_witness :
  isElement Sample.nested Sample.button
  /\ getParentOrHost Sample.button [] = Some Sample.panel
  /\ below Sample.panel Sample.button
  /\ (isElement Sample.nested Sample.panel \/ Sample.panel = []).
Proof.
  assert (H1 : isElement Sample.nested Sample.button)
    by (eexists; reflexivity).
  assert (H2 : getParentOrHost Sample.button [] = Some Sample.panel)
    by reflexivity.
  split; [exact H1|]. split; [exact H2|].
  exact (getParentOrHost_in_document Sample.nested Sample.button []
           Sample.panel H1 H2).
Defined.

Lemma matchElements_accepts_iff_chain_witness :
  ["main"; "b"] <> []
  /\ Forall (fun c => valid Mini.engine c = true) ["main"; "b"]
  /\ exists b,
       matchElements Mini.engine Sample.nested ["main"; "b"]
         (Z.of_nat (List.length ["main"; "b"]) - 1) [] Sample.bold = Ok b
       /\ (b = true
           <-> exists chain,
                 subsequence chain (visited [] Sample.bold)
                 /\ Forall2 (matchesAt Mini.engine Sample.nested) chain
                      (rev ["main"; "b"])).
Proof.
  assert (H1 : ["main"; "b"] <> []) by discriminate.
  assert (H2 : Forall (fun c => valid Mini.engine c = true) ["main"; "b"])
    by (constructor; [reflexivity | constructor; [reflexivity | constructor]]).
  split; [exact H1|]. split; [exact H2|].
  exact (matchElements_accepts_iff_chain Mini.engine Sample.nested
           ["main"; "b"] [] Sample.bold H1 H2).
Defined.

Lemma gather_extends_native_star_witness :
  exists collected,
    gatherAllElementsXFind Mini.engine Sample.light None [] = Ok collected
    /\ incl (querySelectorAllStar Sample.light []) collected
    /\ collected = querySelectorAllStar Sample.light [].
Proof.
  destruct (gather_extends_native_star Mini.engine Sample.light [])
    as (collected & Hg & Hi & He).
  exists collected. split; [exact Hg|]. split; [exact Hi|].
  exact (He eq_refl).
Defined.

Lemma gather_nests_witness :
  gatherAllElementsXFind Mini.engine Sample.nested None []
  = Ok (discovery Sample.nested [])
  /\ In Sample.panel (discovery Sample.nested [])
  /\ gatherAllElementsXFind Mini.engine Sample.nested None Sample.panel
     = Ok (discovery Sample.nested Sample.panel)
  /\ incl (discovery Sample.nested Sample.panel) (discovery Sample.nested []).
Proof.
  assert (H1 : gatherAllElementsXFind Mini.engine Sample.nested None []
               = Ok (discovery Sample.nested [])) by reflexivity.
  assert (H2 : In Sample.panel (discovery Sample.nested []))
    by (right; left; reflexivity).
  assert (H3 : gatherAllElementsXFind Mini.engine Sample.nested None
                 Sample.panel
               = Ok (discovery Sample.nested Sample.panel)) by reflexivity.
  split; [exact H1|]. split; [exact H2|]. split; [exact H3|].
  exact (gather_nests Mini.engine Sample.nested [] Sample.panel _ _
           H1 H2 H3).
Defined.

Lemma gather_with_rejected_filter_witness :
  ">" <> EmptyString
  /\ valid Mini.engine ">" = false
  /\ gatherAllElementsXFind Mini.engine Sample.nested (Some ">") []
     = Throw (SyntaxError ">").
Proof.
  assert (H1 : ">" <> EmptyString) by discriminate.
  assert (H2 : valid Mini.engine ">" = false) by reflexivity.
  split; [exact H1|]. split; [exact H2|].
  exact (gather_with_rejected_filter Mini.engine Sample.nested [] ">" H1 H2).
Defined.


Lemma results_lie_below_the_root_witness :
  snd (xfind Mini.engine "b" Sample.panel (Sample.fresh Sample.nested))
  = Ok (VElement Sample.bold)
  /\ below Sample.panel Sample.bold
  /\ isElement Sample.nested Sample.bold.
Proof.
  assert (H : snd (xfind Mini.engine "b" Sample.panel
                     (Sample.fresh Sample.nested))
              = Ok (VElement Sample.bold)) by reflexivity.
  split; [exact H|].
  exact (proj1 (results_lie_below_the_root Mini.engine "b" Sample.panel
                  (Sample.fresh Sample.nested)) Sample.bold H).
Defined.

Lemma first_match_heads_all_matches_witness :
  querySelectorAllXFind Mini.engine Sample.nested "b" []
  = Ok (VArray [Sample.bold])
  /\ exists light,
       querySelector Mini.engine Sample.nested [] "b" = Ok light
       /\ querySelectorXFind Mini.engine Sample.nested "b" []
          = Ok (match light with
                | Some el => VElement el
                | None => ofOption (hd_error [Sample.bold])
                end).
Proof.
  assert (H : querySelectorAllXFind Mini.engine Sample.nested "b" []
              = Ok (VArray [Sample.bold])) by reflexivity.
  split; [exact H|].
  exact (first_match_heads_all_matches Mini.engine Sample.nested "b" []
           [Sample.bold] H).
Defined.

Lemma all_matches_concatenate_alternatives_witness :
  shadowSupport Mini.engine = true
  /\ valid Mini.engine "span,b" = true
  /\ noLineTerminator "span,b" = true
  /\ Tokenizer.splitByUnquotedCharacter "span,b" (str1 comma)
     = Ok ["span"; "b"]
  /\ Forall (fun a => valid Mini.engine a = true) ["span"; "b"]
  /\ (querySelectorAllXFind Mini.engine Sample.nested "span,b" []
      = Ok (VArray [[Child 0; Child 0; Child 0]; Sample.bold])
      <-> exists results,
            Forall2 (fun a r => querySelectorAllXFind Mini.engine
                                  Sample.nested a [] = Ok (VArray r))
                    ["span"; "b"] results
            /\ [[Child 0; Child 0; Child 0]; Sample.bold]
               = List.concat results).
Proof.
  assert (H1 : shadowSupport Mini.engine = true) by reflexivity.
  assert (H2 : valid Mini.engine "span,b" = true) by reflexivity.
  assert (H3 : noLineTerminator "span,b" = true) by reflexivity.
  assert (H4 : Tokenizer.splitByUnquotedCharacter "span,b" (str1 comma)
               = Ok ["span"; "b"]) by reflexivity.
  assert (H5 : Forall (fun a => valid Mini.engine a = true) ["span"; "b"])
    by (constructor; [reflexivity | constructor; [reflexivity | constructor]]).
  split; [exact H1|]. split; [exact H2|]. split; [exact H3|].
  split; [exact H4|]. split; [exact H5|].
  exact (all_matches_concatenate_alternatives Mini.engine Sample.nested
           "span,b" ["span"; "b"] [] _ H1 H2 H3 H4 H5).
Defined.

Lemma single_component_pierces_shadow_trees_witness :
  shadowSupport Mini.engine = true
  /\ valid Mini.engine "b" = true
  /\ singleComponent "b"
  /\ querySelectorAll Mini.engine Sample.nested [] "b" = Ok []
  /\ querySelectorAllXFind Mini.engine Sample.nested "b" []
     = Ok (VArray (filter (fun el => nativeMatches Mini.engine Sample.nested
                                       el "b")
                          (discovery Sample.nested []))).
Proof.
  assert (H1 : shadowSupport Mini.engine = true) by reflexivity.
  assert (H2 : valid Mini.engine "b" = true) by reflexivity.
  assert (H3 : singleComponent "b") by (split; reflexivity).
  split; [exact H1|]. split; [exact H2|]. split; [exact H3|].
  split; [reflexivity|].
  exact (single_component_pierces_shadow_trees Mini.engine Sample.nested
           "b" [] H1 H2 H3).
Defined.

Lemma all_matches_of_an_alternative_witness :
  shadowSupport Mini.engine = true
  /\ valid Mini.engine "main b" = true
  /\ Tokenizer.splitByUnquotedCharacter "main b" (str1 comma) = Ok ["main b"]
  /\ Segmenter.refine "main b" = Ok (["main"] ++ ["b"])%list
  /\ Forall (fun c => valid Mini.engine c = true) (["main"] ++ ["b"])%list
  /\ exists l,
       querySelectorAllXFind Mini.engine Sample.nested "main b" []
       = Ok (VArray l)
       /\ subsequence l (discovery Sample.nested [])
       /\ forall el,
            In el l
            <-> In el (discovery Sample.nested [])
                /\ nativeMatches Mini.engine Sample.nested el "b" = true
                /\ exists chain,
                     subsequence chain (visited [] el)
                     /\ Forall2 (matchesAt Mini.engine Sample.nested) chain
                          (rev (["main"] ++ ["b"])%list).
Proof.
  assert (H1 : shadowSupport Mini.engine = true) by reflexivity.
  assert (H2 : valid Mini.engine "main b" = true) by reflexivity.
  assert (H3 : Tokenizer.splitByUnquotedCharacter "main b" (str1 comma)
               = Ok ["main b"]) by reflexivity.
  assert (H4 : Segmenter.refine "main b" = Ok (["main"] ++ ["b"])%list)
    by reflexivity.
  assert (H5 : Forall (fun c => valid Mini.engine c = true)
                 (["main"] ++ ["b"])%list)
    by (constructor; [reflexivity | constructor; [reflexivity | constructor]]).
  split; [exact H1|]. split; [exact H2|]. split; [exact H3|].
  split; [exact H4|]. split; [exact H5|].
  exact (all_matches_of_an_alternative Mini.engine Sample.nested "main b" []
           ["main"] "b" H1 H2 H3 H4 H5).
Defined.
